(** * The game canvas component: simulation loop, effects, collisions

    A shallow embedding of the frame step of [GameCanvas] (the React
    component of the repository) and of the handlers around it.

    Conventions of the embedding.
    - A JavaScript [number] is an exact rational ([Q]): rounding of
      IEEE doubles is not modelled.  Counters that only ever hold
      integers (score, token tallies, difficulty level) are [Z].
    - The closure variables of the [useEffect] that owns the loop are
      fields of [World], grouped by the part of the game they belong to;
      the fields keep the names of the variables.
    - [Math.random()] is an oracle: every call site of one frame reads
      its own field of [Draws].  A frame calls each site at most once.
    - Drawing on the canvas and the trail buffer do not feed back into
      the simulation and are left out.
    - The effect that copies the [tokenCounts] cell into the ref after a
      render changes nothing where the two agree; a start makes them
      agree and every event keeps them so ([run_ref_in_step]), so it is
      not a step of the model.
    - A run is any list of impulses and frames: the frames a real run
      no longer gets once it has ended are not cut off, and what holds
      of every list holds of the shorter ones. *)

From Stdlib Require Import QArith Qround Qabs Qminmax ZArith List Bool Lia Lqa.
Import ListNotations.

Open Scope Q_scope.

Definition number := Q.

(** ** Comparison operators of the source, as booleans *)

Definition Qltb (a b : number) : bool := negb (Qle_bool b a).
Definition Qleb (a b : number) : bool := Qle_bool a b.
Definition Qgtb (a b : number) : bool := Qltb b a.
Definition Qgeb (a b : number) : bool := Qleb b a.

Notation "a <? b" := (Qltb a b) (at level 70, no associativity) : Q_scope.
Notation "a <=? b" := (Qleb a b) (at level 70, no associativity) : Q_scope.
Notation "a >? b" := (Qgtb a b) (at level 70, no associativity) : Q_scope.
Notation "a >=? b" := (Qgeb a b) (at level 70, no associativity) : Q_scope.

(** ** Game constants *)

Definition GAME_WIDTH : number := 800.
Definition GAME_HEIGHT : number := 600.
Definition GATE_SPEED : number := 2.53.
Definition DIFFICULTY_INCREASE : number := 0.1.
Definition DIFFICULTY_GATE_THRESHOLD : Z := 15.
Definition BTC_SPEED_BOOST : number := 1.1.
Definition SOL_SPEED_BOOST : number := 2.0.
Definition GATE_WIDTH : number := 50.
Definition GATE_DISTANCE : number := GATE_WIDTH * 4.
Definition INITIAL_GATE_GAP : number := 150.
Definition NARROW_GATE_GAP : number := 120.
Definition GATE_GAP_INCREASE_PERCENT : number := 50.
Definition LINE_X_POSITION : number := 100.
Definition BOUNCE_VELOCITY : number := -5.5.
Definition GRAVITY : number := 0.22.
Definition TOKEN_COLLECTION_RADIUS : number := 50.
Definition BCH_CHAOS_DURATION : number := 3000.
Definition SOL_EFFECT_DURATION : number := 5000.
Definition MIN_VERTICAL_VARIANCE : number := -100.
Definition MAX_VERTICAL_VARIANCE : number := 100.

(** ** Enumerations and game objects *)

Inductive TokenType := NONE | BTC | ETH | TAO | BCH | HBAR | SOL.

Inductive GameState := START | PLAYING | GAME_OVER.

Definition TokenType_eq_dec (a b : TokenType) : {a = b} + {a <> b}.
Proof. decide equality. Defined.

(** [a !== b] on token types. *)
Definition TokenType_neqb (a b : TokenType) : bool :=
  if TokenType_eq_dec a b then false else true.

Definition TokenType_eqb (a b : TokenType) : bool :=
  negb (TokenType_neqb a b).

Record Gate := {
  x : number;
  topHeight : number;
  hasPassed : bool;
  tokenType : TokenType;
  baseGateGap : number;
  isFlashing : bool
}.

Record TokenEffect := {
  type : TokenType;
  endTime : number
}.

(** The record keyed by the six token kinds (there is no key for [NONE]). *)
Record TokenCounts := {
  btc : Z;
  eth : Z;
  tao : Z;
  bch : Z;
  hbar : Z;
  sol : Z
}.

Definition zeroCounts : TokenCounts :=
  {| btc := 0; eth := 0; tao := 0; bch := 0; hbar := 0; sol := 0 |}.

(** [counts[k]]: there is no property for [NONE]. *)
Definition getCount (c : TokenCounts) (k : TokenType) : option Z :=
  match k with
  | NONE => None
  | BTC => Some (btc c)
  | ETH => Some (eth c)
  | TAO => Some (tao c)
  | BCH => Some (bch c)
  | HBAR => Some (hbar c)
  | SOL => Some (sol c)
  end.

(** [{ ...counts, [k]: v }] for one of the six keys. *)
Definition setCount (c : TokenCounts) (k : TokenType) (v : Z) : TokenCounts :=
  match k with
  | NONE => c
  | BTC => {| btc := v; eth := eth c; tao := tao c; bch := bch c; hbar := hbar c; sol := sol c |}
  | ETH => {| btc := btc c; eth := v; tao := tao c; bch := bch c; hbar := hbar c; sol := sol c |}
  | TAO => {| btc := btc c; eth := eth c; tao := v; bch := bch c; hbar := hbar c; sol := sol c |}
  | BCH => {| btc := btc c; eth := eth c; tao := tao c; bch := v; hbar := hbar c; sol := sol c |}
  | HBAR => {| btc := btc c; eth := eth c; tao := tao c; bch := bch c; hbar := v; sol := sol c |}
  | SOL => {| btc := btc c; eth := eth c; tao := tao c; bch := bch c; hbar := hbar c; sol := v |}
  end.

(** [Object.keys] of a counts record, in insertion order. *)
Definition countKeys : list TokenType := [BTC; ETH; TAO; BCH; HBAR; SOL].

(** [{ ...counts, [k]: counts[k] + 1 }]. *)
Definition incrCount (c : TokenCounts) (k : TokenType) : TokenCounts :=
  match getCount c k with
  | Some n => setCount c k (n + 1)
  | None => c
  end.

(** ** State *)

(** The [useState] cells of the component. *)
Record Component := {
  gameState : GameState;
  score : Z;
  highScore : Z;
  tokenCounts : TokenCounts;
  highestTokenCounts : TokenCounts
}.

(** The two keys of [localStorage]; [None] is an absent key.  Values are
    kept as they are (the string conversions are not modelled). *)
Record LocalStorage := {
  btcGameHighScore : option Z;
  btcGameHighestTokenCounts : option TokenCounts
}.

Record Player := {
  lineY : number;
  lineVelocity : number;
  isAscending : bool
}.

Record Stream := {
  gates : list Gate;
  lastGateX : number;
  gatesPassed : Z;
  currentScore : Z;
  baseSpeed : number;
  lastTokenType : TokenType;
  difficultyLevel : Z
}.

Record Effects := {
  currentSpeed : number;
  activeEffects : list TokenEffect;
  isGoldMode : bool;
  flashingGates : bool;
  btcEffectActive : bool;
  solEffectActive : bool;
  screenFlashTime : number;
  chaosMode : bool;
  chaosModeEndTime : number
}.

(** Everything a frame can read or write: the closure variables, the
    state cells as last set, the ref and the storage. *)
Record World := {
  player : Player;
  stream : Stream;
  effects : Effects;
  react : Component;
  tokenCountsRef : TokenCounts;
  localStorage : LocalStorage
}.

(** The values [Math.random()] returns at the call sites of one frame. *)
Record Draws := {
  rChaos : number;
  rVariance : number;
  rTop : number;
  rNarrow : number;
  rTokenRoll : number;
  rIndex : number
}.

(** What [Math.random()] promises. *)
Definition unit_draw (r : number) : Prop := 0 <= r /\ r < 1.

(** ** Field updates *)

Definition set_lineY (v : number) (p : Player) : Player :=
  {| lineY := v; lineVelocity := lineVelocity p; isAscending := isAscending p |}.
Definition set_lineVelocity (v : number) (p : Player) : Player :=
  {| lineY := lineY p; lineVelocity := v; isAscending := isAscending p |}.
Definition set_isAscending (v : bool) (p : Player) : Player :=
  {| lineY := lineY p; lineVelocity := lineVelocity p; isAscending := v |}.

Definition set_gates (v : list Gate) (s : Stream) : Stream :=
  {| gates := v; lastGateX := lastGateX s; gatesPassed := gatesPassed s;
     currentScore := currentScore s; baseSpeed := baseSpeed s;
     lastTokenType := lastTokenType s; difficultyLevel := difficultyLevel s |}.
Definition set_lastGateX (v : number) (s : Stream) : Stream :=
  {| gates := gates s; lastGateX := v; gatesPassed := gatesPassed s;
     currentScore := currentScore s; baseSpeed := baseSpeed s;
     lastTokenType := lastTokenType s; difficultyLevel := difficultyLevel s |}.
Definition set_gatesPassed (v : Z) (s : Stream) : Stream :=
  {| gates := gates s; lastGateX := lastGateX s; gatesPassed := v;
     currentScore := currentScore s; baseSpeed := baseSpeed s;
     lastTokenType := lastTokenType s; difficultyLevel := difficultyLevel s |}.
Definition set_currentScore (v : Z) (s : Stream) : Stream :=
  {| gates := gates s; lastGateX := lastGateX s; gatesPassed := gatesPassed s;
     currentScore := v; baseSpeed := baseSpeed s;
     lastTokenType := lastTokenType s; difficultyLevel := difficultyLevel s |}.
Definition set_baseSpeed (v : number) (s : Stream) : Stream :=
  {| gates := gates s; lastGateX := lastGateX s; gatesPassed := gatesPassed s;
     currentScore := currentScore s; baseSpeed := v;
     lastTokenType := lastTokenType s; difficultyLevel := difficultyLevel s |}.
Definition set_lastTokenType (v : TokenType) (s : Stream) : Stream :=
  {| gates := gates s; lastGateX := lastGateX s; gatesPassed := gatesPassed s;
     currentScore := currentScore s; baseSpeed := baseSpeed s;
     lastTokenType := v; difficultyLevel := difficultyLevel s |}.
Definition set_difficultyLevel (v : Z) (s : Stream) : Stream :=
  {| gates := gates s; lastGateX := lastGateX s; gatesPassed := gatesPassed s;
     currentScore := currentScore s; baseSpeed := baseSpeed s;
     lastTokenType := lastTokenType s; difficultyLevel := v |}.

Definition set_currentSpeed (v : number) (e : Effects) : Effects :=
  {| currentSpeed := v; activeEffects := activeEffects e; isGoldMode := isGoldMode e;
     flashingGates := flashingGates e; btcEffectActive := btcEffectActive e;
     solEffectActive := solEffectActive e; screenFlashTime := screenFlashTime e;
     chaosMode := chaosMode e; chaosModeEndTime := chaosModeEndTime e |}.
Definition set_activeEffects (v : list TokenEffect) (e : Effects) : Effects :=
  {| currentSpeed := currentSpeed e; activeEffects := v; isGoldMode := isGoldMode e;
     flashingGates := flashingGates e; btcEffectActive := btcEffectActive e;
     solEffectActive := solEffectActive e; screenFlashTime := screenFlashTime e;
     chaosMode := chaosMode e; chaosModeEndTime := chaosModeEndTime e |}.
Definition set_isGoldMode (v : bool) (e : Effects) : Effects :=
  {| currentSpeed := currentSpeed e; activeEffects := activeEffects e; isGoldMode := v;
     flashingGates := flashingGates e; btcEffectActive := btcEffectActive e;
     solEffectActive := solEffectActive e; screenFlashTime := screenFlashTime e;
     chaosMode := chaosMode e; chaosModeEndTime := chaosModeEndTime e |}.
Definition set_flashingGates (v : bool) (e : Effects) : Effects :=
  {| currentSpeed := currentSpeed e; activeEffects := activeEffects e; isGoldMode := isGoldMode e;
     flashingGates := v; btcEffectActive := btcEffectActive e;
     solEffectActive := solEffectActive e; screenFlashTime := screenFlashTime e;
     chaosMode := chaosMode e; chaosModeEndTime := chaosModeEndTime e |}.
Definition set_btcEffectActive (v : bool) (e : Effects) : Effects :=
  {| currentSpeed := currentSpeed e; activeEffects := activeEffects e; isGoldMode := isGoldMode e;
     flashingGates := flashingGates e; btcEffectActive := v;
     solEffectActive := solEffectActive e; screenFlashTime := screenFlashTime e;
     chaosMode := chaosMode e; chaosModeEndTime := chaosModeEndTime e |}.
Definition set_solEffectActive (v : bool) (e : Effects) : Effects :=
  {| currentSpeed := currentSpeed e; activeEffects := activeEffects e; isGoldMode := isGoldMode e;
     flashingGates := flashingGates e; btcEffectActive := btcEffectActive e;
     solEffectActive := v; screenFlashTime := screenFlashTime e;
     chaosMode := chaosMode e; chaosModeEndTime := chaosModeEndTime e |}.
Definition set_screenFlashTime (v : number) (e : Effects) : Effects :=
  {| currentSpeed := currentSpeed e; activeEffects := activeEffects e; isGoldMode := isGoldMode e;
     flashingGates := flashingGates e; btcEffectActive := btcEffectActive e;
     solEffectActive := solEffectActive e; screenFlashTime := v;
     chaosMode := chaosMode e; chaosModeEndTime := chaosModeEndTime e |}.
Definition set_chaosMode (v : bool) (e : Effects) : Effects :=
  {| currentSpeed := currentSpeed e; activeEffects := activeEffects e; isGoldMode := isGoldMode e;
     flashingGates := flashingGates e; btcEffectActive := btcEffectActive e;
     solEffectActive := solEffectActive e; screenFlashTime := screenFlashTime e;
     chaosMode := v; chaosModeEndTime := chaosModeEndTime e |}.
Definition set_chaosModeEndTime (v : number) (e : Effects) : Effects :=
  {| currentSpeed := currentSpeed e; activeEffects := activeEffects e; isGoldMode := isGoldMode e;
     flashingGates := flashingGates e; btcEffectActive := btcEffectActive e;
     solEffectActive := solEffectActive e; screenFlashTime := screenFlashTime e;
     chaosMode := chaosMode e; chaosModeEndTime := v |}.

Definition set_gameState (v : GameState) (c : Component) : Component :=
  {| gameState := v; score := score c; highScore := highScore c;
     tokenCounts := tokenCounts c; highestTokenCounts := highestTokenCounts c |}.
Definition set_score (v : Z) (c : Component) : Component :=
  {| gameState := gameState c; score := v; highScore := highScore c;
     tokenCounts := tokenCounts c; highestTokenCounts := highestTokenCounts c |}.
Definition set_highScore (v : Z) (c : Component) : Component :=
  {| gameState := gameState c; score := score c; highScore := v;
     tokenCounts := tokenCounts c; highestTokenCounts := highestTokenCounts c |}.
Definition set_tokenCounts (v : TokenCounts) (c : Component) : Component :=
  {| gameState := gameState c; score := score c; highScore := highScore c;
     tokenCounts := v; highestTokenCounts := highestTokenCounts c |}.
Definition set_highestTokenCounts (v : TokenCounts) (c : Component) : Component :=
  {| gameState := gameState c; score := score c; highScore := highScore c;
     tokenCounts := tokenCounts c; highestTokenCounts := v |}.

Definition setItem_highScore (v : Z) (l : LocalStorage) : LocalStorage :=
  {| btcGameHighScore := Some v;
     btcGameHighestTokenCounts := btcGameHighestTokenCounts l |}.
Definition setItem_highestTokenCounts (v : TokenCounts) (l : LocalStorage) : LocalStorage :=
  {| btcGameHighScore := btcGameHighScore l;
     btcGameHighestTokenCounts := Some v |}.

Definition on_player (f : Player -> Player) (w : World) : World :=
  {| player := f (player w); stream := stream w; effects := effects w;
     react := react w; tokenCountsRef := tokenCountsRef w;
     localStorage := localStorage w |}.
Definition on_stream (f : Stream -> Stream) (w : World) : World :=
  {| player := player w; stream := f (stream w); effects := effects w;
     react := react w; tokenCountsRef := tokenCountsRef w;
     localStorage := localStorage w |}.
Definition on_effects (f : Effects -> Effects) (w : World) : World :=
  {| player := player w; stream := stream w; effects := f (effects w);
     react := react w; tokenCountsRef := tokenCountsRef w;
     localStorage := localStorage w |}.
Definition on_react (f : Component -> Component) (w : World) : World :=
  {| player := player w; stream := stream w; effects := effects w;
     react := f (react w); tokenCountsRef := tokenCountsRef w;
     localStorage := localStorage w |}.
Definition on_tokenCountsRef (f : TokenCounts -> TokenCounts) (w : World) : World :=
  {| player := player w; stream := stream w; effects := effects w;
     react := react w; tokenCountsRef := f (tokenCountsRef w);
     localStorage := localStorage w |}.
Definition on_localStorage (f : LocalStorage -> LocalStorage) (w : World) : World :=
  {| player := player w; stream := stream w; effects := effects w;
     react := react w; tokenCountsRef := tokenCountsRef w;
     localStorage := f (localStorage w) |}.

Definition set_x (v : number) (g : Gate) : Gate :=
  {| x := v; topHeight := topHeight g; hasPassed := hasPassed g;
     tokenType := tokenType g; baseGateGap := baseGateGap g;
     isFlashing := isFlashing g |}.
Definition set_hasPassed (v : bool) (g : Gate) : Gate :=
  {| x := x g; topHeight := topHeight g; hasPassed := v;
     tokenType := tokenType g; baseGateGap := baseGateGap g;
     isFlashing := isFlashing g |}.
Definition set_tokenType (v : TokenType) (g : Gate) : Gate :=
  {| x := x g; topHeight := topHeight g; hasPassed := hasPassed g;
     tokenType := v; baseGateGap := baseGateGap g;
     isFlashing := isFlashing g |}.
Definition set_isFlashing (v : bool) (g : Gate) : Gate :=
  {| x := x g; topHeight := topHeight g; hasPassed := hasPassed g;
     tokenType := tokenType g; baseGateGap := baseGateGap g;
     isFlashing := v |}.

(** ** Input *)

(** [handleInput]: both the key handler and the click handler call it. *)
Definition handleInput (w : World) : World :=
  on_player (fun p => set_isAscending true (set_lineVelocity BOUNCE_VELOCITY p)) w.

(** ** Spawning gates *)

Definition getRandomVerticalVariance (rnd : Draws) : number :=
  MIN_VERTICAL_VARIANCE + rVariance rnd * (MAX_VERTICAL_VARIANCE - MIN_VERTICAL_VARIANCE).

(** The pool built by the six guarded [push]es, for a given last kind. *)
Definition possibleTokens (last : TokenType) : list TokenType :=
  (if TokenType_neqb last BTC then [BTC] else []) ++
  (if TokenType_neqb last ETH then [ETH] else []) ++
  (if TokenType_neqb last TAO then [TAO] else []) ++
  (if TokenType_neqb last BCH then [BCH] else []) ++
  (if TokenType_neqb last HBAR then [HBAR] else []) ++
  (if TokenType_neqb last SOL then [SOL] else []).

(** [Math.floor(Math.random() * pool.length)]. *)
Definition randomIndex (r : number) (pool : list TokenType) : Z :=
  Qfloor (r * inject_Z (Z.of_nat (length pool))).

(** [getRandomTokenType], reading [lastTokenType].  The array read is
    in range for every draw in the unit interval ([randomIndex_range]),
    so the default of [nth] is never the result. *)
Definition getRandomTokenType (rnd : Draws) (last : TokenType) : TokenType :=
  let tokenRoll := rTokenRoll rnd in
  if tokenRoll <? 0.25 then
    let pool := possibleTokens last in
    if (0 <? length pool)%nat then
      nth (Z.to_nat (randomIndex (rIndex rnd) pool)) pool NONE
    else NONE
  else NONE.

(** The body shared by [initializeGate] and by the spawn branch of the
    loop (the two copies are identical). *)
Definition spawnGate (rnd : Draws) (s : Stream) : Stream :=
  let verticalVariance := getRandomVerticalVariance rnd in
  let minTopHeight := 50 in
  let maxTopHeight := GAME_HEIGHT - INITIAL_GATE_GAP - 100 in
  let topHeight0 := rTop rnd * (maxTopHeight - minTopHeight) + minTopHeight in
  let topHeight1 := topHeight0 + verticalVariance in
  let topHeight2 := Qmax minTopHeight (Qmin maxTopHeight topHeight1) in
  let isNarrowGate := rNarrow rnd <? 0.3 in
  let gap := if isNarrowGate then NARROW_GATE_GAP else INITIAL_GATE_GAP in
  let kind := getRandomTokenType rnd (lastTokenType s) in
  let s := set_lastTokenType kind s in
  let s := set_gates (gates s ++ [ {| x := GAME_WIDTH; topHeight := topHeight2;
                                      hasPassed := false; tokenType := kind;
                                      baseGateGap := gap; isFlashing := false |} ]) s in
  set_lastGateX GAME_WIDTH s.

Definition initializeGate (rnd : Draws) (w : World) : World :=
  on_stream (spawnGate rnd) w.

(** ** Effects *)

(** One iteration of the [for ... of activeEffects] loop: the [switch]. *)
Definition applyActive (w : World) (effect : TokenEffect) : World :=
  let base := baseSpeed (stream w) in
  match type effect with
  | ETH => on_effects (set_currentSpeed (base * 0.5)) w
  | TAO => on_effects (set_flashingGates true) w
  | HBAR => on_effects (set_isGoldMode true) w
  | BTC =>
      on_effects (fun e => set_currentSpeed (base * BTC_SPEED_BOOST)
                             (set_btcEffectActive true e)) w
  | SOL =>
      let w := on_effects (fun e => set_currentSpeed (base * SOL_SPEED_BOOST)
                                      (set_solEffectActive true e)) w in
      on_player (set_lineVelocity 0) w
  | NONE | BCH => w
  end.

(** The expiry filter of [processEffects]. *)
Definition unexpired (timestamp : number) (l : list TokenEffect) : list TokenEffect :=
  filter (fun effect => endTime effect >? timestamp) l.

Definition processEffects (timestamp : number) (w : World) : World :=
  let live := unexpired timestamp (activeEffects (effects w)) in
  let w := on_effects (set_activeEffects live) w in
  let w := on_effects (fun e =>
             set_solEffectActive false
               (set_btcEffectActive false
                  (set_flashingGates false
                     (set_isGoldMode false
                        (set_currentSpeed (baseSpeed (stream w)) e))))) w in
  fold_left applyActive live w.

Definition pushEffect (k : TokenType) (t : number) (e : Effects) : Effects :=
  set_activeEffects (activeEffects e ++ [ {| type := k; endTime := t |} ]) e.

Definition applyTokenEffect (k : TokenType) (timestamp : number) (w : World) : World :=
  match k with
  | BTC => on_effects (pushEffect BTC (timestamp + 10000)) w
  | ETH => on_effects (pushEffect ETH (timestamp + 5000)) w
  | TAO => on_effects (pushEffect TAO (timestamp + 5000)) w
  | HBAR => on_effects (pushEffect HBAR (timestamp + 10000)) w
  | BCH => w
  | SOL => on_effects (pushEffect SOL (timestamp + SOL_EFFECT_DURATION)) w
  | NONE => w
  end.

(** ** Raising the best counts *)

(** The body of the [forEach] over the keys of [tokenCountsRef.current]:
    the accumulator is [(newHighestCounts, countsUpdated)]. *)
Definition raiseCount (current : TokenCounts) (acc : TokenCounts * bool)
           (k : TokenType) : TokenCounts * bool :=
  match getCount current k, getCount (fst acc) k with
  | Some c, Some h => if (c >? h)%Z then (setCount (fst acc) k c, true) else acc
  | _, _ => acc
  end.

(** The [forEach] of the game-over block, from the copy of the captured
    best counts: the result is [(newHighestCounts, countsUpdated)]. *)
Definition raiseCounts (current highest : TokenCounts) : TokenCounts * bool :=
  fold_left (raiseCount current) countKeys (highest, false).

(** ** The frame step *)

Section Closure.

(** The state cells as the effect that owns the loop captured them:
    the loop reads [highScore] and [highestTokenCounts] from here for
    its whole lifetime, whatever it sets in the meantime. *)
Variable render : Component.

(** The block run on a collision and on leaving the playfield (the
    source has it twice, word for word). *)
Definition gameOver (w : World) : World :=
  let w := on_react (set_gameState GAME_OVER) w in
  let w :=
    if (currentScore (stream w) >? highScore render)%Z then
      on_localStorage (setItem_highScore (currentScore (stream w)))
        (on_react (set_highScore (currentScore (stream w))) w)
    else w in
  let '(newHighestCounts, countsUpdated) :=
    raiseCounts (tokenCountsRef w) (highestTokenCounts render) in
  let w :=
    if countsUpdated then
      on_localStorage (setItem_highestTokenCounts newHighestCounts)
        (on_react (set_highestTokenCounts newHighestCounts) w)
    else w in
  on_react (set_tokenCounts (tokenCountsRef w)) w.

(** The gap of a gate under the effects of the frame. *)
Definition actualGateGap (btcActive : bool) (gate : Gate) : number :=
  if btcActive then baseGateGap gate * (1 + GATE_GAP_INCREASE_PERCENT / 100)
  else baseGateGap gate.

(** The local [collision] of the callback. *)
Definition collision (solActive : bool) (y : number) (gate : Gate) (gap : number) : bool :=
  let c := false in
  if negb solActive then
    let c := if y <=? topHeight gate then true else c in
    let c := if y >=? topHeight gate + gap then true else c in
    c
  else c.

(** "Check if token was collected". *)
Definition checkTokenCollected (timestamp gap : number) (gate : Gate) (w : World)
  : Gate * World :=
  if TokenType_neqb (tokenType gate) NONE then
    let tokenY := topHeight gate + gap / 2 in
    if Qabs (lineY (player w) - tokenY) <? TOKEN_COLLECTION_RADIUS then
      let w := applyTokenEffect (tokenType gate) timestamp w in
      let w := on_effects (set_screenFlashTime timestamp) w in
      let kind := tokenType gate in
      let w := on_tokenCountsRef (fun c => incrCount c kind) w in
      let w := on_react (fun c => set_tokenCounts (incrCount (tokenCounts c) kind) c) w in
      let w :=
        if TokenType_eqb (tokenType gate) BCH then
          on_effects (fun e => set_chaosModeEndTime (timestamp + BCH_CHAOS_DURATION)
                                 (set_chaosMode true e)) w
        else w in
      (set_tokenType NONE gate, w)
    else (gate, w)
  else (gate, w).

(** "Check if gate has been passed". *)
Definition checkGatePassed (gate : Gate) (w : World) : Gate * World :=
  if negb (hasPassed gate) && (x gate + GATE_WIDTH <? LINE_X_POSITION) then
    let gate := set_hasPassed true gate in
    let w := on_stream (fun s => set_gatesPassed (gatesPassed s + 1) s) w in
    let w := on_stream (fun s => set_currentScore (gatesPassed s) s) w in
    let w := on_react (set_score (currentScore (stream w))) w in
    let w :=
      if (Z.rem (gatesPassed (stream w)) DIFFICULTY_GATE_THRESHOLD =? 0)%Z then
        let w := on_stream (fun s => set_difficultyLevel (difficultyLevel s + 1) s) w in
        on_stream (fun s =>
          set_baseSpeed
            (GATE_SPEED * (1 + (inject_Z (difficultyLevel s) - 1) * DIFFICULTY_INCREASE)) s) w
      else w in
    (gate, w)
  else (gate, w).

(** The head of the callback of [gates.filter]: move the gate, track
    the rightmost gate, set the flashing flag. *)
Definition advanceGate (timestamp : number) (gate : Gate) (w : World)
  : Gate * World :=
  let gate := set_x (x gate - currentSpeed (effects w)) gate in
  let w :=
    if x gate >? lastGateX (stream w) - GATE_WIDTH then
      on_stream (set_lastGateX (x gate)) w
    else w in
  let gate :=
    if flashingGates (effects w) then
      set_isFlashing (Z.rem (Qfloor (timestamp / 200)) 2 =? 0)%Z gate
    else set_isFlashing false gate in
  (gate, w).

(** The tail of the callback: the passage check, then the value the
    callback returns (the gate is kept while any of it is on screen). *)
Definition finishGate (gate : Gate) (w : World) : bool * Gate * World :=
  let '(gate, w) := checkGatePassed gate w in
  (x gate + GATE_WIDTH >? 0, gate, w).

(** The callback of [gates.filter]: the flag says whether the gate is
    kept; the gate is returned as the callback left it. *)
Definition gateCallback (timestamp : number) (gate : Gate) (w : World)
  : bool * Gate * World :=
  let '(gate, w) := advanceGate timestamp gate w in
  let gap := actualGateGap (btcEffectActive (effects w)) gate in
  let gateLeftX := x gate in
  let gateRightX := x gate + GATE_WIDTH in
  if (gateLeftX <=? LINE_X_POSITION) && (gateRightX >=? LINE_X_POSITION) then
    if collision (solEffectActive (effects w)) (lineY (player w)) gate gap then
      (false, gate, gameOver w)
    else
      let '(gate, w) := checkTokenCollected timestamp gap gate w in
      finishGate gate w
  else finishGate gate w.

(** [gates.filter(callback)]: the callbacks run in array order, each on
    the world the previous one left. *)
Fixpoint filterGates (timestamp : number) (gs : list Gate) (w : World)
  : list Gate * World :=
  match gs with
  | [] => ([], w)
  | gate :: rest =>
      let '(keep, gate', w') := gateCallback timestamp gate w in
      let '(rest', w'') := filterGates timestamp rest w' in
      ((if keep then gate' :: rest' else rest'), w'')
  end.

(** "Update line position": gravity and chaos, up to the velocity that
    is about to be integrated. *)
Definition updateVelocity (timestamp : number) (rnd : Draws) (w : World) : World :=
  let w :=
    if negb (solEffectActive (effects w)) then
      on_player (fun p => set_lineVelocity (lineVelocity p + GRAVITY) p) w
    else w in
  if chaosMode (effects w) && (timestamp <? chaosModeEndTime (effects w)) then
    on_player (fun p => set_lineVelocity (lineVelocity p + (rChaos rnd - 0.5) * 2) p) w
  else if chaosMode (effects w) && (timestamp >=? chaosModeEndTime (effects w)) then
    on_effects (set_chaosMode false) w
  else w.

(** [lineY += lineVelocity] and the direction flag. *)
Definition integrate (w : World) : World :=
  let w := on_player (fun p => set_lineY (lineY p + lineVelocity p) p) w in
  if lineVelocity (player w) >? 0 then on_player (set_isAscending false) w
  else on_player (set_isAscending true) w.

(** The spawn branch of the loop. *)
Definition maybeSpawn (rnd : Draws) (w : World) : World :=
  if lastGateX (stream w) <=? GAME_WIDTH - GATE_DISTANCE then
    on_stream (spawnGate rnd) w
  else w.

(** "Update and draw gates". *)
Definition updateGates (timestamp : number) (w : World) : World :=
  let '(kept, w) := filterGates timestamp (gates (stream w)) w in
  on_stream (set_gates kept) w.

(** "Check game over conditions". *)
Definition outOfBounds (w : World) : bool :=
  (lineY (player w) <? 0) || (lineY (player w) >? GAME_HEIGHT).

(** One call of [gameLoop].  The flag says whether the frame asked for
    the next one ([requestAnimationFrame]); it is [false] exactly when
    the frame left through the out-of-bounds branch. *)
Definition gameLoop (timestamp : number) (rnd : Draws) (w : World) : World * bool :=
  let w := processEffects timestamp w in
  let w := updateVelocity timestamp rnd w in
  let w := integrate w in
  let w := maybeSpawn rnd w in
  let w := updateGates timestamp w in
  if outOfBounds w then (gameOver w, false) else (w, true).

End Closure.

(** ** Around the loop *)

Definition initialComponent : Component :=
  {| gameState := START; score := 0; highScore := 0;
     tokenCounts := zeroCounts; highestTokenCounts := zeroCounts |}.

(** The mount effect: read both keys, an absent key changes nothing. *)
Definition loadSaved (l : LocalStorage) (c : Component) : Component :=
  let c := match btcGameHighScore l with
           | Some v => set_highScore v c
           | None => c
           end in
  match btcGameHighestTokenCounts l with
  | Some v => set_highestTokenCounts v c
  | None => c
  end.

(** The closure variables as the effect declares them, before the first
    gate. *)
Definition freshWorld (c : Component) (ref : TokenCounts) (l : LocalStorage) : World :=
  {| player := {| lineY := GAME_HEIGHT / 2; lineVelocity := 0; isAscending := false |};
     stream := {| gates := []; lastGateX := GAME_WIDTH; gatesPassed := 0;
                  currentScore := 0; baseSpeed := GATE_SPEED;
                  lastTokenType := NONE; difficultyLevel := 1 |};
     effects := {| currentSpeed := GATE_SPEED; activeEffects := [];
                   isGoldMode := false; flashingGates := false;
                   btcEffectActive := false; solEffectActive := false;
                   screenFlashTime := 0; chaosMode := false;
                   chaosModeEndTime := 0 |};
     react := c; tokenCountsRef := ref; localStorage := l |}.

(** [handleStartGame], then the effect body up to the first frame. *)
Definition handleStartGame (rnd : Draws) (w : World) : World :=
  let c := set_tokenCounts zeroCounts (set_score 0 (set_gameState PLAYING (react w))) in
  initializeGate rnd (freshWorld c zeroCounts (localStorage w)).

(** What happens between two frames: the input handlers may run. *)
Inductive Event :=
| Impulse
| Frame (timestamp : number) (rnd : Draws).

Definition step (render : Component) (w : World) (e : Event) : World :=
  match e with
  | Impulse => handleInput w
  | Frame timestamp rnd => fst (gameLoop render timestamp rnd w)
  end.

(** A run: the events of one lifetime of the loop, on one capture. *)
Definition run (render : Component) (w : World) (es : list Event) : World :=
  fold_left (step render) es w.

(** * Vocabulary of the properties *)

(** The speed the stream has at a given level. *)
Definition speedAtLevel (level : Z) : number :=
  GATE_SPEED * (1 + (inject_Z level - 1) * DIFFICULTY_INCREASE).

(** The level and the base speed are functions of the passage counter. *)
Definition difficultyInv (s : Stream) : Prop :=
  (0 <= gatesPassed s)%Z /\
  difficultyLevel s = (1 + gatesPassed s / DIFFICULTY_GATE_THRESHOLD)%Z /\
  baseSpeed s == speedAtLevel (difficultyLevel s).

(** The gap a gate is created with is one of the two constants. *)
Definition spawnedGap (g : Gate) : Prop :=
  baseGateGap g = NARROW_GATE_GAP \/ baseGateGap g = INITIAL_GATE_GAP.

(** Sample values: a world before any run, and draws in the middle of
    the unit interval. *)
Definition emptyStorage : LocalStorage :=
  {| btcGameHighScore := None; btcGameHighestTokenCounts := None |}.

Definition firstWorld : World := freshWorld initialComponent zeroCounts emptyStorage.

Definition midDraws : Draws :=
  {| rChaos := 0.5; rVariance := 0.5; rTop := 0.5; rNarrow := 0.5;
     rTokenRoll := 0.5; rIndex := 0.5 |}.

(** The conditions under which the callback of a gate reaches the
    collection: the gate, once moved, overlaps the player's column, the
    player does not collide with it, it carries a token, and the player
    is within the collection radius of the token's centre. *)
Definition collectsToken (t : number) (gate : Gate) (w : World) : Prop :=
  let gap := actualGateGap (btcEffectActive (effects w)) gate in
  x gate - currentSpeed (effects w) <= LINE_X_POSITION /\
  LINE_X_POSITION <= x gate - currentSpeed (effects w) + GATE_WIDTH /\
  collision (solEffectActive (effects w)) (lineY (player w)) gate gap = false /\
  tokenType gate <> NONE /\
  Qabs (lineY (player w) - (topHeight gate + gap / 2)) < TOKEN_COLLECTION_RADIUS.

(** The gate as its callbacks of later frames leave it, whatever the
    worlds of those frames are. *)
Fixpoint laterCallbacks (render : Component) (frames : list (number * World))
         (gate : Gate) : Gate :=
  match frames with
  | [] => gate
  | (t, w) :: rest =>
      laterCallbacks render rest (snd (fst (gateCallback render t gate w)))
  end.

(** The best count of a kind as the storage holds it: what the mount
    effect would load into a fresh component. *)
Definition bestEver (l : LocalStorage) (k : TokenType) : option Z :=
  getCount (highestTokenCounts (loadSaved l initialComponent)) k.

Definition sameOutside (w w' : World) : Prop :=
  react w' = react w /\ tokenCountsRef w' = tokenCountsRef w /\
  localStorage w' = localStorage w.

(** The stored best count of every kind is the one the loop captured,
    or a later one between it and the count of the run. *)
Definition storedWithin (render : Component) (w : World) : Prop :=
  forall k h s c,
    getCount (highestTokenCounts render) k = Some h ->
    bestEver (localStorage w) k = Some s ->
    getCount (tokenCountsRef w) k = Some c ->
    s = h \/ (h < s <= c)%Z.

(** The cell of the best counts holds what the storage holds. *)
Definition syncedCells (w : World) : Prop :=
  forall k, getCount (highestTokenCounts (react w)) k = bestEver (localStorage w) k.

(** Sample values: a storage that holds best counts, the component
    mounted on it, and the end of a run that beat one of them. *)
Definition someStorage : LocalStorage :=
  {| btcGameHighScore := Some 7%Z;
     btcGameHighestTokenCounts :=
       Some {| btc := 2; eth := 1; tao := 0; bch := 3; hbar := 0; sol := 1 |} |}.

Definition mounted : Component := loadSaved someStorage initialComponent.

Definition endOfRun : World :=
  on_tokenCountsRef
    (fun _ => {| btc := 1; eth := 4; tao := 0; bch := 3; hbar := 0; sol := 0 |})
    (freshWorld (set_gameState PLAYING mounted) zeroCounts someStorage).

(** The spawns of a run, one after the other, with nothing in between:
    only a spawn writes [lastTokenType]. *)
Definition spawnAll (rs : list Draws) (s : Stream) : Stream :=
  fold_left (fun s rnd => spawnGate rnd s) rs s.

(** The speed an effect of a kind sets, if it sets one. *)
Definition speedSetBy (base : number) (k : TokenType) : option number :=
  match k with
  | ETH => Some (base * 0.5)
  | BTC => Some (base * BTC_SPEED_BOOST)
  | SOL => Some (base * SOL_SPEED_BOOST)
  | NONE | TAO | BCH | HBAR => None
  end.

Definition setsSpeed (e : TokenEffect) : bool :=
  match speedSetBy 0 (type e) with Some _ => true | None => false end.

(** Modelled on the words of the claim: the kind declared last in the
    enumeration among the kinds that set a speed and are active. *)
Definition declaredLast (live : list TokenEffect) : option TokenType :=
  let active k := existsb (fun e => TokenType_eqb (type e) k) live in
  if active SOL then Some SOL
  else if active ETH then Some ETH
  else if active BTC then Some BTC
  else None.

Definition speedByDeclaration (base : number) (live : list TokenEffect) : number :=
  match declaredLast live with
  | Some k => match speedSetBy base k with Some v => v | None => base end
  | None => base
  end.

(** Two effects of different kinds, both setting a speed, are active. *)
Definition twoSpeedKinds (live : list TokenEffect) : Prop :=
  exists e1 e2, In e1 live /\ In e2 live /\ type e1 <> type e2 /\
                setsSpeed e1 = true /\ setsSpeed e2 = true.

(** The claim on the order of the enumeration, as the specification
    words it. *)
Definition speedFollowsDeclarationOrder : Prop :=
  forall (t : number) (w : World),
    let live := unexpired t (activeEffects (effects w)) in
    twoSpeedKinds live ->
    currentSpeed (effects (processEffects t w)) ==
    speedByDeclaration (baseSpeed (stream w)) live.

(** The world after the player, from a start, collected a token of the
    kinds given, the first at [t1] and the second at [t2]. *)
Definition collectedTwo (k1 k2 : TokenType) (t1 t2 : number) : World :=
  let gate k := {| x := 100; topHeight := 225; hasPassed := false;
                   tokenType := k; baseGateGap := 150; isFlashing := false |} in
  let w := handleStartGame midDraws firstWorld in
  let w := snd (checkTokenCollected t1 150 (gate k1) w) in
  snd (checkTokenCollected t2 150 (gate k2) w).

(** A frictionless (SOL) effect is active at a frame: the list holds
    one that the timestamp of the frame has not reached. *)
Definition frictionlessActive (t : number) (w : World) : Prop :=
  exists e, In e (activeEffects (effects w)) /\ type e = SOL /\ t < endTime e.

Definition isSOL (e : TokenEffect) : bool := TokenType_eqb (type e) SOL.

(** The velocity that [lineY += lineVelocity] adds in a frame. *)
Definition integratedVelocity (t : number) (rnd : Draws) (w : World) : number :=
  lineVelocity (player (updateVelocity t rnd (processEffects t w))).

(** The claim on the frictionless effect, as the specification words
    it: at every frame at which the effect is active the velocity that
    is integrated is zero. *)
Definition frictionlessMeansZeroVelocity : Prop :=
  forall (t : number) (rnd : Draws) (w : World),
    unit_draw (rChaos rnd) ->
    frictionlessActive t w ->
    integratedVelocity t rnd w == 0.

Definition chaosDraws : Draws :=
  {| rChaos := 0.75; rVariance := 0.5; rTop := 0.5; rNarrow := 0.5;
     rTokenRoll := 0.5; rIndex := 0.5 |}.

(** The frames of a run all come before a given time. *)
Definition framesBefore (limit : number) (es : list Event) : Prop :=
  Forall (fun ev => match ev with
                    | Frame t _ => t < limit
                    | Impulse => True
                    end) es.

(** * The rest of the component *)

(** ** What the frame draws of a gate *)

(** A [fillRect(x, y, w, h)] call. *)
Record Rect := {
  rx : number;
  ry : number;
  rw : number;
  rh : number
}.

(** The rectangles [drawGate] fills, in order: the top barrier, the
    bottom barrier and the wick of the bottom barrier (colours and icons
    are left out). *)
Definition drawGateRects (gate : Gate) (gap : number) : list Rect :=
  [ {| rx := x gate; ry := 0; rw := GATE_WIDTH; rh := topHeight gate |};
    {| rx := x gate; ry := topHeight gate + gap; rw := GATE_WIDTH;
       rh := GAME_HEIGHT - (topHeight gate + gap) |};
    {| rx := x gate + GATE_WIDTH / 2 - 5; ry := topHeight gate + gap - 20;
       rw := 10; rh := 20 |} ].

(** The opening of a gate as a spawn makes it. *)
Definition spawnedOpening (g : Gate) : Prop :=
  50 <= topHeight g /\ topHeight g <= 350 /\ spawnedGap g.

(** The score on screen and the score of the loop are the passage
    counter. *)
Definition scoreIsPassages (w : World) : Prop :=
  currentScore (stream w) = gatesPassed (stream w) /\
  score (react w) = gatesPassed (stream w).

(** An effect of a kind is in a list of effects. *)
Definition liveKind (k : TokenType) (live : list TokenEffect) : bool :=
  existsb (fun e => TokenType_eqb (type e) k) live.

(** The kinds [applyTokenEffect] pushes an effect for. *)
Definition trackedKind (k : TokenType) : Prop :=
  match k with
  | BTC | ETH | TAO | HBAR | SOL => True
  | NONE | BCH => False
  end.

(** The velocity a frame starts from before chaos has its say: gravity
    is added unless the frictionless effect is on. *)
Definition velocityBeforeChaos (w : World) : number :=
  if solEffectActive (effects w) then lineVelocity (player w)
  else lineVelocity (player w) + GRAVITY.

(** The best score as the storage holds it: what the mount effect would
    load into a fresh component. *)
Definition bestScore (l : LocalStorage) : Z :=
  highScore (loadSaved l initialComponent).

(** The stored best score is the one the loop captured, or a later one
    between it and the score of the run. *)
Definition scoreWithin (render : Component) (w : World) : Prop :=
  bestScore (localStorage w) = highScore render \/
  (highScore render < bestScore (localStorage w) <= currentScore (stream w))%Z.

(** The two best-record cells hold what a mount would load from the
    storage. *)
Definition cellsInStorage (w : World) : Prop :=
  highScore (react w) = highScore (loadSaved (localStorage w) initialComponent) /\
  highestTokenCounts (react w) =
    highestTokenCounts (loadSaved (localStorage w) initialComponent).

(** ** The trail and the screen flash *)

Definition SCREEN_FLASH_DURATION : number := 150.

Record TrailPoint := {
  trail_y : number;
  trail_isAscending : bool
}.

(** A JavaScript array whose slots may hold [undefined]. *)
Definition JsArray (A : Type) : Type := list (option A).

(** [a[i]]: [undefined] past the end. *)
Definition arrayGet {A : Type} (a : JsArray A) (i : nat) : option A :=
  nth i a None.

(** [a[i] = v]: a write past the end extends the array, the slots in
    between are holes. *)
Definition arraySet {A : Type} (a : JsArray A) (i : nat) (v : option A) : JsArray A :=
  if (i <? length a)%nat then firstn i a ++ v :: skipn (S i) a
  else a ++ repeat None (i - length a) ++ [v].

(** The column of the player, as an index of the trail. *)
Definition lineColumn : nat := Z.to_nat (Qfloor LINE_X_POSITION).

(** [new Array(LINE_X_POSITION + 1).fill(null).map(...)]. *)
Definition initialTrail (lineY0 : number) : JsArray TrailPoint :=
  repeat (Some {| trail_y := lineY0; trail_isAscending := false |}) (S lineColumn).

(** [for (let i = start; i < start + count; i++) trail[i] = trail[i + 1]]. *)
Fixpoint shiftTrail (count start : nat) (trail : JsArray TrailPoint)
  : JsArray TrailPoint :=
  match count with
  | O => trail
  | S c => shiftTrail c (S start) (arraySet trail start (arrayGet trail (S start)))
  end.

(** The two trail statements of a frame: shift, then store the sample
    of the frame in the last slot. *)
Definition updateTrail (trail : JsArray TrailPoint) (p : TrailPoint)
  : JsArray TrailPoint :=
  arraySet (shiftTrail lineColumn 0 trail) lineColumn (Some p).

(** The trail after the frames that produced the given samples. *)
Definition feedTrail (trail : JsArray TrailPoint) (ps : list TrailPoint)
  : JsArray TrailPoint :=
  fold_left updateTrail ps trail.

(** "Draw screen flash if active": the alpha of the white overlay, if
    the frame draws it. *)
Definition screenFlashAlpha (timestamp flashTime : number) : option number :=
  if timestamp - flashTime <? SCREEN_FLASH_DURATION then
    let flashProgress := (timestamp - flashTime) / SCREEN_FLASH_DURATION in
    let opacity := 1 - flashProgress in
    Some (opacity * 0.7)
  else None.

(** * Properties *)

(** Reduce projections of updated records, and nothing else. *)
Ltac world_simpl :=
  cbn [fst snd
       player stream effects react tokenCountsRef localStorage
       on_player on_stream on_effects on_react on_tokenCountsRef on_localStorage
       lineY lineVelocity isAscending set_lineY set_lineVelocity set_isAscending
       gates lastGateX gatesPassed currentScore baseSpeed lastTokenType
       difficultyLevel set_gates set_lastGateX set_gatesPassed set_currentScore
       set_baseSpeed set_lastTokenType set_difficultyLevel
       currentSpeed activeEffects isGoldMode flashingGates btcEffectActive
       solEffectActive screenFlashTime chaosMode chaosModeEndTime
       set_currentSpeed set_activeEffects set_isGoldMode set_flashingGates
       set_btcEffectActive set_solEffectActive set_screenFlashTime set_chaosMode
       set_chaosModeEndTime pushEffect
       gameState score highScore tokenCounts highestTokenCounts
       set_gameState set_score set_highScore set_tokenCounts set_highestTokenCounts
       btcGameHighScore btcGameHighestTokenCounts setItem_highScore
       setItem_highestTokenCounts
       x topHeight hasPassed tokenType baseGateGap isFlashing
       set_x set_hasPassed set_tokenType set_isFlashing
       type endTime].

Ltac world_simpl_in H :=
  cbn [fst snd
       player stream effects react tokenCountsRef localStorage
       on_player on_stream on_effects on_react on_tokenCountsRef on_localStorage
       lineY lineVelocity isAscending set_lineY set_lineVelocity set_isAscending
       gates lastGateX gatesPassed currentScore baseSpeed lastTokenType
       difficultyLevel set_gates set_lastGateX set_gatesPassed set_currentScore
       set_baseSpeed set_lastTokenType set_difficultyLevel
       currentSpeed activeEffects isGoldMode flashingGates btcEffectActive
       solEffectActive screenFlashTime chaosMode chaosModeEndTime
       set_currentSpeed set_activeEffects set_isGoldMode set_flashingGates
       set_btcEffectActive set_solEffectActive set_screenFlashTime set_chaosMode
       set_chaosModeEndTime pushEffect
       gameState score highScore tokenCounts highestTokenCounts
       set_gameState set_score set_highScore set_tokenCounts set_highestTokenCounts
       btcGameHighScore btcGameHighestTokenCounts setItem_highScore
       setItem_highestTokenCounts
       x topHeight hasPassed tokenType baseGateGap isFlashing
       set_x set_hasPassed set_tokenType set_isFlashing
       type endTime] in H.

(** ** The comparison operators *)

Lemma Qltb_lt (a b : number) : (a <? b) = true <-> a < b.
Proof.
  unfold Qltb. rewrite negb_true_iff. split; intro H.
  - apply Qnot_le_lt. intro Hle. apply Qle_bool_iff in Hle. congruence.
  - destruct (Qle_bool b a) eqn:E; [|reflexivity].
    apply Qle_bool_iff in E. exfalso. exact (Qlt_not_le _ _ H E).
Qed.

Lemma Qleb_le (a b : number) : (a <=? b) = true <-> a <= b.
Proof. apply Qle_bool_iff. Qed.

Lemma Qgtb_gt (a b : number) : (a >? b) = true <-> b < a.
Proof. apply Qltb_lt. Qed.

Lemma Qgeb_ge (a b : number) : (a >=? b) = true <-> b <= a.
Proof. apply Qle_bool_iff. Qed.

Lemma Qltb_ge (a b : number) : (a <? b) = false <-> b <= a.
Proof.
  unfold Qltb. rewrite negb_false_iff. apply Qle_bool_iff.
Qed.

Lemma Qgtb_le (a b : number) : (a >? b) = false <-> a <= b.
Proof. apply Qltb_ge. Qed.

Lemma TokenType_neqb_neq (a b : TokenType) : TokenType_neqb a b = true <-> a <> b.
Proof.
  unfold TokenType_neqb. destruct (TokenType_eq_dec a b); split; congruence.
Qed.

Lemma TokenType_neqb_eq (a b : TokenType) : TokenType_neqb a b = false <-> a = b.
Proof.
  unfold TokenType_neqb. destruct (TokenType_eq_dec a b); split; congruence.
Qed.

(** ** Properties of the world that the gate callbacks preserve

    A property of the world survives [gates.filter] as soon as it
    survives the four places where a callback writes to the world. *)

Section Preservation.

Variable render : Component.
Variable P : World -> Prop.

Hypothesis P_lastGateX : forall w v, P w -> P (on_stream (set_lastGateX v) w).
Hypothesis P_gameOver : forall w, P w -> P (gameOver render w).
Hypothesis P_collected :
  forall t gap g w, P w -> P (snd (checkTokenCollected t gap g w)).
Hypothesis P_passed : forall g w, P w -> P (snd (checkGatePassed g w)).

Lemma advanceGate_preserves t g w : P w -> P (snd (advanceGate t g w)).
Proof.
  intro H. unfold advanceGate. simpl.
  destruct (_ >? _); [apply P_lastGateX|]; exact H.
Qed.

Lemma finishGate_preserves g w : P w -> P (snd (finishGate g w)).
Proof.
  intro H. unfold finishGate.
  pose proof (P_passed g w H) as H'.
  destruct (checkGatePassed g w) as [g' w']. exact H'.
Qed.

Lemma gateCallback_preserves t g w : P w -> P (snd (gateCallback render t g w)).
Proof.
  intro H. unfold gateCallback.
  pose proof (advanceGate_preserves t g w H) as H1.
  destruct (advanceGate t g w) as [g1 w1]. simpl in H1.
  destruct (_ && _).
  - destruct (collision _ _ _ _).
    + simpl. apply P_gameOver. exact H1.
    + pose proof (P_collected t (actualGateGap (btcEffectActive (effects w1)) g1)
                    g1 w1 H1) as H2.
      destruct (checkTokenCollected _ _ _ _) as [g2 w2].
      apply finishGate_preserves. exact H2.
  - apply finishGate_preserves. exact H1.
Qed.

Lemma filterGates_preserves t gs : forall w,
  P w -> P (snd (filterGates render t gs w)).
Proof.
  induction gs as [|g gs IH]; intros w H; simpl; [exact H|].
  pose proof (gateCallback_preserves t g w H) as H1.
  destruct (gateCallback render t g w) as [[keep g'] w'].
  specialize (IH w' H1).
  destruct (filterGates render t gs w') as [rest w'']. exact IH.
Qed.

End Preservation.

(** ** What each operation leaves alone *)

Section Frames.

Variable render : Component.

Lemma applyActive_stream w e : stream (applyActive w e) = stream w.
Proof. unfold applyActive. destruct (type e); reflexivity. Qed.

Lemma applyActive_lineY w e : lineY (player (applyActive w e)) = lineY (player w).
Proof. unfold applyActive. destruct (type e); reflexivity. Qed.

Lemma fold_applyActive_stream l : forall w,
  stream (fold_left applyActive l w) = stream w.
Proof.
  induction l as [|e l IH]; intro w; simpl; [reflexivity|].
  rewrite IH. apply applyActive_stream.
Qed.

Lemma fold_applyActive_lineY l : forall w,
  lineY (player (fold_left applyActive l w)) = lineY (player w).
Proof.
  induction l as [|e l IH]; intro w; simpl; [reflexivity|].
  rewrite IH. apply applyActive_lineY.
Qed.

Lemma processEffects_stream t w : stream (processEffects t w) = stream w.
Proof. unfold processEffects. rewrite fold_applyActive_stream. reflexivity. Qed.

Lemma processEffects_lineY t w :
  lineY (player (processEffects t w)) = lineY (player w).
Proof. unfold processEffects. rewrite fold_applyActive_lineY. reflexivity. Qed.

Lemma updateVelocity_stream t rnd w : stream (updateVelocity t rnd w) = stream w.
Proof.
  unfold updateVelocity.
  destruct (negb (solEffectActive (effects w))); simpl;
    repeat match goal with |- context [if ?c then _ else _] => destruct c end;
    reflexivity.
Qed.

Lemma updateVelocity_lineY t rnd w :
  lineY (player (updateVelocity t rnd w)) = lineY (player w).
Proof.
  unfold updateVelocity.
  destruct (negb (solEffectActive (effects w))); simpl;
    repeat match goal with |- context [if ?c then _ else _] => destruct c end;
    reflexivity.
Qed.

Lemma integrate_stream w : stream (integrate w) = stream w.
Proof. unfold integrate. simpl. destruct (_ >? _); reflexivity. Qed.

Lemma integrate_effects w : effects (integrate w) = effects w.
Proof. unfold integrate. simpl. destruct (_ >? _); reflexivity. Qed.

Lemma integrate_player w :
  lineY (player (integrate w)) = lineY (player w) + lineVelocity (player w) /\
  lineVelocity (player (integrate w)) = lineVelocity (player w).
Proof. unfold integrate. simpl. destruct (_ >? _); split; reflexivity. Qed.

Lemma maybeSpawn_player rnd w : player (maybeSpawn rnd w) = player w.
Proof. unfold maybeSpawn. destruct (_ <=? _); reflexivity. Qed.

Lemma maybeSpawn_effects rnd w : effects (maybeSpawn rnd w) = effects w.
Proof. unfold maybeSpawn. destruct (_ <=? _); reflexivity. Qed.

Lemma gameOver_player w : player (gameOver render w) = player w.
Proof.
  unfold gameOver.
  destruct (raiseCounts _ _) as [n u].
  destruct u; destruct (_ >? _)%Z; reflexivity.
Qed.

Lemma gameOver_stream w : stream (gameOver render w) = stream w.
Proof.
  unfold gameOver.
  destruct (raiseCounts _ _) as [n u].
  destruct u; destruct (_ >? _)%Z; reflexivity.
Qed.

Lemma gameOver_effects w : effects (gameOver render w) = effects w.
Proof.
  unfold gameOver.
  destruct (raiseCounts _ _) as [n u].
  destruct u; destruct (_ >? _)%Z; reflexivity.
Qed.

Lemma gameOver_tokenCountsRef w :
  tokenCountsRef (gameOver render w) = tokenCountsRef w.
Proof.
  unfold gameOver.
  destruct (raiseCounts _ _) as [n u].
  destruct u; destruct (_ >? _)%Z; reflexivity.
Qed.

Lemma gameOver_gameState w : gameState (react (gameOver render w)) = GAME_OVER.
Proof.
  unfold gameOver.
  destruct (raiseCounts _ _) as [n u].
  destruct u; destruct (_ >? _)%Z; reflexivity.
Qed.

Lemma applyTokenEffect_player k t w : player (applyTokenEffect k t w) = player w.
Proof. destruct k; reflexivity. Qed.

Lemma applyTokenEffect_stream k t w : stream (applyTokenEffect k t w) = stream w.
Proof. destruct k; reflexivity. Qed.

Lemma checkTokenCollected_player t gap gate w :
  player (snd (checkTokenCollected t gap gate w)) = player w.
Proof.
  unfold checkTokenCollected.
  destruct (TokenType_neqb _ _); [|reflexivity].
  destruct (_ <? _); [|reflexivity].
  destruct (TokenType_eqb _ _); simpl; apply applyTokenEffect_player.
Qed.

Lemma checkTokenCollected_stream t gap gate w :
  stream (snd (checkTokenCollected t gap gate w)) = stream w.
Proof.
  unfold checkTokenCollected.
  destruct (TokenType_neqb _ _); [|reflexivity].
  destruct (_ <? _); [|reflexivity].
  destruct (TokenType_eqb _ _); simpl; apply applyTokenEffect_stream.
Qed.

Lemma checkGatePassed_player gate w :
  player (snd (checkGatePassed gate w)) = player w.
Proof.
  unfold checkGatePassed.
  destruct (_ && _); [|reflexivity]. simpl.
  destruct (_ =? _)%Z; reflexivity.
Qed.

(** The gate callbacks never touch the player. *)
Lemma filterGates_player t gs w :
  player (snd (filterGates render t gs w)) = player w.
Proof.
  apply (filterGates_preserves render (fun w' => player w' = player w)).
  - intros w' v H. exact H.
  - intros w' H. rewrite gameOver_player. exact H.
  - intros t' gap g w' H. rewrite checkTokenCollected_player. exact H.
  - intros g w' H. rewrite checkGatePassed_player. exact H.
  - reflexivity.
Qed.

Lemma updateGates_player t w : player (updateGates render t w) = player w.
Proof.
  unfold updateGates.
  pose proof (filterGates_player t (gates (stream w)) w) as H.
  destruct (filterGates _ _ _ _) as [kept w']. simpl in *. exact H.
Qed.

(** The position and the velocity a frame ends with are those of the
    integration step: nothing after it writes to the player. *)
Lemma gameLoop_player t rnd w :
  player (fst (gameLoop render t rnd w)) =
  player (integrate (updateVelocity t rnd (processEffects t w))).
Proof.
  unfold gameLoop.
  destruct (outOfBounds _); cbn [fst];
    rewrite ?gameOver_player, updateGates_player, maybeSpawn_player; reflexivity.
Qed.

End Frames.

(** ** The impulse *)

Lemma handleInput_twice (w : World) : handleInput (handleInput w) = handleInput w.
Proof. reflexivity. Qed.

Lemma run_impulses (render : Component) (n : nat) : forall w,
  run render w (repeat Impulse (S n)) = handleInput w.
Proof.
  induction n as [|n IH]; intro w; [reflexivity|].
  change (run render w (repeat Impulse (S (S n))))
    with (run render (handleInput w) (repeat Impulse (S n))).
  rewrite IH. apply handleInput_twice.
Qed.

(** C9. Firing the impulse any number of times (at least once) between
    two frames leaves the world exactly as one firing does, whatever the
    velocity was before; the velocity is then the bounce constant, so
    the frame that follows cannot tell the difference. *)
Theorem impulse_idempotent (render : Component) (n : nat) (w : World) :
  run render w (repeat Impulse (S n)) = run render w [Impulse] /\
  lineVelocity (player (run render w (repeat Impulse (S n)))) = BOUNCE_VELOCITY /\
  (forall t rnd,
     run render w (repeat Impulse (S n) ++ [Frame t rnd]) =
     run render w [Impulse; Frame t rnd]).
Proof.
  rewrite run_impulses. repeat split.
  intros t rnd. unfold run. rewrite fold_left_app.
  fold (run render w (repeat Impulse (S n))). rewrite run_impulses. reflexivity.
Qed.

(** ** Collision with a gate *)

Lemma advanceGate_gate t gate w :
  x (fst (advanceGate t gate w)) = x gate - currentSpeed (effects w) /\
  topHeight (fst (advanceGate t gate w)) = topHeight gate /\
  baseGateGap (fst (advanceGate t gate w)) = baseGateGap gate /\
  tokenType (fst (advanceGate t gate w)) = tokenType gate /\
  hasPassed (fst (advanceGate t gate w)) = hasPassed gate.
Proof.
  unfold advanceGate. cbn [fst].
  destruct (_ >? _); cbn [effects on_stream];
    destruct (flashingGates (effects w)); repeat split.
Qed.

Lemma advanceGate_world t gate w :
  player (snd (advanceGate t gate w)) = player w /\
  effects (snd (advanceGate t gate w)) = effects w /\
  tokenCountsRef (snd (advanceGate t gate w)) = tokenCountsRef w /\
  react (snd (advanceGate t gate w)) = react w /\
  localStorage (snd (advanceGate t gate w)) = localStorage w.
Proof.
  unfold advanceGate. cbn [snd]. destruct (_ >? _); repeat split.
Qed.

Lemma actualGateGap_base b g g' :
  baseGateGap g = baseGateGap g' -> actualGateGap b g = actualGateGap b g'.
Proof. unfold actualGateGap. intros ->. reflexivity. Qed.

(** C10. While a gate overlaps the player's column and the collision
    suppressing effect is off, a position equal to the top boundary of
    the opening, or equal to its bottom boundary (top plus effective
    gap), is a collision: the callback drops the gate and runs the
    game-over block. *)
Theorem boundary_contact_collides (render : Component) (t : number)
        (gate : Gate) (w : World) :
  x gate - currentSpeed (effects w) <= LINE_X_POSITION ->
  LINE_X_POSITION <= x gate - currentSpeed (effects w) + GATE_WIDTH ->
  solEffectActive (effects w) = false ->
  lineY (player w) == topHeight gate \/
  lineY (player w) ==
    topHeight gate + actualGateGap (btcEffectActive (effects w)) gate ->
  gateCallback render t gate w =
    (false, fst (advanceGate t gate w), gameOver render (snd (advanceGate t gate w))) /\
  gameState (react (snd (gateCallback render t gate w))) = GAME_OVER.
Proof.
  intros Hl Hr Hsol Hy.
  assert (E : gateCallback render t gate w =
    (false, fst (advanceGate t gate w), gameOver render (snd (advanceGate t gate w)))).
  { unfold gateCallback.
    destruct (advanceGate_gate t gate w) as (Ex & Et & Eb & _).
    destruct (advanceGate_world t gate w) as (Ep & Ee & _).
    destruct (advanceGate t gate w) as [g1 w1]. cbn [fst snd] in *.
    rewrite Ex, Ee, Ep.
    replace (_ <=? LINE_X_POSITION) with true by (symmetry; apply Qleb_le; exact Hl).
    replace (_ >=? LINE_X_POSITION) with true by (symmetry; apply Qgeb_ge; exact Hr).
    cbn [andb]. unfold collision. rewrite Hsol, Et. cbn [negb].
    rewrite (actualGateGap_base _ g1 gate Eb).
    destruct Hy as [Hy|Hy].
    - replace (_ <=? topHeight gate) with true
        by (symmetry; apply Qleb_le; rewrite Hy; apply Qle_refl).
      destruct (_ >=? _); reflexivity.
    - replace (_ >=? _) with true
        by (symmetry; apply Qgeb_ge; rewrite Hy; apply Qle_refl).
      reflexivity. }
  split; [exact E|]. rewrite E. cbn [snd]. apply gameOver_gameState.
Qed.

(** ** Leaving the playfield *)

(** C5. A frame leaves through the out-of-bounds branch (it sets the
    game state to GAME_OVER and does not ask for another frame) exactly
    when the position it has just integrated is strictly negative or
    strictly greater than the playfield height, whatever the gates are.
    A position equal to the height does not take that branch; a position
    above it by any positive amount does. *)
Theorem out_of_bounds_exact (render : Component) (t : number) (rnd : Draws)
        (w : World) :
  let r := gameLoop render t rnd w in
  let y := lineY (player (fst r)) in
  y == lineY (player w) + lineVelocity (player (fst r)) /\
  (snd r = false <-> y < 0 \/ GAME_HEIGHT < y) /\
  (snd r = false -> gameState (react (fst r)) = GAME_OVER) /\
  (y == GAME_HEIGHT -> snd r = true) /\
  (y == 0 -> snd r = true) /\
  (forall eps, 0 < eps -> y == GAME_HEIGHT + eps -> snd r = false).
Proof.
  intros r y.
  assert (Hy : y = lineY (player (updateGates render t
                 (maybeSpawn rnd (integrate (updateVelocity t rnd (processEffects t w))))))).
  { subst y r. rewrite gameLoop_player, updateGates_player, maybeSpawn_player.
    reflexivity. }
  assert (Hiff : snd r = false <-> y < 0 \/ GAME_HEIGHT < y).
  { rewrite Hy. subst r. unfold gameLoop.
    destruct (outOfBounds _) eqn:E; cbn [snd]; unfold outOfBounds in E.
    - apply orb_true_iff in E. rewrite Qltb_lt, Qgtb_gt in E. tauto.
    - apply orb_false_iff in E. rewrite Qltb_ge, Qgtb_le in E.
      destruct E as [E1 E2]. split; [discriminate|].
      intros [H|H]; exfalso; eapply Qlt_not_le; eauto. }
  split; [|split; [exact Hiff|split; [|split; [|split]]]].
  - subst y r. rewrite gameLoop_player.
    destruct (integrate_player (updateVelocity t rnd (processEffects t w))) as [A B].
    rewrite A, B, updateVelocity_lineY, processEffects_lineY. reflexivity.
  - subst r. unfold gameLoop. destruct (outOfBounds _); cbn [fst snd].
    + intros _. apply gameOver_gameState.
    + discriminate.
  - intro E. apply not_false_is_true. intro S.
    apply Hiff in S. rewrite E in S. unfold GAME_HEIGHT in S.
    destruct S as [S|S]; exfalso; revert S; apply Qle_not_lt; discriminate.
  - intro E. apply not_false_is_true. intro S.
    apply Hiff in S. rewrite E in S. unfold GAME_HEIGHT in S.
    destruct S as [S|S]; exfalso; revert S; apply Qle_not_lt; discriminate.
  - intros eps Heps E. apply Hiff. right. rewrite E.
    unfold GAME_HEIGHT. lra.
Qed.

(** ** Properties of the stream that a run preserves

    A property of the stream variables survives every event of a run as
    soon as it survives the writes to [lastGateX], [gates] and
    [lastTokenType] and the passage of a gate. *)

Section StreamPreservation.

Variable render : Component.
Variable P : Stream -> Prop.

Hypothesis P_lastGateX : forall s v, P s -> P (set_lastGateX v s).
Hypothesis P_gates : forall s l, P s -> P (set_gates l s).
Hypothesis P_lastTokenType : forall s k, P s -> P (set_lastTokenType k s).
Hypothesis P_passed :
  forall g w, P (stream w) -> P (stream (snd (checkGatePassed g w))).

Lemma spawnGate_preserves rnd s : P s -> P (spawnGate rnd s).
Proof.
  intro H. unfold spawnGate.
  apply P_lastGateX, P_gates, P_lastTokenType, H.
Qed.

Lemma maybeSpawn_preserves rnd w : P (stream w) -> P (stream (maybeSpawn rnd w)).
Proof.
  intro H. unfold maybeSpawn. destruct (_ <=? _); [|exact H].
  apply spawnGate_preserves, H.
Qed.

Lemma updateGates_preserves t w :
  P (stream w) -> P (stream (updateGates render t w)).
Proof.
  intro H. unfold updateGates.
  pose proof (filterGates_preserves render (fun w' => P (stream w'))) as F.
  specialize (F (fun w' v => P_lastGateX (stream w') v)).
  assert (G : forall w', P (stream w') -> P (stream (gameOver render w')))
    by (intros w' H'; rewrite gameOver_stream; exact H').
  assert (C : forall t' gap g w', P (stream w') ->
                P (stream (snd (checkTokenCollected t' gap g w'))))
    by (intros t' gap g w' H'; rewrite checkTokenCollected_stream; exact H').
  specialize (F G C P_passed t (gates (stream w)) w H).
  destruct (filterGates _ _ _ _) as [kept w']. cbn [snd] in F.
  apply P_gates. exact F.
Qed.

Lemma gameLoop_preserves t rnd w :
  P (stream w) -> P (stream (fst (gameLoop render t rnd w))).
Proof.
  intro H. unfold gameLoop.
  assert (H' : P (stream (updateGates render t
                 (maybeSpawn rnd (integrate (updateVelocity t rnd (processEffects t w))))))).
  { apply updateGates_preserves, maybeSpawn_preserves.
    rewrite integrate_stream, updateVelocity_stream, processEffects_stream.
    exact H. }
  destruct (outOfBounds _); cbn [fst]; [rewrite gameOver_stream|]; exact H'.
Qed.

Lemma step_preserves w e : P (stream w) -> P (stream (step render w e)).
Proof.
  intro H. destruct e as [|t rnd]; [exact H|].
  apply gameLoop_preserves, H.
Qed.

Lemma run_preserves es : forall w, P (stream w) -> P (stream (run render w es)).
Proof.
  induction es as [|e es IH]; intros w H; [exact H|].
  apply IH, step_preserves, H.
Qed.

End StreamPreservation.

Lemma run_app (render : Component) (w : World) (es es' : list Event) :
  run render w (es ++ es') = run render (run render w es) es'.
Proof. apply fold_left_app. Qed.

(** ** The difficulty rule *)

Lemma speedAtLevel_mono (a b : Z) : (a <= b)%Z -> speedAtLevel a <= speedAtLevel b.
Proof.
  intro H. rewrite Zle_Qle in H. unfold speedAtLevel, GATE_SPEED, DIFFICULTY_INCREASE.
  lra.
Qed.

Lemma checkGatePassed_taken gate w :
  hasPassed gate = false -> x gate + GATE_WIDTH < LINE_X_POSITION ->
  gatesPassed (stream (snd (checkGatePassed gate w))) = (gatesPassed (stream w) + 1)%Z /\
  currentScore (stream (snd (checkGatePassed gate w))) = (gatesPassed (stream w) + 1)%Z /\
  hasPassed (fst (checkGatePassed gate w)) = true.
Proof.
  intros Hp Hx. unfold checkGatePassed. rewrite Hp.
  replace (_ <? _) with true by (symmetry; apply Qltb_lt; exact Hx).
  cbn [negb andb]. world_simpl. destruct (_ =? _)%Z; repeat split.
Qed.

Lemma checkGatePassed_skipped gate w :
  hasPassed gate = true \/ LINE_X_POSITION <= x gate + GATE_WIDTH ->
  checkGatePassed gate w = (gate, w).
Proof.
  intros [H|H]; unfold checkGatePassed.
  - rewrite H. reflexivity.
  - replace (_ <? _) with false by (symmetry; apply Qltb_ge; exact H).
    rewrite andb_false_r. reflexivity.
Qed.

Lemma checkGatePassed_difficultyInv gate w :
  difficultyInv (stream w) -> difficultyInv (stream (snd (checkGatePassed gate w))).
Proof.
  intros (Hpos & Hlvl & Hspd). unfold checkGatePassed.
  destruct (_ && _); [|repeat split; assumption].
  world_simpl.
  pose proof (Z.div_mod (gatesPassed (stream w) + 1) 15 ltac:(lia)) as D1.
  pose proof (Z.div_mod (gatesPassed (stream w)) 15 ltac:(lia)) as D2.
  pose proof (Z.mod_pos_bound (gatesPassed (stream w)) 15 ltac:(lia)) as B2.
  pose proof (Z.mod_pos_bound (gatesPassed (stream w) + 1) 15 ltac:(lia)) as B1.
  destruct (_ =? _)%Z eqn:E; world_simpl; unfold DIFFICULTY_GATE_THRESHOLD in *.
  - apply Z.eqb_eq in E. rewrite Z.rem_mod_nonneg in E by lia.
    split; [|split]; world_simpl; [lia| |reflexivity].
    rewrite Hlvl. unfold DIFFICULTY_GATE_THRESHOLD. lia.
  - apply Z.eqb_neq in E. rewrite Z.rem_mod_nonneg in E by lia.
    split; [|split]; world_simpl; [lia| |exact Hspd].
    rewrite Hlvl. unfold DIFFICULTY_GATE_THRESHOLD. lia.
Qed.

Lemma checkGatePassed_level_mono (n : Z) gate w :
  (n <= difficultyLevel (stream w))%Z ->
  (n <= difficultyLevel (stream (snd (checkGatePassed gate w))))%Z.
Proof.
  intro H. unfold checkGatePassed.
  destruct (_ && _); [|exact H]. world_simpl.
  destruct (_ =? _)%Z; world_simpl; [lia|exact H].
Qed.

Lemma checkGatePassed_count_mono (n : Z) gate w :
  (n <= gatesPassed (stream w))%Z ->
  (n <= gatesPassed (stream (snd (checkGatePassed gate w))))%Z.
Proof.
  intro H. unfold checkGatePassed.
  destruct (_ && _); [|exact H]. world_simpl.
  destruct (_ =? _)%Z; world_simpl; lia.
Qed.

Lemma handleStartGame_difficultyInv rnd w : difficultyInv (stream (handleStartGame rnd w)).
Proof. split; [|split]; cbn; [discriminate|reflexivity|reflexivity]. Qed.

Lemma run_difficultyInv render es w :
  difficultyInv (stream w) -> difficultyInv (stream (run render w es)).
Proof.
  apply (run_preserves render difficultyInv); try (intros; assumption).
  apply checkGatePassed_difficultyInv.
Qed.

Lemma run_level_mono render es w :
  (difficultyLevel (stream w) <= difficultyLevel (stream (run render w es)))%Z.
Proof.
  apply (run_preserves render
           (fun s => (difficultyLevel (stream w) <= difficultyLevel s)%Z));
    try (intros; assumption).
  - intros g w'. apply checkGatePassed_level_mono.
  - lia.
Qed.

Lemma run_count_mono render es w :
  (gatesPassed (stream w) <= gatesPassed (stream (run render w es)))%Z.
Proof.
  apply (run_preserves render
           (fun s => (gatesPassed (stream w) <= gatesPassed s)%Z));
    try (intros; assumption).
  - intros g w'. apply checkGatePassed_count_mono.
  - lia.
Qed.

(** C1. In every run (any impulses and frames after a start): the
    level is one plus the number of multiples of 15 the passage counter
    has reached, and the base speed is the initial speed times
    [1 + (level - 1) * 0.1]; so the base speed is the initial speed up
    to the 14th passage and 1.1 times it at the 15th.  Each passage adds
    one to the counter, and neither the level nor the base speed ever
    goes down as the run goes on. *)
Theorem difficulty_rule (render : Component) (w0 : World) (rnd0 : Draws)
        (es : list Event) :
  let w := run render (handleStartGame rnd0 w0) es in
  let s := stream w in
  difficultyLevel s = (1 + gatesPassed s / DIFFICULTY_GATE_THRESHOLD)%Z /\
  baseSpeed s ==
    GATE_SPEED * (1 + (inject_Z (difficultyLevel s) - 1) * DIFFICULTY_INCREASE) /\
  ((gatesPassed s <= 14)%Z -> baseSpeed s == GATE_SPEED) /\
  (gatesPassed s = 15%Z -> baseSpeed s == GATE_SPEED * 1.1) /\
  (forall gate, hasPassed gate = false ->
     x gate + GATE_WIDTH < LINE_X_POSITION ->
     gatesPassed (stream (snd (checkGatePassed gate w))) = (gatesPassed s + 1)%Z) /\
  (forall es',
     let s' := stream (run render (handleStartGame rnd0 w0) (es ++ es')) in
     (gatesPassed s <= gatesPassed s')%Z /\
     (difficultyLevel s <= difficultyLevel s')%Z /\
     baseSpeed s <= baseSpeed s').
Proof.
  intros w s.
  assert (I : difficultyInv s)
    by (apply run_difficultyInv, handleStartGame_difficultyInv).
  destruct I as (Hpos & Hlvl & Hspd).
  split; [exact Hlvl|]. split; [exact Hspd|].
  split; [|split; [|split]].
  - intro H. rewrite Hspd, Hlvl. unfold DIFFICULTY_GATE_THRESHOLD.
    rewrite Z.div_small by lia. reflexivity.
  - intro H. rewrite Hspd, Hlvl, H. reflexivity.
  - intros gate Hp Hx. apply checkGatePassed_taken; assumption.
  - intros es' s'. subst s'. rewrite run_app. fold w.
    pose proof (run_level_mono render es' w) as L.
    split; [apply run_count_mono|]. split; [exact L|].
    assert (I' : difficultyInv (stream (run render w es'))).
    { apply run_difficultyInv. repeat split; assumption. }
    destruct I' as (_ & _ & Hspd').
    rewrite Hspd, Hspd'. apply speedAtLevel_mono. exact L.
Qed.

(** ** The gates of a run *)

Lemma checkTokenCollected_gate t gap gate w :
  let g' := fst (checkTokenCollected t gap gate w) in
  x g' = x gate /\ topHeight g' = topHeight gate /\
  baseGateGap g' = baseGateGap gate /\ hasPassed g' = hasPassed gate.
Proof.
  unfold checkTokenCollected.
  destruct (TokenType_neqb _ _); [|repeat split].
  destruct (_ <? _); repeat split.
Qed.

Lemma checkGatePassed_gate gate w :
  let g' := fst (checkGatePassed gate w) in
  x g' = x gate /\ topHeight g' = topHeight gate /\
  baseGateGap g' = baseGateGap gate /\ tokenType g' = tokenType gate.
Proof.
  unfold checkGatePassed.
  destruct (_ && _); repeat split.
Qed.

Lemma finishGate_gate gate w :
  let g' := snd (fst (finishGate gate w)) in
  x g' = x gate /\ topHeight g' = topHeight gate /\
  baseGateGap g' = baseGateGap gate /\ tokenType g' = tokenType gate.
Proof.
  unfold finishGate.
  pose proof (checkGatePassed_gate gate w) as H.
  destruct (checkGatePassed gate w) as [g' w']. exact H.
Qed.

(** A callback never writes to the opening of its gate. *)
Lemma gateCallback_opening render t gate w :
  let g' := snd (fst (gateCallback render t gate w)) in
  topHeight g' = topHeight gate /\ baseGateGap g' = baseGateGap gate.
Proof.
  unfold gateCallback.
  destruct (advanceGate_gate t gate w) as (_ & Ht & Hb & _).
  destruct (advanceGate t gate w) as [g1 w1]. cbn [fst] in Ht, Hb.
  destruct (_ && _).
  - destruct (collision _ _ _ _); [split; assumption|].
    pose proof (checkTokenCollected_gate t
                  (actualGateGap (btcEffectActive (effects w1)) g1) g1 w1) as H.
    destruct (checkTokenCollected _ _ _ _) as [g2 w2]. cbn [fst] in H.
    destruct H as (_ & Ht2 & Hb2 & _).
    destruct (finishGate_gate g2 w2) as (_ & Ht3 & Hb3 & _).
    split; congruence.
  - destruct (finishGate_gate g1 w1) as (_ & Ht3 & Hb3 & _).
    split; congruence.
Qed.

Section KeptGates.

Variable render : Component.
Variable G : Gate -> Prop.
Hypothesis G_callback :
  forall t g w, G g -> G (snd (fst (gateCallback render t g w))).

Lemma filterGates_kept t gs : forall w,
  Forall G gs -> Forall G (fst (filterGates render t gs w)).
Proof.
  induction gs as [|g gs IH]; intros w H; simpl; [constructor|].
  inversion H as [|g0 gs0 Hg Hgs]; subst.
  pose proof (G_callback t g w Hg) as Hg'.
  destruct (gateCallback render t g w) as [[keep g'] w'].
  specialize (IH w' Hgs).
  destruct (filterGates render t gs w') as [rest w''].
  cbn [fst snd] in *. destruct keep; [constructor|]; assumption.
Qed.

Hypothesis G_spawned : forall rnd s,
  Forall G (gates s) -> Forall G (gates (spawnGate rnd s)).

Lemma gameLoop_kept t rnd w :
  Forall G (gates (stream w)) ->
  Forall G (gates (stream (fst (gameLoop render t rnd w)))).
Proof.
  intro H. unfold gameLoop.
  set (w1 := integrate (updateVelocity t rnd (processEffects t w))).
  assert (H1 : Forall G (gates (stream w1))).
  { subst w1. rewrite integrate_stream, updateVelocity_stream,
      processEffects_stream. exact H. }
  assert (H2 : Forall G (gates (stream (maybeSpawn rnd w1)))).
  { unfold maybeSpawn. destruct (_ <=? _); [|exact H1].
    apply G_spawned. exact H1. }
  assert (H3 : Forall G (gates (stream (updateGates render t (maybeSpawn rnd w1))))).
  { unfold updateGates.
    pose proof (filterGates_kept t (gates (stream (maybeSpawn rnd w1)))
                  (maybeSpawn rnd w1) H2) as K.
    destruct (filterGates _ _ _ _) as [kept w']. exact K. }
  destruct (outOfBounds _); cbn [fst]; [rewrite gameOver_stream|]; exact H3.
Qed.

Lemma run_kept es : forall w,
  Forall G (gates (stream w)) -> Forall G (gates (stream (run render w es))).
Proof.
  induction es as [|e es IH]; intros w H; [exact H|].
  apply IH. destruct e as [|t rnd]; [exact H|].
  apply gameLoop_kept, H.
Qed.

End KeptGates.

Lemma spawnGate_spawnedGap rnd s :
  Forall spawnedGap (gates s) -> Forall spawnedGap (gates (spawnGate rnd s)).
Proof.
  intro H. unfold spawnGate. world_simpl.
  apply Forall_app. split; [exact H|].
  constructor; [|constructor].
  unfold spawnedGap. world_simpl. destruct (_ <? _); [left|right]; reflexivity.
Qed.

Lemma run_spawnedGap render rnd0 w0 es :
  Forall spawnedGap (gates (stream (run render (handleStartGame rnd0 w0) es))).
Proof.
  apply run_kept.
  - intros t g w H. unfold spawnedGap in *.
    destruct (gateCallback_opening render t g w) as [_ Hb]. rewrite Hb. exact H.
  - apply spawnGate_spawnedGap.
  - unfold handleStartGame, initializeGate. world_simpl.
    apply spawnGate_spawnedGap. constructor.
Qed.

(** C7. For every gate of every run, under either state of the
    widen-gap effect, the effective gap (the one the collision test and
    the token placement use) is at least the base gap of the gate: it
    is the base gap while the effect is off and 1.5 times the base gap
    while it is on. *)
Theorem widening_never_shrinks (render : Component) (w0 : World)
        (rnd0 : Draws) (es : list Event) (gate : Gate) :
  In gate (gates (stream (run render (handleStartGame rnd0 w0) es))) ->
  (forall active, baseGateGap gate <= actualGateGap active gate) /\
  actualGateGap false gate = baseGateGap gate /\
  actualGateGap true gate == baseGateGap gate * 1.5.
Proof.
  intro Hin.
  pose proof (run_spawnedGap render rnd0 w0 es) as F.
  rewrite Forall_forall in F. specialize (F gate Hin).
  assert (E : actualGateGap true gate == baseGateGap gate * 1.5).
  { unfold actualGateGap, GATE_GAP_INCREASE_PERCENT.
    setoid_replace (50 / 100) with 0.5 by reflexivity. lra. }
  split; [|split; [reflexivity|exact E]].
  intros [|]; [rewrite E|unfold actualGateGap; apply Qle_refl].
  destruct F as [F|F]; rewrite F; unfold NARROW_GATE_GAP, INITIAL_GATE_GAP; lra.
Qed.

Lemma widening_never_shrinks_witness :
  let gate := {| x := 800; topHeight := 20000 # 100; hasPassed := false; tokenType := NONE;
                 baseGateGap := 150; isFlashing := false |} in
  In gate (gates (stream (run initialComponent
                            (handleStartGame midDraws firstWorld) []))) /\
  ((forall active, baseGateGap gate <= actualGateGap active gate) /\
   actualGateGap false gate = baseGateGap gate /\
   actualGateGap true gate == baseGateGap gate * 1.5).
Proof.
  intro gate.
  assert (H : In gate (gates (stream (run initialComponent
                                        (handleStartGame midDraws firstWorld) [])))).
  { left. vm_compute. reflexivity. }
  split; [exact H|].
  exact (widening_never_shrinks initialComponent firstWorld midDraws [] gate H).
Defined.

(** ** Collecting a token *)

Lemma getCount_incrCount_same c k n :
  getCount c k = Some n -> getCount (incrCount c k) k = Some (n + 1)%Z.
Proof.
  unfold incrCount. intro H. rewrite H.
  destruct k; try discriminate; reflexivity.
Qed.

Lemma getCount_incrCount_other c k k' :
  k' <> k -> getCount (incrCount c k) k' = getCount c k'.
Proof.
  unfold incrCount. intro H.
  destruct k; cbn [getCount]; try reflexivity;
    destruct k'; try reflexivity; congruence.
Qed.

Lemma getCount_some c k : k <> NONE -> exists n, getCount c k = Some n.
Proof. destruct k; try congruence; intros _; eexists; reflexivity. Qed.

Lemma applyTokenEffect_counts k t w :
  tokenCountsRef (applyTokenEffect k t w) = tokenCountsRef w /\
  react (applyTokenEffect k t w) = react w.
Proof. destruct k; split; reflexivity. Qed.

(** The collection branch, when it is taken. *)
Lemma checkTokenCollected_taken t gap gate w :
  tokenType gate <> NONE ->
  Qabs (lineY (player w) - (topHeight gate + gap / 2)) < TOKEN_COLLECTION_RADIUS ->
  let r := checkTokenCollected t gap gate w in
  tokenType (fst r) = NONE /\
  tokenCountsRef (snd r) = incrCount (tokenCountsRef w) (tokenType gate) /\
  tokenCounts (react (snd r)) = incrCount (tokenCounts (react w)) (tokenType gate).
Proof.
  intros Hk Hy. unfold checkTokenCollected.
  replace (TokenType_neqb _ _) with true
    by (symmetry; apply TokenType_neqb_neq; exact Hk).
  replace (_ <? _) with true by (symmetry; apply Qltb_lt; exact Hy).
  destruct (applyTokenEffect_counts (tokenType gate) t w) as [A B].
  destruct (TokenType_eqb _ _); world_simpl; rewrite A, B; repeat split.
Qed.

(** A gate without a token gives nothing to collect. *)
Lemma checkTokenCollected_none t gap gate w :
  tokenType gate = NONE -> checkTokenCollected t gap gate w = (gate, w).
Proof. unfold checkTokenCollected. intros ->. reflexivity. Qed.

Lemma checkGatePassed_counts gate w :
  tokenCountsRef (snd (checkGatePassed gate w)) = tokenCountsRef w /\
  tokenCounts (react (snd (checkGatePassed gate w))) = tokenCounts (react w) /\
  effects (snd (checkGatePassed gate w)) = effects w.
Proof.
  unfold checkGatePassed. destruct (_ && _); [|repeat split].
  world_simpl. destruct (_ =? _)%Z; repeat split.
Qed.

Lemma finishGate_counts gate w :
  tokenType (snd (fst (finishGate gate w))) = tokenType gate /\
  tokenCountsRef (snd (finishGate gate w)) = tokenCountsRef w /\
  tokenCounts (react (snd (finishGate gate w))) = tokenCounts (react w) /\
  effects (snd (finishGate gate w)) = effects w.
Proof.
  unfold finishGate.
  pose proof (checkGatePassed_counts gate w) as H.
  pose proof (checkGatePassed_gate gate w) as (_ & _ & _ & K).
  destruct (checkGatePassed gate w) as [g' w']. cbn [fst snd] in *.
  tauto.
Qed.

Lemma collision_opening s y g g' gap :
  topHeight g = topHeight g' -> collision s y g gap = collision s y g' gap.
Proof. unfold collision. intros ->. reflexivity. Qed.

Lemma gateCallback_collects render t gate w :
  collectsToken t gate w ->
  let r := gateCallback render t gate w in
  tokenType (snd (fst r)) = NONE /\
  tokenCountsRef (snd r) = incrCount (tokenCountsRef w) (tokenType gate) /\
  tokenCounts (react (snd r)) = incrCount (tokenCounts (react w)) (tokenType gate).
Proof.
  intros (Hl & Hr & Hc & Hk & Hy). unfold gateCallback.
  destruct (advanceGate_gate t gate w) as (Ex & Et & Eb & Ek & _).
  destruct (advanceGate_world t gate w) as (Ep & Ee & Ec & Er & _).
  destruct (advanceGate t gate w) as [g1 w1]. cbn [fst snd] in *.
  rewrite Ex, Ee, Ep.
  replace (_ <=? LINE_X_POSITION) with true by (symmetry; apply Qleb_le; exact Hl).
  replace (_ >=? LINE_X_POSITION) with true by (symmetry; apply Qgeb_ge; exact Hr).
  cbn [andb].
  rewrite (actualGateGap_base _ g1 gate Eb), (collision_opening _ _ g1 gate _ Et), Hc.
  assert (Hk1 : tokenType g1 <> NONE) by congruence.
  assert (Hy1 : Qabs (lineY (player w1) -
                      (topHeight g1 + actualGateGap (btcEffectActive (effects w)) gate / 2))
                < TOKEN_COLLECTION_RADIUS) by (rewrite Ep, Et; exact Hy).
  pose proof (checkTokenCollected_taken t _ g1 w1 Hk1 Hy1) as (T1 & T2 & T3).
  destruct (checkTokenCollected _ _ _ _) as [g2 w2]. cbn [fst snd] in *.
  destruct (finishGate_counts g2 w2) as (F1 & F2 & F3 & _).
  rewrite F1, F2, F3, T1, T2, T3, Ek, Ec, Er. repeat split.
Qed.

(** A gate without a token stays without one, and its callback changes
    neither the counters nor the list of effects. *)
Lemma gateCallback_no_token render t gate w :
  tokenType gate = NONE ->
  let r := gateCallback render t gate w in
  tokenType (snd (fst r)) = NONE /\
  tokenCountsRef (snd r) = tokenCountsRef w /\
  effects (snd r) = effects w.
Proof.
  intro Hk. unfold gateCallback.
  destruct (advanceGate_gate t gate w) as (_ & _ & _ & Ek & _).
  destruct (advanceGate_world t gate w) as (_ & Ee & Ec & _).
  destruct (advanceGate t gate w) as [g1 w1]. cbn [fst snd] in *.
  assert (Hk1 : tokenType g1 = NONE) by congruence.
  destruct (_ && _).
  - destruct (collision _ _ _ _).
    + cbn [fst snd]. rewrite gameOver_tokenCountsRef, gameOver_effects. tauto.
    + rewrite checkTokenCollected_none by exact Hk1.
      destruct (finishGate_counts g1 w1) as (F1 & F2 & _ & F4).
      rewrite F1, F2, F4. tauto.
  - destruct (finishGate_counts g1 w1) as (F1 & F2 & _ & F4).
    rewrite F1, F2, F4. tauto.
Qed.

Lemma laterCallbacks_no_token render frames : forall gate,
  tokenType gate = NONE -> tokenType (laterCallbacks render frames gate) = NONE.
Proof.
  induction frames as [|[t w] rest IH]; intros gate H; [exact H|].
  cbn [laterCallbacks]. apply IH.
  apply (gateCallback_no_token render t gate w H).
Qed.

(** C6. When the callback of a gate collects its token, the gate
    leaves the callback with no token, the counter of the token's kind
    (in the ref and in the state cell) is one more than before and the
    other counters are unchanged; and in every later frame the callback
    of that gate has no token to collect: the gate still has none and
    the counters and the effects come out as they went in. *)
Theorem token_collected_once (render : Component) (t : number) (gate : Gate)
        (w : World) (n : Z) :
  collectsToken t gate w ->
  getCount (tokenCountsRef w) (tokenType gate) = Some n ->
  let r := gateCallback render t gate w in
  let gate' := snd (fst r) in
  tokenType gate' = NONE /\
  getCount (tokenCountsRef (snd r)) (tokenType gate) = Some (n + 1)%Z /\
  (forall k, k <> tokenType gate ->
     getCount (tokenCountsRef (snd r)) k = getCount (tokenCountsRef w) k) /\
  tokenCounts (react (snd r)) = incrCount (tokenCounts (react w)) (tokenType gate) /\
  (forall frames t' w',
     let later := laterCallbacks render frames gate' in
     let r' := gateCallback render t' later w' in
     tokenType later = NONE /\
     ~ collectsToken t' later w' /\
     tokenType (snd (fst r')) = NONE /\
     tokenCountsRef (snd r') = tokenCountsRef w' /\
     effects (snd r') = effects w').
Proof.
  intros Hc Hn r gate'.
  destruct (gateCallback_collects render t gate w Hc) as (A & B & C).
  fold r in A, B, C. fold gate' in A.
  split; [exact A|]. split; [rewrite B; apply getCount_incrCount_same, Hn|].
  split; [intros k Hk; rewrite B; apply getCount_incrCount_other, Hk|].
  split; [exact C|].
  intros frames t' w' later r'.
  assert (L : tokenType later = NONE)
    by (apply laterCallbacks_no_token; exact A).
  split; [exact L|]. split.
  - intros (_ & _ & _ & Hk & _). contradiction.
  - apply gateCallback_no_token. exact L.
Qed.

Lemma token_collected_once_witness :
  let gate := {| x := 102.53; topHeight := 225; hasPassed := false;
                 tokenType := ETH; baseGateGap := 150; isFlashing := false |} in
  let w := handleStartGame midDraws firstWorld in
  collectsToken 0 gate w /\
  getCount (tokenCountsRef w) (tokenType gate) = Some 0%Z /\
  tokenType (snd (fst (gateCallback initialComponent 0 gate w))) = NONE /\
  getCount (tokenCountsRef (snd (gateCallback initialComponent 0 gate w))) ETH
    = Some 1%Z.
Proof.
  intros gate w.
  assert (H1 : collectsToken 0 gate w).
  { unfold collectsToken. repeat split; try (vm_compute; congruence). }
  assert (H2 : getCount (tokenCountsRef w) (tokenType gate) = Some 0%Z)
    by reflexivity.
  split; [exact H1|]. split; [exact H2|].
  pose proof (token_collected_once initialComponent 0 gate w 0 H1 H2) as T.
  split; [exact (proj1 T)|exact (proj1 (proj2 T))].
Defined.

(** ** Best counts at the end of a run *)

(** The [forEach] in closed form: every key is raised on its own. *)
Lemma raiseCounts_closed (current highest : TokenCounts) :
  raiseCounts current highest =
  ({| btc := if (btc current >? btc highest)%Z then btc current else btc highest;
      eth := if (eth current >? eth highest)%Z then eth current else eth highest;
      tao := if (tao current >? tao highest)%Z then tao current else tao highest;
      bch := if (bch current >? bch highest)%Z then bch current else bch highest;
      hbar := if (hbar current >? hbar highest)%Z then hbar current else hbar highest;
      sol := if (sol current >? sol highest)%Z then sol current else sol highest |},
   (btc current >? btc highest)%Z || (eth current >? eth highest)%Z ||
   (tao current >? tao highest)%Z || (bch current >? bch highest)%Z ||
   (hbar current >? hbar highest)%Z || (sol current >? sol highest)%Z).
Proof.
  destruct current as [c1 c2 c3 c4 c5 c6], highest as [h1 h2 h3 h4 h5 h6].
  unfold raiseCounts, countKeys. cbn [fold_left btc eth tao bch hbar sol].
  unfold raiseCount at 6. cbn [fst snd getCount setCount btc eth tao bch hbar sol].
  destruct (c1 >? h1)%Z;
    (unfold raiseCount at 5; cbn [fst snd getCount setCount btc eth tao bch hbar sol];
     destruct (c2 >? h2)%Z);
    (unfold raiseCount at 4; cbn [fst snd getCount setCount btc eth tao bch hbar sol];
     destruct (c3 >? h3)%Z);
    (unfold raiseCount at 3; cbn [fst snd getCount setCount btc eth tao bch hbar sol];
     destruct (c4 >? h4)%Z);
    (unfold raiseCount at 2; cbn [fst snd getCount setCount btc eth tao bch hbar sol];
     destruct (c5 >? h5)%Z);
    (unfold raiseCount; cbn [fst snd getCount setCount btc eth tao bch hbar sol];
     destruct (c6 >? h6)%Z);
    reflexivity.
Qed.

Lemma raiseCounts_spec (current highest : TokenCounts) :
  let r := raiseCounts current highest in
  (forall k c h,
     getCount current k = Some c -> getCount highest k = Some h ->
     getCount (fst r) k = Some (if (c >? h)%Z then c else h) /\
     (snd r = false -> (c <= h)%Z)) /\
  (snd r = false -> fst r = highest).
Proof.
  rewrite raiseCounts_closed. cbn [fst snd]. split.
  - intros k c h Hc Hh.
    destruct k; cbn [getCount] in Hc, Hh |- *; try discriminate;
      injection Hc as <-; injection Hh as <-;
      (split; [reflexivity|]);
      rewrite !orb_false_iff; intros H; decompose [and] H;
      match goal with
      | G : (?a >? ?b)%Z = false |- (?a <= ?b)%Z =>
          destruct (Z.gtb_spec a b); [discriminate|assumption]
      end.
  - rewrite !orb_false_iff. intros H. decompose [and] H.
    repeat match goal with G : (_ >? _)%Z = false |- _ => rewrite G; clear G end.
    destruct highest; reflexivity.
Qed.

(** ** Properties of the cells, the ref and the storage

    A property that reads only the state cells, the ref and the storage
    survives a run as soon as it survives the game-over block, the
    collection of a token and the passage of a gate. *)

Lemma sameOutside_refl w : sameOutside w w.
Proof. repeat split. Qed.

Lemma sameOutside_trans a b c : sameOutside a b -> sameOutside b c -> sameOutside a c.
Proof. intros (A & B & C) (A' & B' & C'). repeat split; congruence. Qed.

Lemma applyActive_outside w e : sameOutside w (applyActive w e).
Proof. unfold applyActive. destruct (type e); repeat split. Qed.

Lemma fold_applyActive_outside l : forall w, sameOutside w (fold_left applyActive l w).
Proof.
  induction l as [|e l IH]; intro w; [apply sameOutside_refl|].
  cbn [fold_left]. eapply sameOutside_trans; [apply applyActive_outside|apply IH].
Qed.

Lemma processEffects_outside t w : sameOutside w (processEffects t w).
Proof.
  unfold processEffects.
  eapply sameOutside_trans; [|apply fold_applyActive_outside]. repeat split.
Qed.

Lemma updateVelocity_outside t rnd w : sameOutside w (updateVelocity t rnd w).
Proof.
  unfold updateVelocity.
  destruct (negb (solEffectActive (effects w))); world_simpl;
    repeat match goal with |- context [if ?c then _ else _] => destruct c end;
    repeat split.
Qed.

Lemma integrate_outside w : sameOutside w (integrate w).
Proof. unfold integrate. world_simpl. destruct (_ >? _); repeat split. Qed.

Lemma maybeSpawn_outside rnd w : sameOutside w (maybeSpawn rnd w).
Proof. unfold maybeSpawn. destruct (_ <=? _); repeat split. Qed.

Section OutsidePreservation.

Variable render : Component.
Variable P : World -> Prop.

Hypothesis P_outside : forall w w', sameOutside w w' -> P w -> P w'.
Hypothesis P_gameOver : forall w, P w -> P (gameOver render w).
Hypothesis P_collected :
  forall t gap g w, P w -> P (snd (checkTokenCollected t gap g w)).
Hypothesis P_passed : forall g w, P w -> P (snd (checkGatePassed g w)).

Lemma gameLoop_outside_preserves t rnd w :
  P w -> P (fst (gameLoop render t rnd w)).
Proof.
  intro H. unfold gameLoop.
  set (w1 := maybeSpawn rnd (integrate (updateVelocity t rnd (processEffects t w)))).
  assert (H1 : P w1).
  { refine (P_outside w w1 _ H). subst w1.
    eapply sameOutside_trans; [apply processEffects_outside|].
    eapply sameOutside_trans; [apply updateVelocity_outside|].
    eapply sameOutside_trans; [apply integrate_outside|].
    apply maybeSpawn_outside. }
  assert (H2 : P (updateGates render t w1)).
  { unfold updateGates.
    pose proof (filterGates_preserves render P) as F.
    assert (L : forall w' v, P w' -> P (on_stream (set_lastGateX v) w'))
      by (intros w' v; apply P_outside; repeat split).
    specialize (F L P_gameOver P_collected P_passed t (gates (stream w1)) w1 H1).
    destruct (filterGates _ _ _ _) as [kept w']. cbn [snd] in F.
    refine (P_outside _ _ _ F). repeat split. }
  destruct (outOfBounds _); cbn [fst]; [apply P_gameOver|]; exact H2.
Qed.

Lemma run_outside_preserves es : forall w, P w -> P (run render w es).
Proof.
  induction es as [|e es IH]; intros w H; [exact H|].
  apply IH. destruct e as [|t rnd].
  - refine (P_outside _ _ _ H). repeat split.
  - apply gameLoop_outside_preserves, H.
Qed.

End OutsidePreservation.

Lemma bestEver_stored l k :
  bestEver l k =
  match btcGameHighestTokenCounts l with
  | Some c => getCount c k
  | None => getCount zeroCounts k
  end.
Proof.
  unfold bestEver, loadSaved.
  destruct (btcGameHighestTokenCounts l), (btcGameHighScore l); reflexivity.
Qed.

(** What the game-over block leaves under the key of the best counts,
    and in the cell. *)
Lemma gameOver_best render w :
  let r := raiseCounts (tokenCountsRef w) (highestTokenCounts render) in
  btcGameHighestTokenCounts (localStorage (gameOver render w)) =
    (if snd r then Some (fst r) else btcGameHighestTokenCounts (localStorage w)) /\
  highestTokenCounts (react (gameOver render w)) =
    (if snd r then fst r else highestTokenCounts (react w)).
Proof.
  unfold gameOver. world_simpl.
  destruct (_ >? _)%Z; world_simpl;
    destruct (raiseCounts _ _) as [n u]; destruct u; split; reflexivity.
Qed.

Lemma gameOver_bestEver render w k h c :
  getCount (highestTokenCounts render) k = Some h ->
  getCount (tokenCountsRef w) k = Some c ->
  let r := raiseCounts (tokenCountsRef w) (highestTokenCounts render) in
  (snd r = true /\
   bestEver (localStorage (gameOver render w)) k = Some (if (c >? h)%Z then c else h)) \/
  (snd r = false /\ (c <= h)%Z /\
   bestEver (localStorage (gameOver render w)) k = bestEver (localStorage w) k).
Proof.
  intros Hh Hc r.
  destruct (gameOver_best render w) as [S _]. fold r in S.
  destruct (raiseCounts_spec (tokenCountsRef w) (highestTokenCounts render)) as [Sp _].
  destruct (Sp k c h Hc Hh) as [V F]. fold r in V, F.
  rewrite !bestEver_stored, S.
  destruct (snd r); [left|right]; auto.
Qed.

Lemma storedWithin_gameOver render w :
  storedWithin render w -> storedWithin render (gameOver render w).
Proof.
  intros J k h s' c Hh Hs' Hc. rewrite gameOver_tokenCountsRef in Hc.
  destruct (gameOver_bestEver render w k h c Hh Hc) as [[_ E]|(_ & _ & E)].
  - rewrite E in Hs'. injection Hs' as <-.
    destruct (Z.gtb_spec c h); [right; lia|left; reflexivity].
  - rewrite E in Hs'. exact (J k h s' c Hh Hs' Hc).
Qed.

Lemma storedWithin_collected render t gap g w :
  storedWithin render w -> storedWithin render (snd (checkTokenCollected t gap g w)).
Proof.
  intro J. unfold checkTokenCollected.
  destruct (TokenType_neqb _ _); [|exact J].
  destruct (_ <? _); [|exact J].
  intros k h s c Hh Hs Hc.
  destruct (applyTokenEffect_counts (tokenType g) t w) as [A B].
  assert (L : forall v : World, localStorage (applyTokenEffect (tokenType g) t v)
                                = localStorage v) by (intro v; destruct (tokenType g); reflexivity).
  assert (Hs0 : bestEver (localStorage w) k = Some s).
  { destruct (TokenType_eqb _ _); world_simpl_in Hs; rewrite L in Hs; exact Hs. }
  assert (Hc0 : getCount (incrCount (tokenCountsRef w) (tokenType g)) k = Some c).
  { destruct (TokenType_eqb _ _); world_simpl_in Hc; rewrite A in Hc; exact Hc. }
  destruct (TokenType_eq_dec k (tokenType g)) as [->|Hne].
  - destruct (getCount_some (tokenCountsRef w) (tokenType g)) as [n Hn].
    { intro E. rewrite E in Hh. discriminate. }
    rewrite (getCount_incrCount_same _ _ _ Hn) in Hc0. injection Hc0 as <-.
    destruct (J _ h s n Hh Hs0 Hn); [left; assumption|right; lia].
  - rewrite getCount_incrCount_other in Hc0 by exact Hne.
    exact (J k h s c Hh Hs0 Hc0).
Qed.

Lemma storedWithin_outside render w w' :
  sameOutside w w' -> storedWithin render w -> storedWithin render w'.
Proof.
  intros (_ & B & C) J k h s c Hh Hs Hc. rewrite C in Hs. rewrite B in Hc.
  exact (J k h s c Hh Hs Hc).
Qed.

Lemma checkGatePassed_outside g w :
  tokenCountsRef (snd (checkGatePassed g w)) = tokenCountsRef w /\
  localStorage (snd (checkGatePassed g w)) = localStorage w /\
  highestTokenCounts (react (snd (checkGatePassed g w))) = highestTokenCounts (react w).
Proof.
  unfold checkGatePassed. destruct (_ && _); [|repeat split].
  world_simpl. destruct (_ =? _)%Z; repeat split.
Qed.

(** Through a whole run the stored best counts stay between the
    captured ones and the counts of the run. *)
Lemma run_storedWithin render es w :
  storedWithin render w -> storedWithin render (run render w es).
Proof.
  apply (run_outside_preserves render (storedWithin render)).
  - apply storedWithin_outside.
  - apply storedWithin_gameOver.
  - apply storedWithin_collected.
  - intros g w' J k h s c Hh Hs Hc.
    destruct (checkGatePassed_outside g w') as (A & B & _).
    rewrite B in Hs. rewrite A in Hc. exact (J k h s c Hh Hs Hc).
Qed.

(** A run that starts from cells in step with the storage captures the
    stored best counts. *)
Lemma handleStartGame_storedWithin rnd w :
  syncedCells w ->
  storedWithin (react (handleStartGame rnd w)) (handleStartGame rnd w).
Proof.
  intros S k h s c Hh Hs _. left.
  unfold handleStartGame, initializeGate in Hh, Hs. world_simpl_in Hh.
  unfold freshWorld in Hh, Hs. world_simpl_in Hh. world_simpl_in Hs.
  rewrite S in Hh. congruence.
Qed.

(** The cell and the storage are written together, so they stay in step
    through the game-over block, whatever the capture is. *)
Lemma syncedCells_gameOver render w : syncedCells w -> syncedCells (gameOver render w).
Proof.
  intros S k. destruct (gameOver_best render w) as [A B].
  rewrite bestEver_stored, A, B.
  destruct (snd (raiseCounts _ _)); [reflexivity|].
  rewrite <- bestEver_stored. apply S.
Qed.

(** The game-over block raises the stored best count to the count of
    the run, and only if that one is higher. *)
Lemma gameOver_raises render w k s c :
  storedWithin render w ->
  bestEver (localStorage w) k = Some s ->
  getCount (tokenCountsRef w) k = Some c ->
  bestEver (localStorage (gameOver render w)) k = Some (if (c >? s)%Z then c else s).
Proof.
  intros J Hs Hc.
  assert (Hk : k <> NONE) by (intros ->; discriminate).
  destruct (getCount_some (highestTokenCounts render) k Hk) as [h Hh].
  destruct (gameOver_bestEver render w k h c Hh Hc) as [[_ E]|(_ & Hle & E)];
    rewrite E.
  - f_equal. destruct (J k h s c Hh Hs Hc) as [->|[H1 H2]]; [reflexivity|].
    destruct (Z.gtb_spec c h); [|lia].
    destruct (Z.gtb_spec c s); [reflexivity|lia].
  - rewrite Hs. f_equal.
    destruct (Z.gtb_spec c s); [|reflexivity].
    destruct (J k h s c Hh Hs Hc); lia.
Qed.

Lemma bestEver_some l k : k <> NONE -> exists s, bestEver l k = Some s.
Proof. intro H. unfold bestEver. apply getCount_some, H. Qed.

(** Through any events of a run the stored best count of a kind only
    grows. *)
Lemma run_bestEver_mono render es w k s s' :
  storedWithin render w ->
  bestEver (localStorage w) k = Some s ->
  bestEver (localStorage (run render w es)) k = Some s' ->
  (s <= s')%Z.
Proof.
  intros J Hs.
  assert (Hk : k <> NONE) by (intros ->; discriminate).
  pose (P := fun v : World =>
               storedWithin render v /\
               forall s', bestEver (localStorage v) k = Some s' -> (s <= s')%Z).
  assert (HP : P (run render w es)).
  { apply (run_outside_preserves render P).
    - intros v v' O [A B]. split; [exact (storedWithin_outside render v v' O A)|].
      destruct O as (_ & _ & L). rewrite L. exact B.
    - intros v [A B]. split; [apply storedWithin_gameOver, A|].
      intros s1 H1.
      destruct (bestEver_some (localStorage v) k Hk) as [s0 H0].
      destruct (getCount_some (tokenCountsRef v) k Hk) as [c Hc].
      rewrite (gameOver_raises render v k s0 c A H0 Hc) in H1.
      injection H1 as <-. specialize (B s0 H0).
      destruct (Z.gtb_spec c s0); lia.
    - intros t gap g v [A B]. split; [apply storedWithin_collected, A|].
      assert (L : localStorage (snd (checkTokenCollected t gap g v)) = localStorage v).
      { unfold checkTokenCollected.
        destruct (TokenType_neqb _ _); [|reflexivity].
        destruct (_ <? _); [|reflexivity].
        destruct (TokenType_eqb _ _); world_simpl;
          destruct (tokenType g); reflexivity. }
      rewrite L. exact B.
    - intros g v [A B].
      destruct (checkGatePassed_outside g v) as (R & L & _).
      split; [|rewrite L; exact B].
      intros k0 h s0 c Hh H0 Hc. rewrite L in H0. rewrite R in Hc.
      exact (A k0 h s0 c Hh H0 Hc).
    - split; [exact J|]. intros s1 H1. rewrite Hs in H1. injection H1 as <-. lia. }
  intro H. exact (proj2 HP s' H).
Qed.

(** The cells stay in step with the storage through a run and through
    the next start, so every run captures the stored best counts. *)
Lemma run_syncedCells render es w : syncedCells w -> syncedCells (run render w es).
Proof.
  apply (run_outside_preserves render syncedCells).
  - intros v v' (R & _ & L) S k. rewrite R, L. apply S.
  - intros v. apply syncedCells_gameOver.
  - intros t gap g v S k. unfold checkTokenCollected.
    destruct (TokenType_neqb _ _); [|apply S].
    destruct (_ <? _); [|apply S].
    destruct (TokenType_eqb _ _); world_simpl;
      destruct (tokenType g); apply S.
  - intros g v S k. destruct (checkGatePassed_outside g v) as (_ & L & R).
    rewrite L, R. apply S.
Qed.

(** The ref and the [tokenCounts] cell agree through a run. *)
Lemma run_ref_in_step render es w :
  tokenCounts (react w) = tokenCountsRef w ->
  tokenCounts (react (run render w es)) = tokenCountsRef (run render w es).
Proof.
  apply (run_outside_preserves render
           (fun v => tokenCounts (react v) = tokenCountsRef v)).
  - intros v v' (R & T & _) H. rewrite R, T. exact H.
  - intros v _. unfold gameOver.
    destruct (raiseCounts _ _) as [n u].
    destruct u; destruct (_ >? _)%Z; reflexivity.
  - intros t gap g v H. unfold checkTokenCollected.
    destruct (TokenType_neqb _ _); [|exact H].
    destruct (_ <? _); [|exact H].
    destruct (applyTokenEffect_counts (tokenType g) t v) as [A B].
    destruct (TokenType_eqb _ _); world_simpl; rewrite A, B, H; reflexivity.
  - intros g v H. destruct (checkGatePassed_counts g v) as (A & B & _).
    rewrite A, B. exact H.
Qed.

Lemma handleStartGame_syncedCells rnd w :
  syncedCells w -> syncedCells (handleStartGame rnd w).
Proof. intros S k. apply S. Qed.

Lemma loadSaved_syncedCells l ref :
  syncedCells (freshWorld (loadSaved l initialComponent) ref l).
Proof. intro k. reflexivity. Qed.

(** C8. At the end of a run, for every kind, the best count held by
    the storage becomes the count of the run when that count is strictly
    higher than the stored one and is otherwise what it was; so it never
    decreases.  This holds at every end of a run, including a second one
    within the same run (the stored value then lies between the captured
    one and the count of the run), and the relation between storage,
    capture and run counts that it relies on holds again afterwards. *)
Theorem best_counts_never_decrease (render : Component) (w : World)
        (k : TokenType) (s c : Z) :
  storedWithin render w ->
  bestEver (localStorage w) k = Some s ->
  getCount (tokenCountsRef w) k = Some c ->
  let w' := gameOver render w in
  bestEver (localStorage w') k = Some (if (c >? s)%Z then c else s) /\
  (forall s', bestEver (localStorage w') k = Some s' -> (s <= s')%Z) /\
  storedWithin render w'.
Proof.
  intros J Hs Hc w'.
  pose proof (gameOver_raises render w k s c J Hs Hc) as E. fold w' in E.
  split; [exact E|]. split; [|apply storedWithin_gameOver, J].
  intros s' Hs'. rewrite E in Hs'. injection Hs' as <-.
  destruct (Z.gtb_spec c s); lia.
Qed.

Lemma best_counts_never_decrease_witness :
  storedWithin mounted endOfRun /\
  bestEver (localStorage endOfRun) ETH = Some 1%Z /\
  getCount (tokenCountsRef endOfRun) ETH = Some 4%Z /\
  bestEver (localStorage (gameOver mounted endOfRun)) ETH = Some 4%Z.
Proof.
  assert (J : storedWithin mounted endOfRun).
  { intros k h s c Hh Hs _. left.
    destruct k; try discriminate; vm_compute in Hh, Hs; congruence. }
  split; [exact J|]. split; [reflexivity|]. split; [reflexivity|].
  exact (proj1 (best_counts_never_decrease mounted endOfRun ETH 1 4 J
                  eq_refl eq_refl)).
Defined.

(** ** The kind of token a spawn carries *)

Lemma possibleTokens_In last k :
  In k (possibleTokens last) <-> k <> NONE /\ k <> last.
Proof.
  destruct last, k; cbn; intuition congruence.
Qed.

Lemma possibleTokens_NoDup last : NoDup (possibleTokens last).
Proof.
  destruct last; cbn;
    repeat (constructor; [cbn; intuition discriminate|]); constructor.
Qed.

Lemma possibleTokens_length last :
  length (possibleTokens last) = if TokenType_neqb last NONE then 5%nat else 6%nat.
Proof. destruct last; reflexivity. Qed.

Lemma Qfloor_eq (q : number) (i : Z) :
  Qfloor q = i <-> inject_Z i <= q /\ q < inject_Z i + 1.
Proof.
  split.
  - intros <-. split; [apply Qfloor_le|].
    pose proof (Qlt_floor q) as H. rewrite inject_Z_plus in H. exact H.
  - intros [Hl Hu].
    pose proof (Qfloor_le q) as Fl. pose proof (Qlt_floor q) as Fu.
    assert (A : inject_Z (Qfloor q) < inject_Z (i + 1)).
    { rewrite inject_Z_plus. eapply Qle_lt_trans; eassumption. }
    assert (B : inject_Z i < inject_Z (Qfloor q + 1)).
    { eapply Qle_lt_trans; eassumption. }
    rewrite <- Zlt_Qlt in A, B. lia.
Qed.

(** The index read from the pool is in range for a draw of the unit
    interval. *)
Lemma randomIndex_range r pool :
  unit_draw r -> (0 < length pool)%nat ->
  (0 <= randomIndex r pool < Z.of_nat (length pool))%Z.
Proof.
  intros [H0 H1] Hlen. unfold randomIndex.
  set (n := Z.of_nat (length pool)).
  assert (Hn : 0 < inject_Z n).
  { change 0 with (inject_Z 0). rewrite <- Zlt_Qlt. subst n. lia. }
  pose proof (Qfloor_le (r * inject_Z n)) as Fl.
  pose proof (Qlt_floor (r * inject_Z n)) as Fu.
  split.
  - assert (A : inject_Z 0 < inject_Z (Qfloor (r * inject_Z n) + 1)).
    { eapply Qle_lt_trans; [|exact Fu]. change (inject_Z 0) with 0.
      apply Qmult_le_0_compat; [exact H0|apply Qlt_le_weak, Hn]. }
    rewrite <- Zlt_Qlt in A. lia.
  - assert (A : inject_Z (Qfloor (r * inject_Z n)) < inject_Z n).
    { eapply Qle_lt_trans; [exact Fl|].
      setoid_replace (inject_Z n) with (1 * inject_Z n) at 2 by ring.
      apply Qmult_lt_compat_r; assumption. }
    rewrite <- Zlt_Qlt in A. exact A.
Qed.

Lemma getRandomTokenType_roll rnd last :
  rTokenRoll rnd < 0.25 ->
  getRandomTokenType rnd last =
  nth (Z.to_nat (randomIndex (rIndex rnd) (possibleTokens last)))
      (possibleTokens last) NONE.
Proof.
  intro H. unfold getRandomTokenType.
  replace (_ <? 0.25) with true by (symmetry; apply Qltb_lt; exact H).
  rewrite possibleTokens_length. destruct (TokenType_neqb last NONE); reflexivity.
Qed.

Lemma getRandomTokenType_no_roll rnd last :
  0.25 <= rTokenRoll rnd -> getRandomTokenType rnd last = NONE.
Proof.
  intro H. unfold getRandomTokenType.
  replace (_ <? 0.25) with false by (symmetry; apply Qltb_ge; exact H).
  reflexivity.
Qed.

Lemma getRandomTokenType_pool rnd last :
  getRandomTokenType rnd last <> NONE ->
  In (getRandomTokenType rnd last) (possibleTokens last).
Proof.
  unfold getRandomTokenType.
  destruct (_ <? 0.25); [|congruence].
  destruct (0 <? _)%nat; [|congruence].
  intro H.
  destruct (nth_in_or_default
              (Z.to_nat (randomIndex (rIndex rnd) (possibleTokens last)))
              (possibleTokens last) NONE) as [I|E]; [exact I|congruence].
Qed.

Lemma pool_positive last : (0 < length (possibleTokens last))%nat.
Proof. rewrite possibleTokens_length. destruct (TokenType_neqb _ _); lia. Qed.

(** One draw: the kind is a member of the pool chosen by the index, and
    each member is chosen on an interval of draws of the same width. *)
Lemma getRandomTokenType_uniform rnd last (i : nat) :
  rTokenRoll rnd < 0.25 -> unit_draw (rIndex rnd) ->
  (i < length (possibleTokens last))%nat ->
  let n := inject_Z (Z.of_nat (length (possibleTokens last))) in
  getRandomTokenType rnd last = nth i (possibleTokens last) NONE <->
  inject_Z (Z.of_nat i) <= rIndex rnd * n /\
  rIndex rnd * n < inject_Z (Z.of_nat i) + 1.
Proof.
  intros Hroll Hu Hi n.
  rewrite (getRandomTokenType_roll rnd last Hroll).
  pose proof (randomIndex_range (rIndex rnd) (possibleTokens last) Hu
                (pool_positive last)) as R.
  rewrite <- Qfloor_eq. subst n. unfold randomIndex in *.
  split; intro H.
  - apply (proj1 (NoDup_nth (possibleTokens last) NONE) (possibleTokens_NoDup last))
      in H; lia.
  - rewrite H, Nat2Z.id. reflexivity.
Qed.

Lemma spawnGate_kind rnd s :
  exists g,
    gates (spawnGate rnd s) = gates s ++ [g] /\
    tokenType g = getRandomTokenType rnd (lastTokenType s) /\
    lastTokenType (spawnGate rnd s) = tokenType g.
Proof. unfold spawnGate. world_simpl. eexists. repeat split. Qed.

(** The kind of the newest gate is the one remembered for the next
    spawn. *)
Lemma spawnAll_last rs : forall s,
  gates s = [] ->
  forall l a, map tokenType (gates (spawnAll rs s)) = l ++ [a] ->
  lastTokenType (spawnAll rs s) = a.
Proof.
  induction rs as [|rnd rs IH] using rev_ind; intros s Hs l a E.
  - cbn in E. rewrite Hs in E. destruct l; discriminate.
  - unfold spawnAll in *. rewrite fold_left_app in *. cbn [fold_left] in *.
    destruct (spawnGate_kind rnd (fold_left (fun s rnd => spawnGate rnd s) rs s))
      as (g & Eg & _ & El).
    rewrite Eg, map_app in E. cbn [map] in E.
    apply app_inj_tail in E. destruct E as [_ <-]. exact El.
Qed.

Lemma spawnAll_no_repeat rs : forall s,
  gates s = [] ->
  forall l1 a b l2,
    map tokenType (gates (spawnAll rs s)) = l1 ++ a :: b :: l2 ->
    b <> NONE -> b <> a.
Proof.
  induction rs as [|rnd rs IH] using rev_ind; intros s Hs l1 a b l2 E Hb.
  - cbn in E. rewrite Hs in E. destruct l1; discriminate.
  - pose proof (spawnAll_last rs s Hs) as L.
    specialize (IH s Hs).
    unfold spawnAll in *. rewrite fold_left_app in E. cbn [fold_left] in E.
    set (s1 := fold_left (fun s rnd => spawnGate rnd s) rs s) in *.
    destruct (spawnGate_kind rnd s1) as (g & Eg & Ek & _).
    rewrite Eg, map_app in E. cbn [map] in E.
    destruct l2 as [|c l2] using rev_ind.
    + change (l1 ++ [a; b]) with (l1 ++ [a] ++ [b]) in E.
      rewrite app_assoc in E. apply app_inj_tail in E. destruct E as [E1 E2].
      specialize (L _ _ E1). subst b. rewrite Ek, L in *.
      apply getRandomTokenType_pool in Hb.
      apply possibleTokens_In in Hb. tauto.
    + clear IHl2.
      change (l1 ++ a :: b :: l2 ++ [c]) with (l1 ++ (a :: b :: l2) ++ [c]) in E.
      rewrite app_assoc in E. apply app_inj_tail in E. destruct E as [E1 _].
      exact (IH _ _ _ _ E1 Hb).
Qed.

Lemma checkGatePassed_lastTokenType g w :
  lastTokenType (stream (snd (checkGatePassed g w))) = lastTokenType (stream w).
Proof.
  unfold checkGatePassed. destruct (_ && _); [|reflexivity].
  world_simpl. destruct (_ =? _)%Z; reflexivity.
Qed.

(** In a frame, [lastTokenType] is written by the spawn and by nothing
    else: between two spawns it keeps the kind of the earlier one. *)
Lemma gameLoop_lastTokenType render t rnd w :
  let w1 := integrate (updateVelocity t rnd (processEffects t w)) in
  lastGateX (stream w1) = lastGateX (stream w) /\
  lastTokenType (stream (fst (gameLoop render t rnd w))) =
    if lastGateX (stream w) <=? GAME_WIDTH - GATE_DISTANCE
    then getRandomTokenType rnd (lastTokenType (stream w))
    else lastTokenType (stream w).
Proof.
  intro w1.
  assert (S1 : stream w1 = stream w).
  { subst w1. rewrite integrate_stream, updateVelocity_stream, processEffects_stream.
    reflexivity. }
  split; [rewrite S1; reflexivity|].
  assert (U : forall v, lastTokenType (stream (updateGates render t v))
                        = lastTokenType (stream v)).
  { intro v. unfold updateGates.
    pose proof (filterGates_preserves render
                  (fun w' => lastTokenType (stream w') = lastTokenType (stream v))) as F.
    assert (F' : lastTokenType (stream (snd (filterGates render t (gates (stream v)) v)))
                 = lastTokenType (stream v)).
    { apply F; try reflexivity.
      - intros w' x H. exact H.
      - intros w' H. rewrite gameOver_stream. exact H.
      - intros t' gap g w' H. rewrite checkTokenCollected_stream. exact H.
      - intros g w' H. rewrite checkGatePassed_lastTokenType. exact H. }
    destruct (filterGates _ _ _ _) as [kept w']. exact F'. }
  unfold gameLoop. fold w1.
  assert (E : lastTokenType (stream (updateGates render t (maybeSpawn rnd w1))) =
              if lastGateX (stream w) <=? GAME_WIDTH - GATE_DISTANCE
              then getRandomTokenType rnd (lastTokenType (stream w))
              else lastTokenType (stream w)).
  { rewrite U. unfold maybeSpawn. rewrite S1.
    destruct (_ <=? _); [|rewrite S1; reflexivity].
    world_simpl. rewrite S1. reflexivity. }
  destruct (outOfBounds _); cbn [fst]; [rewrite gameOver_stream|]; exact E.
Qed.

(** C4. A spawn carries a token exactly on a roll below 0.25; the kind
    is then the member of the pool at the drawn index, the pool holds
    every kind but [NONE] and the kind of the spawn before, and each
    member is drawn on an interval of the same width.  So in any
    sequence of spawns no kind other than [NONE] comes twice in a row;
    a spawn without a token in between lifts the exclusion (the same
    kind can come before and after it). *)
Theorem token_kind_no_immediate_repeat (c : Component) (ref : TokenCounts)
        (l : LocalStorage) (rs : list Draws) :
  let s0 := stream (freshWorld c ref l) in
  (forall rnd last,
     let k := getRandomTokenType rnd last in
     (k <> NONE -> In k (possibleTokens last) /\ k <> last) /\
     (unit_draw (rIndex rnd) -> (k <> NONE <-> rTokenRoll rnd < 0.25)) /\
     (rTokenRoll rnd < 0.25 -> unit_draw (rIndex rnd) ->
      forall i, (i < length (possibleTokens last))%nat ->
        let n := inject_Z (Z.of_nat (length (possibleTokens last))) in
        k = nth i (possibleTokens last) NONE <->
        inject_Z (Z.of_nat i) <= rIndex rnd * n /\
        rIndex rnd * n < inject_Z (Z.of_nat i) + 1)) /\
  (forall last k, In k (possibleTokens last) <-> k <> NONE /\ k <> last) /\
  (forall l1 a b l2,
     map tokenType (gates (spawnAll rs s0)) = l1 ++ a :: b :: l2 ->
     b <> NONE -> b <> a) /\
  (exists rs', Forall (fun rnd => unit_draw (rTokenRoll rnd) /\ unit_draw (rIndex rnd)) rs' /\
               map tokenType (gates (spawnAll rs' s0)) = [BTC; NONE; BTC]).
Proof.
  intro s0. split; [|split; [|split]].
  - intros rnd last k. split; [|split].
    + intro Hk. pose proof (getRandomTokenType_pool rnd last Hk) as I.
      split; [exact I|]. apply possibleTokens_In in I. tauto.
    + intro Hu. split.
      * intro Hk. apply Qnot_le_lt. intro Hle. apply Hk.
        apply getRandomTokenType_no_roll, Hle.
      * intros Hroll Hk. subst k.
        rewrite (getRandomTokenType_roll rnd last Hroll) in Hk.
        pose proof (randomIndex_range (rIndex rnd) (possibleTokens last) Hu
                      (pool_positive last)) as R.
        assert (I : In NONE (possibleTokens last)).
        { rewrite <- Hk. apply nth_In. lia. }
        apply possibleTokens_In in I. tauto.
    + intros Hroll Hu i Hi. apply getRandomTokenType_uniform; assumption.
  - apply possibleTokens_In.
  - apply spawnAll_no_repeat. reflexivity.
  - exists [ {| rChaos := 0; rVariance := 0; rTop := 0; rNarrow := 0;
               rTokenRoll := 0.1; rIndex := 0 |};
             {| rChaos := 0; rVariance := 0; rTop := 0; rNarrow := 0;
               rTokenRoll := 0.5; rIndex := 0 |};
             {| rChaos := 0; rVariance := 0; rTop := 0; rNarrow := 0;
               rTokenRoll := 0.1; rIndex := 0 |} ].
    split; [|reflexivity].
    repeat constructor; cbn; try discriminate; reflexivity.
Qed.

(** ** The effects of a frame *)

Lemma applyActive_kept w e :
  activeEffects (effects (applyActive w e)) = activeEffects (effects w) /\
  chaosMode (effects (applyActive w e)) = chaosMode (effects w) /\
  chaosModeEndTime (effects (applyActive w e)) = chaosModeEndTime (effects w).
Proof. unfold applyActive. destruct (type e); repeat split. Qed.

Lemma fold_applyActive_kept l : forall w,
  activeEffects (effects (fold_left applyActive l w)) = activeEffects (effects w) /\
  chaosMode (effects (fold_left applyActive l w)) = chaosMode (effects w) /\
  chaosModeEndTime (effects (fold_left applyActive l w)) = chaosModeEndTime (effects w).
Proof.
  induction l as [|e l IH]; intro w; [repeat split|].
  cbn [fold_left]. destruct (IH (applyActive w e)) as (A & B & C).
  destruct (applyActive_kept w e) as (A' & B' & C').
  repeat split; congruence.
Qed.

Lemma processEffects_kept t w :
  activeEffects (effects (processEffects t w)) = unexpired t (activeEffects (effects w)) /\
  chaosMode (effects (processEffects t w)) = chaosMode (effects w) /\
  chaosModeEndTime (effects (processEffects t w)) = chaosModeEndTime (effects w).
Proof.
  unfold processEffects.
  match goal with |- context [fold_left applyActive ?l ?v] =>
    destruct (fold_applyActive_kept l v) as (A & B & C) end.
  rewrite A, B, C. repeat split.
Qed.

(** *** Which speed wins *)

Lemma applyActive_speed w e :
  currentSpeed (effects (applyActive w e)) =
  match speedSetBy (baseSpeed (stream w)) (type e) with
  | Some v => v
  | None => currentSpeed (effects w)
  end.
Proof. unfold applyActive. destruct (type e); reflexivity. Qed.

(** The loop over the active effects leaves the speed of the last
    effect of the list that sets one. *)
Lemma fold_applyActive_speed l : forall w,
  currentSpeed (effects (fold_left applyActive l w)) =
  match find setsSpeed (rev l) with
  | Some e => match speedSetBy (baseSpeed (stream w)) (type e) with
              | Some v => v
              | None => currentSpeed (effects w)
              end
  | None => currentSpeed (effects w)
  end.
Proof.
  induction l as [|e l IH] using rev_ind; intro w; [reflexivity|].
  rewrite fold_left_app, rev_app_distr. cbn [fold_left rev app find].
  rewrite applyActive_speed, fold_applyActive_stream.
  unfold setsSpeed at 1.
  destruct (type e) eqn:K; cbn [speedSetBy]; rewrite ?K; cbn [speedSetBy];
    try reflexivity; apply IH.
Qed.

Lemma collectedTwo_effects_SOL_ETH :
  activeEffects (effects (collectedTwo SOL ETH 0 1500)) =
  [ {| type := SOL; endTime := 0 + SOL_EFFECT_DURATION |};
    {| type := ETH; endTime := 1500 + 5000 |} ].
Proof. reflexivity. Qed.

(** C3, as stated, fails: with a SOL effect collected first and an ETH
    effect collected after it, both active, the frame runs at half the
    base speed (the ETH rule, applied last), not at twice the base
    speed (the rule of SOL, the kind declared last). *)
Lemma speed_follows_declaration_order_fails : ~ speedFollowsDeclarationOrder.
Proof.
  intro H. specialize (H 2000 (collectedTwo SOL ETH 0 1500)).
  cbv zeta in H.
  assert (T : twoSpeedKinds (unexpired 2000
                (activeEffects (effects (collectedTwo SOL ETH 0 1500))))).
  { exists {| type := SOL; endTime := 0 + SOL_EFFECT_DURATION |},
           {| type := ETH; endTime := 1500 + 5000 |}.
    repeat split; try discriminate; vm_compute; auto. }
  specialize (H T). vm_compute in H. discriminate H.
Qed.

(** C3, amended. The speed of a frame is the one set by the last
    effect, in the order of the list of active effects, that sets a
    speed; the list is in order of collection (an effect is appended
    when its token is collected and the expiry filter keeps the order),
    so with two or more speed-setting kinds active the most recently
    collected one wins.  With none active the speed is the base speed. *)
Theorem speed_set_by_latest_effect (t : number) (w : World) :
  let live := unexpired t (activeEffects (effects w)) in
  currentSpeed (effects (processEffects t w)) =
    match find setsSpeed (rev live) with
    | Some e => match speedSetBy (baseSpeed (stream w)) (type e) with
                | Some v => v
                | None => baseSpeed (stream w)
                end
    | None => baseSpeed (stream w)
    end /\
  (forall k t' e,
     activeEffects (pushEffect k t' e) =
     activeEffects e ++ [ {| type := k; endTime := t' |} ]) /\
  (forall earlier e later,
     activeEffects (effects w) = earlier ++ e :: later ->
     (endTime e >? t) = true ->
     exists earlier' later',
       live = earlier' ++ e :: later' /\
       earlier' = unexpired t earlier /\ later' = unexpired t later).
Proof.
  intro live. split; [|split].
  - unfold processEffects. rewrite fold_applyActive_speed. reflexivity.
  - reflexivity.
  - intros earlier e later E He. subst live. rewrite E.
    unfold unexpired. rewrite filter_app. cbn [filter]. rewrite He.
    eexists _, _. repeat split.
Qed.

(** *** The frictionless effect *)

Lemma isSOL_type e : isSOL e = true <-> type e = SOL.
Proof. unfold isSOL. destruct (type e); cbn; split; congruence. Qed.

Lemma applyActive_sol w e :
  solEffectActive (effects (applyActive w e)) =
    (solEffectActive (effects w) || isSOL e) /\
  lineVelocity (player (applyActive w e)) =
    (if isSOL e then 0 else lineVelocity (player w)).
Proof.
  unfold applyActive, isSOL.
  destruct (type e); cbn [TokenType_eqb TokenType_neqb negb]; world_simpl;
    rewrite ?orb_false_r, ?orb_true_r; split; reflexivity.
Qed.

Lemma fold_applyActive_sol l : forall w,
  solEffectActive (effects (fold_left applyActive l w)) =
    (solEffectActive (effects w) || existsb isSOL l) /\
  lineVelocity (player (fold_left applyActive l w)) =
    (if existsb isSOL l then 0 else lineVelocity (player w)).
Proof.
  induction l as [|e l IH]; intro w; cbn [fold_left existsb].
  - rewrite orb_false_r. split; reflexivity.
  - destruct (IH (applyActive w e)) as [A B].
    destruct (applyActive_sol w e) as [A' B'].
    rewrite A, B, A', B'. rewrite orb_assoc. split; [reflexivity|].
    destruct (isSOL e); cbn [orb]; [destruct (existsb isSOL l)|]; reflexivity.
Qed.

Lemma frictionlessActive_live t w :
  frictionlessActive t w <->
  existsb isSOL (unexpired t (activeEffects (effects w))) = true.
Proof.
  unfold frictionlessActive, unexpired. rewrite existsb_exists. split.
  - intros (e & I & K & T). exists e. split; [|apply isSOL_type, K].
    apply filter_In. split; [exact I|]. apply Qgtb_gt, T.
  - intros (e & I & K). apply filter_In in I. destruct I as [I T].
    exists e. split; [exact I|]. split; [apply isSOL_type, K|apply Qgtb_gt, T].
Qed.

(** What [processEffects] leaves of the frictionless effect. *)
Lemma processEffects_sol t w :
  solEffectActive (effects (processEffects t w)) =
    existsb isSOL (unexpired t (activeEffects (effects w))) /\
  lineVelocity (player (processEffects t w)) =
    (if existsb isSOL (unexpired t (activeEffects (effects w)))
     then 0 else lineVelocity (player w)).
Proof.
  unfold processEffects.
  match goal with |- context [fold_left applyActive ?l ?v] =>
    destruct (fold_applyActive_sol l v) as [A B] end.
  rewrite A, B. split; reflexivity.
Qed.

Lemma gameLoop_integrates render t rnd w :
  lineY (player (fst (gameLoop render t rnd w))) =
    lineY (player w) + integratedVelocity t rnd w /\
  lineVelocity (player (fst (gameLoop render t rnd w))) = integratedVelocity t rnd w.
Proof.
  rewrite gameLoop_player.
  destruct (integrate_player (updateVelocity t rnd (processEffects t w))) as [A B].
  rewrite A, B, updateVelocity_lineY, processEffects_lineY. split; reflexivity.
Qed.

Lemma collectedTwo_BCH_SOL :
  let w := collectedTwo BCH SOL 0 1000 in
  activeEffects (effects w) = [ {| type := SOL; endTime := 1000 + SOL_EFFECT_DURATION |} ] /\
  chaosMode (effects w) = true /\
  chaosModeEndTime (effects w) = 0 + BCH_CHAOS_DURATION.
Proof. repeat split. Qed.

(** C2, as stated, fails: after a BCH token collected at 0 and a SOL
    token collected at 1000, the frame at 2000 has the frictionless
    effect active and chaos mode still armed; it integrates the
    perturbation of chaos, 0.5 for a draw of 0.75, and the position
    moves by that much. *)
Lemma frictionless_means_zero_velocity_fails : ~ frictionlessMeansZeroVelocity.
Proof.
  intro H.
  specialize (H 2000 chaosDraws (collectedTwo BCH SOL 0 1000)).
  assert (U : unit_draw (rChaos chaosDraws)) by (split; vm_compute; congruence).
  assert (A : frictionlessActive 2000 (collectedTwo BCH SOL 0 1000)).
  { exists {| type := SOL; endTime := 1000 + SOL_EFFECT_DURATION |}.
    split; [left; reflexivity|]. split; [reflexivity|]. vm_compute. reflexivity. }
  specialize (H U A). vm_compute in H. discriminate H.
Qed.

Lemma updateVelocity_chaos t rnd w :
  solEffectActive (effects w) = true ->
  lineVelocity (player (updateVelocity t rnd w)) =
    (if chaosMode (effects w) && (t <? chaosModeEndTime (effects w))
     then lineVelocity (player w) + (rChaos rnd - 0.5) * 2
     else lineVelocity (player w)).
Proof.
  intro S. unfold updateVelocity. rewrite S. cbn [negb].
  destruct (chaosMode (effects w) && (t <? chaosModeEndTime (effects w)));
    [reflexivity|].
  destruct (_ && _); reflexivity.
Qed.

Lemma updateVelocity_activeEffects t rnd w :
  activeEffects (effects (updateVelocity t rnd w)) = activeEffects (effects w).
Proof.
  unfold updateVelocity.
  destruct (negb (solEffectActive (effects w))); world_simpl;
    repeat match goal with |- context [if ?c then _ else _] => destruct c end;
    reflexivity.
Qed.

Lemma checkTokenCollected_keeps_effect e t gap g w :
  In e (activeEffects (effects w)) ->
  In e (activeEffects (effects (snd (checkTokenCollected t gap g w)))).
Proof.
  intro I. unfold checkTokenCollected.
  destruct (TokenType_neqb _ _); [|exact I].
  destruct (_ <? _); [|exact I].
  assert (A : In e (activeEffects (effects (applyTokenEffect (tokenType g) t w)))).
  { destruct (tokenType g); cbn [applyTokenEffect]; world_simpl;
      try exact I; apply in_or_app; left; exact I. }
  destruct (TokenType_eqb _ _); world_simpl; exact A.
Qed.

(** An effect that a frame has not reached is still in the list after
    the frame. *)
Lemma gameLoop_keeps_effect render e t rnd w :
  In e (activeEffects (effects w)) -> t < endTime e ->
  In e (activeEffects (effects (fst (gameLoop render t rnd w)))).
Proof.
  intros I T. unfold gameLoop.
  set (w1 := maybeSpawn rnd (integrate (updateVelocity t rnd (processEffects t w)))).
  assert (I1 : In e (activeEffects (effects w1))).
  { subst w1. rewrite maybeSpawn_effects, integrate_effects,
      updateVelocity_activeEffects.
    destruct (processEffects_kept t w) as (A & _). rewrite A.
    apply filter_In. split; [exact I|apply Qgtb_gt, T]. }
  assert (I2 : In e (activeEffects (effects (updateGates render t w1)))).
  { unfold updateGates.
    pose proof (filterGates_preserves render
                  (fun w' => In e (activeEffects (effects w')))) as F.
    assert (H1 : forall w' v, In e (activeEffects (effects w')) ->
                   In e (activeEffects (effects (on_stream (set_lastGateX v) w'))))
      by (intros w' v H; exact H).
    assert (H2 : forall w', In e (activeEffects (effects w')) ->
                   In e (activeEffects (effects (gameOver render w'))))
      by (intros w' H; rewrite gameOver_effects; exact H).
    assert (H3 : forall t' gap g w', In e (activeEffects (effects w')) ->
                   In e (activeEffects (effects (snd (checkTokenCollected t' gap g w')))))
      by (intros; apply checkTokenCollected_keeps_effect; assumption).
    assert (H4 : forall g w', In e (activeEffects (effects w')) ->
                   In e (activeEffects (effects (snd (checkGatePassed g w'))))).
    { intros g w' H. destruct (checkGatePassed_counts g w') as (_ & _ & E).
      rewrite E. exact H. }
    specialize (F H1 H2 H3 H4 t (gates (stream w1)) w1 I1).
    destruct (filterGates _ _ _ _) as [kept w']. exact F. }
  destruct (outOfBounds _); cbn [fst]; [rewrite gameOver_effects|]; exact I2.
Qed.

Lemma run_keeps_effect render e es : forall w,
  In e (activeEffects (effects w)) -> framesBefore (endTime e) es ->
  In e (activeEffects (effects (run render w es))).
Proof.
  induction es as [|ev es IH]; intros w I B; [exact I|].
  inversion B as [|ev' es' Hev Hes]; subst.
  apply IH; [|exact Hes].
  destruct ev as [|t rnd]; [exact I|].
  apply gameLoop_keeps_effect; assumption.
Qed.

(** C2, amended. At every frame at which a frictionless effect is
    active, the velocity is reset to zero and gravity is not added: the
    velocity that is integrated is exactly zero, unless chaos mode is
    armed and has not run out at that frame, and then it is the
    perturbation of chaos for the frame and nothing else.  An effect
    collected at [t0] is active at every frame before [t0 + 5000] of a
    run whose frames so far all come before that time. *)
Theorem frictionless_overrides_gravity (render : Component) (t : number)
        (rnd : Draws) (w : World) :
  frictionlessActive t w ->
  let armed := chaosMode (effects w) && (t <? chaosModeEndTime (effects w)) in
  solEffectActive (effects (processEffects t w)) = true /\
  lineVelocity (player (processEffects t w)) = 0 /\
  integratedVelocity t rnd w = (if armed then 0 + (rChaos rnd - 0.5) * 2 else 0) /\
  lineY (player (fst (gameLoop render t rnd w))) =
    lineY (player w) + integratedVelocity t rnd w /\
  (forall t0 w0 es t',
     framesBefore (t0 + SOL_EFFECT_DURATION) es ->
     t' < t0 + SOL_EFFECT_DURATION ->
     frictionlessActive t' (run render (applyTokenEffect SOL t0 w0) es)).
Proof.
  intros A armed.
  apply frictionlessActive_live in A.
  destruct (processEffects_sol t w) as [S V]. rewrite A in S, V.
  destruct (processEffects_kept t w) as (_ & C1 & C2).
  split; [exact S|]. split; [exact V|]. split; [|split].
  - unfold integratedVelocity. rewrite (updateVelocity_chaos t rnd _ S).
    rewrite C1, C2, V. reflexivity.
  - apply gameLoop_integrates.
  - intros t0 w0 es t' B T.
    exists {| type := SOL; endTime := t0 + SOL_EFFECT_DURATION |}.
    split; [|split; [reflexivity|exact T]].
    apply run_keeps_effect; [|exact B].
    cbn [applyTokenEffect]. world_simpl. apply in_or_app. right. left. reflexivity.
Qed.

Lemma frictionless_overrides_gravity_witness :
  let w := collectedTwo ETH SOL 0 1000 in
  frictionlessActive 2000 w /\
  integratedVelocity 2000 chaosDraws w = 0 /\
  solEffectActive (effects (processEffects 2000 w)) = true.
Proof.
  intro w.
  assert (A : frictionlessActive 2000 w).
  { exists {| type := SOL; endTime := 1000 + SOL_EFFECT_DURATION |}.
    split; [right; left; reflexivity|]. split; [reflexivity|].
    vm_compute. reflexivity. }
  split; [exact A|].
  pose proof (frictionless_overrides_gravity initialComponent 2000 chaosDraws w A)
    as (S & _ & V & _).
  split; [exact V|exact S].
Defined.

Lemma boundary_contact_collides_witness :
  let gate := {| x := 102.53; topHeight := 300; hasPassed := false;
                 tokenType := NONE; baseGateGap := 150; isFlashing := false |} in
  let w := handleStartGame midDraws firstWorld in
  x gate - currentSpeed (effects w) <= LINE_X_POSITION /\
  LINE_X_POSITION <= x gate - currentSpeed (effects w) + GATE_WIDTH /\
  solEffectActive (effects w) = false /\
  lineY (player w) == topHeight gate /\
  gameState (react (snd (gateCallback initialComponent 0 gate w))) = GAME_OVER.
Proof.
  intros gate w.
  assert (H1 : x gate - currentSpeed (effects w) <= LINE_X_POSITION)
    by (vm_compute; congruence).
  assert (H2 : LINE_X_POSITION <= x gate - currentSpeed (effects w) + GATE_WIDTH)
    by (vm_compute; congruence).
  assert (H3 : solEffectActive (effects w) = false) by reflexivity.
  assert (H4 : lineY (player w) == topHeight gate) by reflexivity.
  repeat (split; [assumption|]).
  exact (proj2 (boundary_contact_collides initialComponent 0 gate w H1 H2 H3
                  (or_introl H4))).
Defined.

(** * More of the component *)

(** ** Where the gates are *)

Lemma spawnGate_spawnedOpening rnd s :
  Forall spawnedOpening (gates s) -> Forall spawnedOpening (gates (spawnGate rnd s)).
Proof.
  intro H. unfold spawnGate. world_simpl.
  apply Forall_app. split; [exact H|].
  constructor; [|constructor].
  unfold spawnedOpening, spawnedGap. world_simpl.
  split; [apply Q.le_max_l|]. split.
  - apply Q.max_lub; [discriminate|].
    eapply Qle_trans; [apply Q.le_min_l|discriminate].
  - destruct (_ <? _); [left|right]; reflexivity.
Qed.

Lemma run_spawnedOpening render rnd0 w0 es :
  Forall spawnedOpening (gates (stream (run render (handleStartGame rnd0 w0) es))).
Proof.
  apply run_kept.
  - intros t g w (A & B & C). unfold spawnedOpening, spawnedGap in *.
    destruct (gateCallback_opening render t g w) as [Ht Hb].
    rewrite Ht, Hb. auto.
  - apply spawnGate_spawnedOpening.
  - unfold handleStartGame, initializeGate. world_simpl.
    apply spawnGate_spawnedOpening. constructor.
Qed.

(** X1. Every gate of every run has its opening inside the playfield,
    widened or not: the top barrier is at least 50 high, the opening
    ends at 575 at the latest, and the bottom barrier that [drawGate]
    fills reaches exactly the bottom of the playfield with a height of
    at least 25. *)
Theorem gate_opening_inside_playfield (render : Component) (w0 : World)
        (rnd0 : Draws) (es : list Event) (gate : Gate) (active : bool) :
  In gate (gates (stream (run render (handleStartGame rnd0 w0) es))) ->
  let gap := actualGateGap active gate in
  50 <= topHeight gate /\
  topHeight gate + gap <= 575 /\
  Forall (fun r => 0 <= ry r /\ ry r + rh r <= GAME_HEIGHT /\ 20 <= rh r)
         (drawGateRects gate gap) /\
  (exists top bottom wick,
     drawGateRects gate gap = [top; bottom; wick] /\
     ry top == 0 /\ 50 <= rh top /\
     ry bottom + rh bottom == GAME_HEIGHT /\ 25 <= rh bottom /\
     ry bottom - (ry top + rh top) == gap).
Proof.
  intros Hin gap.
  pose proof (run_spawnedOpening render rnd0 w0 es) as F.
  rewrite Forall_forall in F. destruct (F gate Hin) as (A & B & C).
  assert (G : gap == 120 \/ gap == 150 \/ gap == 180 \/ gap == 225).
  { subst gap. unfold actualGateGap, GATE_GAP_INCREASE_PERCENT.
    destruct active, C as [C|C]; rewrite C;
      unfold NARROW_GATE_GAP, INITIAL_GATE_GAP;
      [right; right; left|right; right; right|left|right; left]; reflexivity. }
  assert (G1 : 120 <= gap /\ gap <= 225)
    by (destruct G as [G|[G|[G|G]]]; rewrite G; split; discriminate).
  destruct G1 as [G1 G2].
  split; [exact A|]. split; [lra|]. split.
  - unfold drawGateRects, GAME_HEIGHT.
    repeat constructor; cbn [rx ry rw rh]; try lra; try discriminate.
  - eexists _, _, _. split; [reflexivity|]. cbn [rx ry rw rh].
    unfold GAME_HEIGHT. repeat split; try lra; try reflexivity.
Qed.

Lemma gate_opening_inside_playfield_witness :
  let gate := {| x := 800; topHeight := 20000 # 100; hasPassed := false;
                 tokenType := NONE; baseGateGap := 150; isFlashing := false |} in
  In gate (gates (stream (run initialComponent
                            (handleStartGame midDraws firstWorld) []))) /\
  topHeight gate + actualGateGap true gate <= 575.
Proof.
  intro gate.
  assert (H : In gate (gates (stream (run initialComponent
                                        (handleStartGame midDraws firstWorld) [])))).
  { left. vm_compute. reflexivity. }
  split; [exact H|].
  exact (proj1 (proj2 (gate_opening_inside_playfield initialComponent firstWorld
                         midDraws [] gate true H))).
Defined.

Lemma checkTokenCollected_currentSpeed t gap g w :
  currentSpeed (effects (snd (checkTokenCollected t gap g w))) = currentSpeed (effects w).
Proof.
  unfold checkTokenCollected.
  destruct (TokenType_neqb _ _); [|reflexivity].
  destruct (_ <? _); [|reflexivity].
  destruct (TokenType_eqb _ _); world_simpl; destruct (tokenType g); reflexivity.
Qed.

Lemma gateCallback_currentSpeed render t g w :
  currentSpeed (effects (snd (gateCallback render t g w))) = currentSpeed (effects w).
Proof.
  apply (gateCallback_preserves render
           (fun v => currentSpeed (effects v) = currentSpeed (effects w))).
  - intros v s H. exact H.
  - intros v H. rewrite gameOver_effects. exact H.
  - intros t' gap g' v H. rewrite checkTokenCollected_currentSpeed. exact H.
  - intros g' v H. destruct (checkGatePassed_counts g' v) as (_ & _ & E).
    rewrite E. exact H.
  - reflexivity.
Qed.

(** A callback moves its gate left by the speed of the frame, and keeps
    it exactly when it did not collide and is still on screen. *)
Lemma gateCallback_moves render t g w :
  let r := gateCallback render t g w in
  x (snd (fst r)) = x g - currentSpeed (effects w) /\
  (fst (fst r) = true -> 0 < x (snd (fst r)) + GATE_WIDTH).
Proof.
  unfold gateCallback.
  destruct (advanceGate_gate t g w) as (Ex & _).
  destruct (advanceGate t g w) as [g1 w1]. cbn [fst] in Ex.
  assert (F : forall g2 w2, x g2 = x g1 ->
            x (snd (fst (finishGate g2 w2))) = x g - currentSpeed (effects w) /\
            (fst (fst (finishGate g2 w2)) = true ->
             0 < x (snd (fst (finishGate g2 w2))) + GATE_WIDTH)).
  { intros g2 w2 E2. unfold finishGate.
    destruct (checkGatePassed_gate g2 w2) as (E3 & _).
    destruct (checkGatePassed g2 w2) as [g3 w3]. cbn [fst snd] in *.
    split; [congruence|]. apply Qgtb_gt. }
  destruct (_ && _).
  - destruct (collision _ _ _ _).
    + cbn [fst snd]. split; [exact Ex|discriminate].
    + pose proof (checkTokenCollected_gate t
                    (actualGateGap (btcEffectActive (effects w1)) g1) g1 w1) as H.
      destruct (checkTokenCollected _ _ _ _) as [g2 w2]. cbn [fst] in H.
      apply F. tauto.
  - apply F. reflexivity.
Qed.

Lemma filterGates_moved render t gs : forall w,
  Forall (fun g' => 0 < x g' + GATE_WIDTH /\
                    exists g, In g gs /\ x g' = x g - currentSpeed (effects w))
         (fst (filterGates render t gs w)).
Proof.
  induction gs as [|g gs IH]; intro w; cbn [filterGates]; [constructor|].
  destruct (gateCallback_moves render t g w) as [M K].
  pose proof (gateCallback_currentSpeed render t g w) as S.
  destruct (gateCallback render t g w) as [[keep g'] w']. cbn [fst snd] in *.
  specialize (IH w').
  destruct (filterGates render t gs w') as [rest w'']. cbn [fst] in *.
  assert (R : Forall (fun g' => 0 < x g' + GATE_WIDTH /\
                exists g0, In g0 (g :: gs) /\ x g' = x g0 - currentSpeed (effects w))
                rest).
  { eapply Forall_impl; [|exact IH].
    intros a (V & g0 & I & E). split; [exact V|]. exists g0.
    split; [right; exact I|]. rewrite <- S. exact E. }
  destruct keep; [|exact R].
  constructor; [|exact R].
  split; [apply K; reflexivity|]. exists g. split; [left; reflexivity|exact M].
Qed.

(** X2. After a frame every gate still in the list is at least partly
    on screen (its right edge is right of the left border), whatever
    the world was before the frame. *)
Theorem gates_pruned_off_screen (render : Component) (t : number) (rnd : Draws)
        (w : World) :
  Forall (fun g => 0 < x g + GATE_WIDTH)
         (gates (stream (fst (gameLoop render t rnd w)))).
Proof.
  unfold gameLoop.
  set (w1 := maybeSpawn rnd (integrate (updateVelocity t rnd (processEffects t w)))).
  assert (H : Forall (fun g => 0 < x g + GATE_WIDTH)
                (gates (stream (updateGates render t w1)))).
  { unfold updateGates.
    pose proof (filterGates_moved render t (gates (stream w1)) w1) as F.
    destruct (filterGates _ _ _ _) as [kept w']. cbn [fst] in F. world_simpl.
    eapply Forall_impl; [|exact F]. intros a [V _]. exact V. }
  destruct (outOfBounds _); cbn [fst]; [rewrite gameOver_stream|]; exact H.
Qed.

Lemma updateVelocity_currentSpeed t rnd w :
  currentSpeed (effects (updateVelocity t rnd w)) = currentSpeed (effects w).
Proof.
  unfold updateVelocity.
  destruct (negb (solEffectActive (effects w))); world_simpl;
    repeat match goal with |- context [if ?c then _ else _] => destruct c end;
    reflexivity.
Qed.

Lemma processEffects_speed_bound t w :
  0 <= baseSpeed (stream w) ->
  baseSpeed (stream w) * 0.5 <= currentSpeed (effects (processEffects t w)) /\
  currentSpeed (effects (processEffects t w)) <= baseSpeed (stream w) * 2.
Proof.
  intro H. unfold processEffects. rewrite fold_applyActive_speed. world_simpl.
  destruct (find setsSpeed _) as [e|]; [|lra].
  destruct (type e); cbn [speedSetBy];
    unfold BTC_SPEED_BOOST, SOL_SPEED_BOOST; lra.
Qed.

Lemma difficultyInv_baseSpeed s : difficultyInv s -> GATE_SPEED <= baseSpeed s.
Proof.
  intros (Hpos & Hlvl & Hspd). rewrite Hspd.
  assert (L : (1 <= difficultyLevel s)%Z).
  { rewrite Hlvl. unfold DIFFICULTY_GATE_THRESHOLD.
    pose proof (Z.div_pos (gatesPassed s) 15 Hpos ltac:(lia)). lia. }
  eapply Qle_trans; [|apply speedAtLevel_mono, L].
  unfold speedAtLevel, GATE_SPEED, DIFFICULTY_INCREASE. cbn. discriminate.
Qed.

(** X3. In every run the speed of a frame is between half the initial
    speed and twice the base speed, so it is positive; every gate left
    after the frame is a gate of before moved left by exactly that
    speed, or the gate spawned in the frame, moved from the right edge
    by that speed. *)
Theorem gates_move_left (render : Component) (w0 : World) (rnd0 : Draws)
        (es : list Event) (t : number) (rnd : Draws) :
  let w := run render (handleStartGame rnd0 w0) es in
  let s := currentSpeed (effects (processEffects t w)) in
  GATE_SPEED * 0.5 <= s /\ s <= baseSpeed (stream w) * 2 /\
  Forall (fun g' => (exists g, In g (gates (stream w)) /\ x g' = x g - s) \/
                    x g' = GAME_WIDTH - s)
         (gates (stream (fst (gameLoop render t rnd w)))).
Proof.
  intros w s.
  assert (I : difficultyInv (stream w))
    by (apply run_difficultyInv, handleStartGame_difficultyInv).
  pose proof (difficultyInv_baseSpeed _ I) as B.
  assert (B0 : 0 <= baseSpeed (stream w))
    by (eapply Qle_trans; [|exact B]; discriminate).
  destruct (processEffects_speed_bound t w B0) as [L U]. fold s in L, U.
  split; [unfold GATE_SPEED in *; lra|]. split; [exact U|].
  unfold gameLoop.
  set (w1 := integrate (updateVelocity t rnd (processEffects t w))).
  assert (S1 : stream w1 = stream w).
  { subst w1. rewrite integrate_stream, updateVelocity_stream, processEffects_stream.
    reflexivity. }
  assert (C1 : currentSpeed (effects (maybeSpawn rnd w1)) = s).
  { rewrite maybeSpawn_effects. subst w1.
    rewrite integrate_effects, updateVelocity_currentSpeed. reflexivity. }
  assert (G1 : forall g, In g (gates (stream (maybeSpawn rnd w1))) ->
                 In g (gates (stream w)) \/ x g = GAME_WIDTH).
  { intros g. unfold maybeSpawn. destruct (_ <=? _); [|rewrite S1; auto].
    world_simpl. destruct (spawnGate_kind rnd (stream w1)) as (n & En & _).
    rewrite En. intro H. apply in_app_or in H. destruct H as [H|[H|[]]].
    - left. rewrite <- S1. exact H.
    - right. subst g. unfold spawnGate in En. world_simpl_in En.
      apply app_inv_head in En. injection En as <-. reflexivity. }
  assert (H : Forall (fun g' => (exists g, In g (gates (stream w)) /\ x g' = x g - s) \/
                                x g' = GAME_WIDTH - s)
                (gates (stream (updateGates render t (maybeSpawn rnd w1))))).
  { unfold updateGates.
    pose proof (filterGates_moved render t (gates (stream (maybeSpawn rnd w1)))
                  (maybeSpawn rnd w1)) as F.
    destruct (filterGates _ _ _ _) as [kept w']. cbn [fst] in F. world_simpl.
    eapply Forall_impl; [|exact F]. intros a (_ & g & Ig & Eg).
    rewrite C1 in Eg. destruct (G1 g Ig) as [K|K].
    - left. exists g. split; assumption.
    - right. rewrite Eg, K. reflexivity. }
  destruct (outOfBounds _); cbn [fst]; [rewrite gameOver_stream|]; exact H.
Qed.

(** ** The score *)

Lemma checkGatePassed_cases g w :
  checkGatePassed g w = (g, w) \/
  (hasPassed g = false /\ x g + GATE_WIDTH < LINE_X_POSITION /\
   hasPassed (fst (checkGatePassed g w)) = true /\
   gatesPassed (stream (snd (checkGatePassed g w))) = (gatesPassed (stream w) + 1)%Z).
Proof.
  destruct (hasPassed g) eqn:Hp.
  - left. apply checkGatePassed_skipped. left. exact Hp.
  - destruct (Qlt_le_dec (x g + GATE_WIDTH) LINE_X_POSITION) as [L|L].
    + right. destruct (checkGatePassed_taken g w Hp L) as (A & _ & C). tauto.
    + left. apply checkGatePassed_skipped. right. exact L.
Qed.

Lemma checkGatePassed_score g w :
  scoreIsPassages w -> scoreIsPassages (snd (checkGatePassed g w)).
Proof.
  intros [A B]. unfold checkGatePassed.
  destruct (_ && _); [|split; assumption].
  world_simpl. destruct (_ =? _)%Z; split; reflexivity.
Qed.

Lemma scoreIsPassages_same w w' :
  gatesPassed (stream w') = gatesPassed (stream w) ->
  currentScore (stream w') = currentScore (stream w) ->
  score (react w') = score (react w) ->
  scoreIsPassages w -> scoreIsPassages w'.
Proof. intros A B C [D E]. split; congruence. Qed.

Lemma gameOver_score render w : score (react (gameOver render w)) = score (react w).
Proof.
  unfold gameOver. destruct (raiseCounts _ _) as [n u].
  destruct u; destruct (_ >? _)%Z; reflexivity.
Qed.

Lemma checkTokenCollected_score t gap g w :
  score (react (snd (checkTokenCollected t gap g w))) = score (react w).
Proof.
  unfold checkTokenCollected.
  destruct (TokenType_neqb _ _); [|reflexivity].
  destruct (_ <? _); [|reflexivity].
  destruct (applyTokenEffect_counts (tokenType g) t w) as [_ B].
  destruct (TokenType_eqb _ _); world_simpl; rewrite B; reflexivity.
Qed.

Lemma spawnGate_counters rnd s :
  gatesPassed (spawnGate rnd s) = gatesPassed s /\
  currentScore (spawnGate rnd s) = currentScore s.
Proof. split; reflexivity. Qed.

Lemma gameLoop_score render t rnd w :
  scoreIsPassages w -> scoreIsPassages (fst (gameLoop render t rnd w)).
Proof.
  intro H. unfold gameLoop.
  set (w1 := maybeSpawn rnd (integrate (updateVelocity t rnd (processEffects t w)))).
  assert (H1 : scoreIsPassages w1).
  { assert (O : sameOutside w w1).
    { subst w1.
      eapply sameOutside_trans; [apply processEffects_outside|].
      eapply sameOutside_trans; [apply updateVelocity_outside|].
      eapply sameOutside_trans; [apply integrate_outside|].
      apply maybeSpawn_outside. }
    destruct O as (R & _ & _).
    assert (S : gatesPassed (stream w1) = gatesPassed (stream w) /\
                currentScore (stream w1) = currentScore (stream w)).
    { subst w1. unfold maybeSpawn. destruct (_ <=? _); world_simpl;
        rewrite ?integrate_stream, ?updateVelocity_stream, ?processEffects_stream;
        split; reflexivity. }
    destruct S as [S1 S2].
    apply (scoreIsPassages_same w w1 S1 S2); [rewrite R; reflexivity|exact H]. }
  assert (H2 : scoreIsPassages (updateGates render t w1)).
  { unfold updateGates.
    pose proof (filterGates_preserves render scoreIsPassages) as F.
    assert (A1 : forall v s, scoreIsPassages v ->
                   scoreIsPassages (on_stream (set_lastGateX s) v))
      by (intros v s K; exact K).
    assert (A2 : forall v, scoreIsPassages v -> scoreIsPassages (gameOver render v)).
    { intros v K. apply (scoreIsPassages_same v); [| |apply gameOver_score|exact K];
        rewrite gameOver_stream; reflexivity. }
    assert (A3 : forall t' gap g v, scoreIsPassages v ->
                   scoreIsPassages (snd (checkTokenCollected t' gap g v))).
    { intros t' gap g v K.
      apply (scoreIsPassages_same v);
        [| |apply checkTokenCollected_score|exact K];
        rewrite checkTokenCollected_stream; reflexivity. }
    specialize (F A1 A2 A3 (fun g v => checkGatePassed_score g v)
                  t (gates (stream w1)) w1 H1).
    destruct (filterGates _ _ _ _) as [kept w']. exact F. }
  destruct (outOfBounds _); cbn [fst]; [|exact H2].
  apply (scoreIsPassages_same (updateGates render t w1));
    [| |apply gameOver_score|exact H2]; rewrite gameOver_stream; reflexivity.
Qed.

Lemma run_score render es : forall w,
  scoreIsPassages w -> scoreIsPassages (run render w es).
Proof.
  induction es as [|e es IH]; intros w K; [exact K|].
  apply IH. destruct e as [|t rnd]; [exact K|apply gameLoop_score, K].
Qed.

(** X4. In every run the score of the loop and the score cell shown
    on screen both equal the passage counter, which starts at zero and
    never goes down. *)
Theorem score_is_passage_counter (render : Component) (w0 : World)
        (rnd0 : Draws) (es : list Event) :
  let w := run render (handleStartGame rnd0 w0) es in
  currentScore (stream w) = gatesPassed (stream w) /\
  score (react w) = gatesPassed (stream w) /\
  (0 <= gatesPassed (stream w))%Z /\
  gatesPassed (stream (handleStartGame rnd0 w0)) = 0%Z.
Proof.
  intro w.
  assert (S : scoreIsPassages w) by (apply run_score; split; reflexivity).
  destruct S as [A B]. split; [exact A|]. split; [exact B|]. split; [|reflexivity].
  pose proof (run_count_mono render es (handleStartGame rnd0 w0)) as M.
  fold w in M. cbn in M. exact M.
Qed.

Lemma gateCallback_passage render t g w :
  let r := gateCallback render t g w in
  (gatesPassed (stream (snd r)) = gatesPassed (stream w) /\
   hasPassed (snd (fst r)) = hasPassed g) \/
  (hasPassed g = false /\ hasPassed (snd (fst r)) = true /\
   x g - currentSpeed (effects w) + GATE_WIDTH < LINE_X_POSITION /\
   gatesPassed (stream (snd r)) = (gatesPassed (stream w) + 1)%Z).
Proof.
  unfold gateCallback.
  destruct (advanceGate_gate t g w) as (Ex & _ & _ & _ & Ep).
  assert (Es : gatesPassed (stream (snd (advanceGate t g w))) = gatesPassed (stream w)).
  { unfold advanceGate. cbn [snd]. destruct (_ >? _); reflexivity. }
  destruct (advanceGate t g w) as [g1 w1]. cbn [fst snd] in *.
  assert (F : forall g2 w2,
            x g2 = x g1 -> hasPassed g2 = hasPassed g1 ->
            gatesPassed (stream w2) = gatesPassed (stream w1) ->
            (gatesPassed (stream (snd (finishGate g2 w2))) = gatesPassed (stream w) /\
             hasPassed (snd (fst (finishGate g2 w2))) = hasPassed g) \/
            (hasPassed g = false /\ hasPassed (snd (fst (finishGate g2 w2))) = true /\
             x g - currentSpeed (effects w) + GATE_WIDTH < LINE_X_POSITION /\
             gatesPassed (stream (snd (finishGate g2 w2))) =
               (gatesPassed (stream w) + 1)%Z)).
  { intros g2 w2 E1 E2 E3. unfold finishGate.
    destruct (checkGatePassed_cases g2 w2) as [C|(C1 & C2 & C3 & C4)].
    - rewrite C. cbn [fst snd]. left. split; congruence.
    - destruct (checkGatePassed g2 w2) as [g3 w3]. cbn [fst snd] in *.
      right. split; [congruence|]. split; [exact C3|].
      split; [rewrite <- Ex, <- E1; exact C2|congruence]. }
  destruct (_ && _).
  - destruct (collision _ _ _ _).
    + cbn [fst snd]. left. rewrite gameOver_stream. split; assumption.
    + pose proof (checkTokenCollected_gate t
                    (actualGateGap (btcEffectActive (effects w1)) g1) g1 w1) as H.
      pose proof (checkTokenCollected_stream t
                    (actualGateGap (btcEffectActive (effects w1)) g1) g1 w1) as S.
      destruct (checkTokenCollected _ _ _ _) as [g2 w2]. cbn [fst snd] in *.
      apply F; [tauto|tauto|rewrite S; reflexivity].
  - apply F; reflexivity.
Qed.

Lemma laterCallbacks_passed render frames : forall gate,
  hasPassed gate = true -> hasPassed (laterCallbacks render frames gate) = true.
Proof.
  induction frames as [|[t w] rest IH]; intros gate H; [exact H|].
  cbn [laterCallbacks]. apply IH.
  destruct (gateCallback_passage render t gate w) as [[_ A]|(A & _)]; congruence.
Qed.

(** X5. A gate is counted at most once: a callback either leaves the
    passage counter and the passed flag as they were, or finds the gate
    not yet passed with its right edge left of the player, flags it and
    adds exactly one; a flagged gate stays flagged and no later callback
    on it changes the counter. *)
Theorem gate_counted_once (render : Component) (t : number) (gate : Gate)
        (w : World) :
  let r := gateCallback render t gate w in
  ((gatesPassed (stream (snd r)) = gatesPassed (stream w) /\
    hasPassed (snd (fst r)) = hasPassed gate) \/
   (hasPassed gate = false /\ hasPassed (snd (fst r)) = true /\
    x gate - currentSpeed (effects w) + GATE_WIDTH < LINE_X_POSITION /\
    gatesPassed (stream (snd r)) = (gatesPassed (stream w) + 1)%Z)) /\
  (hasPassed (snd (fst r)) = true ->
   forall frames t' w',
     let later := laterCallbacks render frames (snd (fst r)) in
     hasPassed later = true /\
     gatesPassed (stream (snd (gateCallback render t' later w'))) =
       gatesPassed (stream w')).
Proof.
  intro r. split; [apply gateCallback_passage|].
  intros H frames t' w' later.
  assert (L : hasPassed later = true) by (apply laterCallbacks_passed, H).
  split; [exact L|].
  destruct (gateCallback_passage render t' later w') as [[A _]|(A & _)];
    [exact A|congruence].
Qed.


(** ** The flags of a frame *)

Lemma applyActive_flags w e :
  btcEffectActive (effects (applyActive w e)) =
    (btcEffectActive (effects w) || TokenType_eqb (type e) BTC) /\
  flashingGates (effects (applyActive w e)) =
    (flashingGates (effects w) || TokenType_eqb (type e) TAO) /\
  isGoldMode (effects (applyActive w e)) =
    (isGoldMode (effects w) || TokenType_eqb (type e) HBAR).
Proof.
  unfold applyActive.
  destruct (type e); cbn [TokenType_eqb TokenType_neqb negb]; world_simpl;
    rewrite ?orb_false_r, ?orb_true_r; repeat split.
Qed.

Lemma fold_applyActive_flags l : forall w,
  btcEffectActive (effects (fold_left applyActive l w)) =
    (btcEffectActive (effects w) || liveKind BTC l) /\
  flashingGates (effects (fold_left applyActive l w)) =
    (flashingGates (effects w) || liveKind TAO l) /\
  isGoldMode (effects (fold_left applyActive l w)) =
    (isGoldMode (effects w) || liveKind HBAR l).
Proof.
  unfold liveKind.
  induction l as [|e l IH]; intro w; cbn [fold_left existsb].
  - rewrite !orb_false_r. repeat split.
  - destruct (IH (applyActive w e)) as (A & B & C).
    destruct (applyActive_flags w e) as (A' & B' & C').
    rewrite A, B, C, A', B', C', !orb_assoc. repeat split.
Qed.

(** X6. The flags of a frame are computed from scratch: after
    [processEffects] the list holds exactly the effects the timestamp
    has not reached, in their order, and each flag (widened gap,
    frictionless, flashing, gold) is on exactly when an effect of its
    kind is among them, whatever the flags were before; with no
    speed-setting effect among them the speed is the base speed. *)
Theorem flags_recomputed_each_frame (t : number) (w : World) :
  let live := unexpired t (activeEffects (effects w)) in
  let e' := effects (processEffects t w) in
  activeEffects e' = live /\
  (forall e, In e live <-> In e (activeEffects (effects w)) /\ t < endTime e) /\
  btcEffectActive e' = liveKind BTC live /\
  solEffectActive e' = liveKind SOL live /\
  flashingGates e' = liveKind TAO live /\
  isGoldMode e' = liveKind HBAR live /\
  (liveKind BTC live = false -> liveKind ETH live = false ->
   liveKind SOL live = false -> currentSpeed e' = baseSpeed (stream w)).
Proof.
  intros live e'.
  destruct (processEffects_kept t w) as (K & _).
  destruct (processEffects_sol t w) as (S & _).
  split; [exact K|]. split.
  { intro e. subst live. unfold unexpired. rewrite filter_In, Qgtb_gt. tauto. }
  assert (F : btcEffectActive e' = liveKind BTC live /\
              flashingGates e' = liveKind TAO live /\
              isGoldMode e' = liveKind HBAR live).
  { subst e'. unfold processEffects. fold live.
    match goal with |- context [fold_left applyActive ?l ?v] =>
      destruct (fold_applyActive_flags l v) as (A & B & C) end.
    rewrite A, B, C. repeat split. }
  destruct F as (A & B & C).
  split; [exact A|]. split; [exact S|]. split; [exact B|]. split; [exact C|].
  intros NB NE NS. subst e'. unfold processEffects. fold live.
  rewrite fold_applyActive_speed. world_simpl.
  destruct (find setsSpeed (rev live)) as [e|] eqn:E; [|reflexivity].
  apply find_some in E. destruct E as [I P]. apply in_rev in I.
  assert (X : forall k, type e = k -> liveKind k live = true).
  { intros k <-. unfold liveKind. apply existsb_exists. exists e.
    split; [exact I|]. destruct (type e); reflexivity. }
  unfold setsSpeed in P.
  destruct (type e) eqn:T; cbn [speedSetBy] in *; try discriminate;
    specialize (X _ eq_refl); congruence.
Qed.

(** ** Which effects are tracked *)

Lemma applyTokenEffect_tracked k t w :
  Forall (fun e => trackedKind (type e)) (activeEffects (effects w)) ->
  Forall (fun e => trackedKind (type e))
         (activeEffects (effects (applyTokenEffect k t w))).
Proof.
  intro H. destruct k; cbn [applyTokenEffect]; world_simpl; try exact H;
    apply Forall_app; (split; [exact H|]); repeat constructor.
Qed.

Lemma checkTokenCollected_tracked t gap g w :
  Forall (fun e => trackedKind (type e)) (activeEffects (effects w)) ->
  Forall (fun e => trackedKind (type e))
         (activeEffects (effects (snd (checkTokenCollected t gap g w)))).
Proof.
  intro H. unfold checkTokenCollected.
  destruct (TokenType_neqb _ _); [|exact H].
  destruct (_ <? _); [|exact H].
  pose proof (applyTokenEffect_tracked (tokenType g) t w H) as A.
  destruct (TokenType_eqb _ _); world_simpl; exact A.
Qed.

Lemma gameLoop_tracked render t rnd w :
  Forall (fun e => trackedKind (type e)) (activeEffects (effects w)) ->
  Forall (fun e => trackedKind (type e))
         (activeEffects (effects (fst (gameLoop render t rnd w)))).
Proof.
  intro H. unfold gameLoop.
  set (w1 := maybeSpawn rnd (integrate (updateVelocity t rnd (processEffects t w)))).
  set (P := fun v : World =>
              Forall (fun e => trackedKind (type e)) (activeEffects (effects v))).
  assert (H1 : P w1).
  { subst P w1. cbv beta.
    rewrite maybeSpawn_effects, integrate_effects, updateVelocity_activeEffects.
    destruct (processEffects_kept t w) as (A & _). rewrite A.
    unfold unexpired. rewrite Forall_forall in *. intros e I.
    apply filter_In in I. apply H. tauto. }
  assert (H2 : P (updateGates render t w1)).
  { unfold updateGates.
    pose proof (filterGates_preserves render P) as F.
    assert (A1 : forall v s, P v -> P (on_stream (set_lastGateX s) v))
      by (intros v s K; exact K).
    assert (A2 : forall v, P v -> P (gameOver render v))
      by (intros v K; unfold P; rewrite gameOver_effects; exact K).
    assert (A3 : forall t' gap g v, P v -> P (snd (checkTokenCollected t' gap g v)))
      by (intros t' gap g v K; apply checkTokenCollected_tracked, K).
    assert (A4 : forall g v, P v -> P (snd (checkGatePassed g v))).
    { intros g v K. unfold P.
      destruct (checkGatePassed_counts g v) as (_ & _ & E). rewrite E. exact K. }
    specialize (F A1 A2 A3 A4 t (gates (stream w1)) w1 H1).
    destruct (filterGates _ _ _ _) as [kept w']. exact F. }
  destruct (outOfBounds _); cbn [fst]; [unfold P in *; rewrite gameOver_effects|];
    exact H2.
Qed.

Lemma run_tracked render es : forall w,
  Forall (fun e => trackedKind (type e)) (activeEffects (effects w)) ->
  Forall (fun e => trackedKind (type e)) (activeEffects (effects (run render w es))).
Proof.
  induction es as [|e es IH]; intros w K; [exact K|].
  apply IH. destruct e as [|t rnd]; [exact K|apply gameLoop_tracked, K].
Qed.

(** X7. The chaos kind is never a tracked effect: in every run the
    list of active effects only holds the five kinds that
    [applyTokenEffect] pushes.  Collecting a BCH token leaves the list
    as it was and arms chaos mode until 3000 ms after the collection;
    collecting a token of another kind leaves chaos mode as it was. *)
Theorem chaos_is_not_an_effect (render : Component) (w0 : World) (rnd0 : Draws)
        (es : list Event) :
  let w := run render (handleStartGame rnd0 w0) es in
  Forall (fun e => trackedKind (type e)) (activeEffects (effects w)) /\
  (forall t gap gate v,
     tokenType gate <> NONE ->
     Qabs (lineY (player v) - (topHeight gate + gap / 2)) < TOKEN_COLLECTION_RADIUS ->
     let v' := snd (checkTokenCollected t gap gate v) in
     (tokenType gate = BCH ->
      activeEffects (effects v') = activeEffects (effects v) /\
      chaosMode (effects v') = true /\
      chaosModeEndTime (effects v') = t + BCH_CHAOS_DURATION) /\
     (tokenType gate <> BCH ->
      chaosMode (effects v') = chaosMode (effects v) /\
      chaosModeEndTime (effects v') = chaosModeEndTime (effects v) /\
      exists e, activeEffects (effects v') = activeEffects (effects v) ++ [e] /\
                type e = tokenType gate /\ t < endTime e)).
Proof.
  intro w. split; [apply run_tracked; constructor|].
  intros t gap gate v Hk Hy v'. subst v'. unfold checkTokenCollected.
  replace (TokenType_neqb _ _) with true
    by (symmetry; apply TokenType_neqb_neq; exact Hk).
  replace (_ <? _) with true by (symmetry; apply Qltb_lt; exact Hy).
  split.
  - intros ->. repeat split.
  - intro Hb. destruct (tokenType gate) eqn:T; try congruence;
      cbn [TokenType_eqb TokenType_neqb negb applyTokenEffect]; world_simpl;
      (split; [reflexivity|]); (split; [reflexivity|]);
      eexists; (split; [reflexivity|]); (split; [reflexivity|]); world_simpl;
      unfold SOL_EFFECT_DURATION; lra.
Qed.

(** ** Chaos mode *)

Lemma updateVelocity_spec t rnd w :
  let armed := chaosMode (effects w) && (t <? chaosModeEndTime (effects w)) in
  lineVelocity (player (updateVelocity t rnd w)) =
    (if armed then velocityBeforeChaos w + (rChaos rnd - 0.5) * 2
     else velocityBeforeChaos w) /\
  chaosMode (effects (updateVelocity t rnd w)) = armed /\
  chaosModeEndTime (effects (updateVelocity t rnd w)) = chaosModeEndTime (effects w).
Proof.
  unfold updateVelocity, velocityBeforeChaos.
  destruct (solEffectActive (effects w)); cbn [negb]; world_simpl;
    destruct (chaosMode (effects w)) eqn:C; cbn [andb];
    try (repeat split; world_simpl; assumption);
    destruct (t <? chaosModeEndTime (effects w)) eqn:T;
    try (repeat split; world_simpl; assumption);
    apply Qltb_ge in T; apply Qgeb_ge in T; rewrite T; repeat split.
Qed.

(** X8. What chaos mode does to the velocity of a frame.  While it is
    armed and the timestamp is before its end, it adds
    [(r - 0.5) * 2] to the velocity, which for a draw of the unit
    interval lies in [-1, 1), and it stays armed; at the first frame at
    or after its end it disarms and adds nothing; disarmed, it adds
    nothing and stays disarmed. *)
Theorem chaos_perturbation (t : number) (rnd : Draws) (w : World) :
  unit_draw (rChaos rnd) ->
  let w' := updateVelocity t rnd w in
  let delta := lineVelocity (player w') - velocityBeforeChaos w in
  (chaosMode (effects w) = true -> t < chaosModeEndTime (effects w) ->
   chaosMode (effects w') = true /\
   delta == (rChaos rnd - 0.5) * 2 /\ -1 <= delta /\ delta < 1) /\
  (chaosMode (effects w) = true -> chaosModeEndTime (effects w) <= t ->
   chaosMode (effects w') = false /\ delta == 0) /\
  (chaosMode (effects w) = false ->
   chaosMode (effects w') = false /\ delta == 0) /\
  chaosModeEndTime (effects w') = chaosModeEndTime (effects w).
Proof.
  intros [U0 U1] w' delta.
  destruct (updateVelocity_spec t rnd w) as (V & C & E). fold w' in V, C, E.
  subst delta. rewrite V, C.
  split; [|split; [|split; [|exact E]]].
  - intros A T. rewrite A. apply Qltb_lt in T. rewrite T. cbn [andb].
    split; [reflexivity|]. split; [ring|]. split; lra.
  - intros A T. rewrite A. apply Qltb_ge in T. rewrite T. cbn [andb].
    split; [reflexivity|ring].
  - intros A. rewrite A. cbn [andb]. split; [reflexivity|ring].
Qed.

Lemma chaos_perturbation_witness :
  let w := collectedTwo BCH SOL 0 1000 in
  unit_draw (rChaos chaosDraws) /\
  chaosMode (effects (updateVelocity 3000 chaosDraws w)) = false.
Proof.
  intro w.
  assert (U : unit_draw (rChaos chaosDraws)) by (split; vm_compute; congruence).
  split; [exact U|].
  pose proof (chaos_perturbation 3000 chaosDraws w U) as (_ & D & _).
  apply D; [reflexivity|vm_compute; congruence].
Defined.

(** ** The frictionless effect and the gates *)

Lemma checkTokenCollected_ghost t gap g w :
  solEffectActive (effects (snd (checkTokenCollected t gap g w))) =
    solEffectActive (effects w) /\
  gameState (react (snd (checkTokenCollected t gap g w))) = gameState (react w) /\
  localStorage (snd (checkTokenCollected t gap g w)) = localStorage w.
Proof.
  unfold checkTokenCollected.
  destruct (TokenType_neqb _ _); [|repeat split].
  destruct (_ <? _); [|repeat split].
  destruct (TokenType_eqb _ _); world_simpl; destruct (tokenType g); repeat split.
Qed.

Lemma checkGatePassed_ghost g w :
  solEffectActive (effects (snd (checkGatePassed g w))) = solEffectActive (effects w) /\
  gameState (react (snd (checkGatePassed g w))) = gameState (react w) /\
  localStorage (snd (checkGatePassed g w)) = localStorage w.
Proof.
  unfold checkGatePassed. destruct (_ && _); [|repeat split].
  world_simpl. destruct (_ =? _)%Z; repeat split.
Qed.

Lemma gateCallback_ghost render t g w :
  solEffectActive (effects w) = true ->
  let r := gateCallback render t g w in
  solEffectActive (effects (snd r)) = true /\
  gameState (react (snd r)) = gameState (react w) /\
  localStorage (snd r) = localStorage w /\
  fst (fst r) = (x g - currentSpeed (effects w) + GATE_WIDTH >? 0).
Proof.
  intro S. unfold gateCallback.
  destruct (advanceGate_gate t g w) as (Ex & _).
  destruct (advanceGate_world t g w) as (_ & Ee & _ & Er & El).
  destruct (advanceGate t g w) as [g1 w1]. cbn [fst snd] in *.
  assert (F : forall g2 w2,
            x g2 = x g1 ->
            solEffectActive (effects w2) = true ->
            gameState (react w2) = gameState (react w) ->
            localStorage w2 = localStorage w ->
            solEffectActive (effects (snd (finishGate g2 w2))) = true /\
            gameState (react (snd (finishGate g2 w2))) = gameState (react w) /\
            localStorage (snd (finishGate g2 w2)) = localStorage w /\
            fst (fst (finishGate g2 w2)) =
              (x g - currentSpeed (effects w) + GATE_WIDTH >? 0)).
  { intros g2 w2 E1 E2 E3 E4. unfold finishGate.
    destruct (checkGatePassed_ghost g2 w2) as (A & B & C).
    destruct (checkGatePassed_gate g2 w2) as (D & _).
    destruct (checkGatePassed g2 w2) as [g3 w3]. cbn [fst snd] in *.
    rewrite A, B, C, D, E1, Ex. repeat split; assumption. }
  rewrite Ee, S. unfold collision at 1. cbn [negb].
  destruct (_ && _).
  - destruct (checkTokenCollected_ghost t
                (actualGateGap (btcEffectActive (effects w)) g1) g1 w1) as (A & B & C).
    pose proof (checkTokenCollected_gate t
                  (actualGateGap (btcEffectActive (effects w)) g1) g1 w1) as (D & _).
    destruct (checkTokenCollected _ _ _ _) as [g2 w2]. cbn [fst snd] in *.
    apply F; [exact D| | |]; congruence.
  - apply F; [reflexivity| | |]; congruence.
Qed.

Lemma filterGates_ghost render t gs : forall w,
  solEffectActive (effects w) = true ->
  solEffectActive (effects (snd (filterGates render t gs w))) = true /\
  gameState (react (snd (filterGates render t gs w))) = gameState (react w) /\
  localStorage (snd (filterGates render t gs w)) = localStorage w.
Proof.
  induction gs as [|g gs IH]; intros w S; cbn [filterGates]; [repeat split; exact S|].
  destruct (gateCallback_ghost render t g w S) as (A & B & C & _).
  destruct (gateCallback render t g w) as [[keep g'] w']. cbn [fst snd] in *.
  destruct (IH w' A) as (A' & B' & C').
  destruct (filterGates render t gs w') as [rest w'']. cbn [snd] in *.
  repeat split; congruence.
Qed.

(** X9. While a frictionless effect is active the gates are ghosts: no
    callback of the frame ends the run or writes to the storage,
    wherever the player is, and a gate is dropped only when it has left
    the screen.  The frame ends the run exactly when the player is out
    of bounds. *)
Theorem frictionless_suppresses_collisions (render : Component) (t : number)
        (rnd : Draws) (w : World) :
  frictionlessActive t w ->
  let r := gameLoop render t rnd w in
  (forall gate v, solEffectActive (effects v) = true ->
     gameState (react (snd (gateCallback render t gate v))) = gameState (react v) /\
     fst (fst (gateCallback render t gate v)) =
       (x gate - currentSpeed (effects v) + GATE_WIDTH >? 0)) /\
  (snd r = true ->
   gameState (react (fst r)) = gameState (react w) /\
   localStorage (fst r) = localStorage w) /\
  (gameState (react w) <> GAME_OVER ->
   (gameState (react (fst r)) = GAME_OVER <-> snd r = false)).
Proof.
  intros A r.
  apply frictionlessActive_live in A.
  destruct (processEffects_sol t w) as [S _]. rewrite A in S.
  split.
  { intros gate v Sv. destruct (gateCallback_ghost render t gate v Sv) as (_ & B & _ & D).
    split; assumption. }
  set (w1 := maybeSpawn rnd (integrate (updateVelocity t rnd (processEffects t w)))).
  assert (S1 : solEffectActive (effects w1) = true).
  { subst w1. rewrite maybeSpawn_effects, integrate_effects.
    unfold updateVelocity. rewrite S. cbn [negb].
    repeat match goal with |- context [if ?c then _ else _] => destruct c end;
      exact S. }
  assert (O : sameOutside w w1).
  { subst w1.
    eapply sameOutside_trans; [apply processEffects_outside|].
    eapply sameOutside_trans; [apply updateVelocity_outside|].
    eapply sameOutside_trans; [apply integrate_outside|].
    apply maybeSpawn_outside. }
  destruct O as (R & _ & L).
  assert (U : gameState (react (updateGates render t w1)) = gameState (react w) /\
              localStorage (updateGates render t w1) = localStorage w).
  { unfold updateGates.
    destruct (filterGates_ghost render t (gates (stream w1)) w1 S1) as (_ & B & C).
    destruct (filterGates _ _ _ _) as [kept w']. cbn [snd] in *. world_simpl.
    rewrite B, C, R, L. split; reflexivity. }
  destruct U as [U1 U2].
  subst r. unfold gameLoop. fold w1.
  destruct (outOfBounds _); cbn [fst snd].
  - split; [discriminate|]. intros _. split; [reflexivity|].
    intros _. apply gameOver_gameState.
  - split; [intros _; split; assumption|].
    intro N. rewrite U1. split; [contradiction|discriminate].
Qed.

Lemma frictionless_suppresses_collisions_witness :
  let w := collectedTwo ETH SOL 0 1000 in
  frictionlessActive 2000 w /\
  gameState (react (fst (gameLoop initialComponent 2000 midDraws w))) = PLAYING.
Proof.
  intro w.
  assert (A : frictionlessActive 2000 w).
  { exists {| type := SOL; endTime := 1000 + SOL_EFFECT_DURATION |}.
    split; [right; left; reflexivity|]. split; [reflexivity|].
    vm_compute. reflexivity. }
  split; [exact A|].
  pose proof (frictionless_suppresses_collisions initialComponent 2000 midDraws w A)
    as (_ & K & _).
  exact (proj1 (K eq_refl)).
Defined.

(** ** The widened gap *)

Lemma processEffects_btc t w :
  btcEffectActive (effects (processEffects t w)) =
  liveKind BTC (unexpired t (activeEffects (effects w))).
Proof.
  unfold processEffects.
  match goal with |- context [fold_left applyActive ?l ?v] =>
    destruct (fold_applyActive_flags l v) as (A & _) end.
  rewrite A. reflexivity.
Qed.

(** X10. The widen-gap effect rescues the band below the base opening:
    a position at or below the un-widened bottom boundary but above the
    widened one collides without the effect and passes with it.  The
    effect of a token collected at [t0] is on at every frame before
    [t0 + 10000] of a run whose frames so far all come before that time,
    and a frame at or after the end of every BTC effect has it off. *)
Theorem widened_gap_rescues_band (gate : Gate) (y : number) :
  topHeight gate < y ->
  topHeight gate + baseGateGap gate <= y ->
  y < topHeight gate + baseGateGap gate * 1.5 ->
  collision false y gate (actualGateGap false gate) = true /\
  collision false y gate (actualGateGap true gate) = false /\
  (forall render t0 w0 es t',
     framesBefore (t0 + 10000) es -> t' < t0 + 10000 ->
     btcEffectActive
       (effects (processEffects t' (run render (applyTokenEffect BTC t0 w0) es))) = true) /\
  (forall t' w,
     Forall (fun e => type e = BTC -> endTime e <= t') (activeEffects (effects w)) ->
     btcEffectActive (effects (processEffects t' w)) = false).
Proof.
  intros H1 H2 H3.
  assert (E : actualGateGap true gate == baseGateGap gate * 1.5).
  { unfold actualGateGap, GATE_GAP_INCREASE_PERCENT.
    setoid_replace (50 / 100) with 0.5 by reflexivity. lra. }
  split; [|split; [|split]].
  - unfold collision, actualGateGap. cbn [negb].
    replace (_ >=? _) with true by (symmetry; apply Qgeb_ge; exact H2).
    reflexivity.
  - unfold collision. cbn [negb].
    replace (y <=? topHeight gate) with false.
    2:{ symmetry. apply not_true_is_false. intro K. apply Qleb_le in K.
        exact (Qlt_not_le _ _ H1 K). }
    replace (_ >=? _) with false; [reflexivity|].
    symmetry. apply not_true_is_false. intro K. apply Qgeb_ge in K.
    rewrite E in K. exact (Qlt_not_le _ _ H3 K).
  - intros render t0 w0 es t' B T.
    rewrite processEffects_btc. unfold liveKind. apply existsb_exists.
    exists {| type := BTC; endTime := t0 + 10000 |}.
    split; [|reflexivity].
    unfold unexpired. apply filter_In. split; [|apply Qgtb_gt; exact T].
    apply run_keeps_effect; [|exact B].
    cbn [applyTokenEffect]. world_simpl. apply in_or_app. right. left. reflexivity.
  - intros t' w F. rewrite processEffects_btc. unfold liveKind.
    apply not_true_is_false. intro K. apply existsb_exists in K.
    destruct K as (e & I & Ke). unfold unexpired in I. apply filter_In in I.
    destruct I as [I T]. apply Qgtb_gt in T.
    rewrite Forall_forall in F. specialize (F e I).
    assert (Tb : type e = BTC) by (destruct (type e); try discriminate; reflexivity).
    exact (Qlt_not_le _ _ T (F Tb)).
Qed.

Lemma widened_gap_rescues_band_witness :
  let gate := {| x := 100; topHeight := 200; hasPassed := false;
                 tokenType := NONE; baseGateGap := 150; isFlashing := false |} in
  topHeight gate < 360 /\
  topHeight gate + baseGateGap gate <= 360 /\
  360 < topHeight gate + baseGateGap gate * 1.5 /\
  collision false 360 gate (actualGateGap true gate) = false.
Proof.
  intro gate.
  assert (H1 : topHeight gate < 360) by reflexivity.
  assert (H2 : topHeight gate + baseGateGap gate <= 360) by (vm_compute; congruence).
  assert (H3 : 360 < topHeight gate + baseGateGap gate * 1.5) by reflexivity.
  repeat (split; [assumption|]).
  exact (proj1 (proj2 (widened_gap_rescues_band gate 360 H1 H2 H3))).
Defined.

(** ** The records that outlive a run *)

(** The game-over block, field by field. *)
Lemma gameOver_closed render w :
  gameOver render w =
  let higher := (currentScore (stream w) >? highScore render)%Z in
  let raised := raiseCounts (tokenCountsRef w) (highestTokenCounts render) in
  {| player := player w; stream := stream w; effects := effects w;
     react :=
       {| gameState := GAME_OVER; score := score (react w);
          highScore := if higher then currentScore (stream w)
                       else highScore (react w);
          tokenCounts := tokenCountsRef w;
          highestTokenCounts := if snd raised then fst raised
                                else highestTokenCounts (react w) |};
     tokenCountsRef := tokenCountsRef w;
     localStorage :=
       {| btcGameHighScore := if higher then Some (currentScore (stream w))
                              else btcGameHighScore (localStorage w);
          btcGameHighestTokenCounts :=
            if snd raised then Some (fst raised)
            else btcGameHighestTokenCounts (localStorage w) |} |}.
Proof.
  destruct w as [p s e r c l]. destruct r, l. unfold gameOver. world_simpl.
  destruct (_ >? _)%Z; world_simpl;
    destruct (raiseCounts _ _) as [n u]; destruct u; reflexivity.
Qed.

(** X11. The game-over block is idempotent: run a second time on the
    world it left (as when a collision and leaving the playfield fall
    in the same frame), it changes nothing. *)
Theorem gameOver_idempotent (render : Component) (w : World) :
  gameOver render (gameOver render w) = gameOver render w.
Proof.
  rewrite (gameOver_closed render (gameOver render w)).
  rewrite !(gameOver_closed render w). cbv zeta. world_simpl.
  destruct (raiseCounts (tokenCountsRef w) (highestTokenCounts render)) as [n u].
  cbn [fst snd].
  destruct (currentScore (stream w) >? highScore render)%Z; destruct u; reflexivity.
Qed.

Lemma bestScore_stored l :
  bestScore l = match btcGameHighScore l with Some v => v | None => 0%Z end.
Proof.
  unfold bestScore, loadSaved.
  destruct (btcGameHighestTokenCounts l), (btcGameHighScore l); reflexivity.
Qed.

Lemma gameOver_highScore render w :
  btcGameHighScore (localStorage (gameOver render w)) =
    (if (currentScore (stream w) >? highScore render)%Z
     then Some (currentScore (stream w))
     else btcGameHighScore (localStorage w)) /\
  highScore (react (gameOver render w)) =
    (if (currentScore (stream w) >? highScore render)%Z
     then currentScore (stream w)
     else highScore (react w)).
Proof.
  unfold gameOver. world_simpl.
  destruct (_ >? _)%Z; world_simpl;
    destruct (raiseCounts _ _) as [n u]; destruct u; split; reflexivity.
Qed.

Lemma gameOver_bestScore render w :
  scoreWithin render w ->
  bestScore (localStorage (gameOver render w)) =
    Z.max (bestScore (localStorage w)) (currentScore (stream w)) /\
  scoreWithin render (gameOver render w).
Proof.
  intro J. unfold scoreWithin in *. rewrite gameOver_stream.
  destruct (gameOver_highScore render w) as [A _].
  rewrite (bestScore_stored (localStorage (gameOver render w))), A.
  destruct (Z.gtb_spec (currentScore (stream w)) (highScore render)).
  - split; [destruct J; lia|right; lia].
  - rewrite <- bestScore_stored. split; [destruct J; lia|exact J].
Qed.

Section CounterPreservation.

Variable render : Component.
Variable P : World -> Prop.

Hypothesis P_frame : forall w w',
  localStorage w' = localStorage w ->
  currentScore (stream w') = currentScore (stream w) ->
  gatesPassed (stream w') = gatesPassed (stream w) ->
  P w -> P w'.
Hypothesis P_gameOver : forall w, P w -> P (gameOver render w).
Hypothesis P_passed : forall g w, P w -> P (snd (checkGatePassed g w)).

Lemma gameLoop_counter_preserves t rnd w :
  P w -> P (fst (gameLoop render t rnd w)).
Proof.
  intro H. unfold gameLoop.
  set (w1 := maybeSpawn rnd (integrate (updateVelocity t rnd (processEffects t w)))).
  assert (H1 : P w1).
  { assert (O : sameOutside w w1).
    { subst w1.
      eapply sameOutside_trans; [apply processEffects_outside|].
      eapply sameOutside_trans; [apply updateVelocity_outside|].
      eapply sameOutside_trans; [apply integrate_outside|].
      apply maybeSpawn_outside. }
    destruct O as (_ & _ & L).
    refine (P_frame w w1 L _ _ H); subst w1; unfold maybeSpawn;
      destruct (_ <=? _); world_simpl;
      rewrite ?integrate_stream, ?updateVelocity_stream, ?processEffects_stream;
      reflexivity. }
  assert (H2 : P (updateGates render t w1)).
  { unfold updateGates.
    pose proof (filterGates_preserves render P) as F.
    assert (A1 : forall v s, P v -> P (on_stream (set_lastGateX s) v))
      by (intros v s; apply P_frame; reflexivity).
    assert (A3 : forall t' gap g v, P v -> P (snd (checkTokenCollected t' gap g v))).
    { intros t' gap g v. 
      destruct (checkTokenCollected_ghost t' gap g v) as (_ & _ & L).
      apply P_frame; [exact L| |]; rewrite checkTokenCollected_stream; reflexivity. }
    specialize (F A1 P_gameOver A3 P_passed t (gates (stream w1)) w1 H1).
    destruct (filterGates _ _ _ _) as [kept w']. cbn [snd] in F.
    refine (P_frame _ _ _ _ _ F); reflexivity. }
  destruct (outOfBounds _); cbn [fst]; [apply P_gameOver|]; exact H2.
Qed.

Lemma run_counter_preserves es : forall w, P w -> P (run render w es).
Proof.
  induction es as [|e es IH]; intros w H; [exact H|].
  apply IH. destruct e as [|t rnd].
  - refine (P_frame _ _ _ _ _ H); reflexivity.
  - apply gameLoop_counter_preserves, H.
Qed.

End CounterPreservation.

Lemma checkGatePassed_currentScore g w :
  currentScore (stream w) = gatesPassed (stream w) ->
  (currentScore (stream w) <= currentScore (stream (snd (checkGatePassed g w))))%Z /\
  currentScore (stream (snd (checkGatePassed g w))) =
    gatesPassed (stream (snd (checkGatePassed g w))).
Proof.
  intro E. unfold checkGatePassed.
  destruct (_ && _); world_simpl; [|split; [lia|exact E]].
  destruct (_ =? _)%Z; world_simpl; split; lia.
Qed.

(** Through a run the stored best score stays between the captured one
    and the score of the run, and only grows. *)
Lemma run_scoreWithin render es w b :
  scoreWithin render w -> currentScore (stream w) = gatesPassed (stream w) ->
  (b <= bestScore (localStorage w))%Z ->
  scoreWithin render (run render w es) /\
  (b <= bestScore (localStorage (run render w es)))%Z.
Proof.
  intros J E B.
  pose (P := fun v : World =>
               scoreWithin render v /\
               currentScore (stream v) = gatesPassed (stream v) /\
               (b <= bestScore (localStorage v))%Z).
  assert (HP : P (run render w es)).
  { apply (run_counter_preserves render P).
    - intros v v' L C G (A1 & A2 & A3). unfold P, scoreWithin in *.
      rewrite L, C, G. auto.
    - intros v (A1 & A2 & A3). destruct (gameOver_bestScore render v A1) as [M K].
      split; [exact K|]. rewrite gameOver_stream, M. split; [exact A2|lia].
    - intros g v (A1 & A2 & A3).
      destruct (checkGatePassed_currentScore g v A2) as [M K].
      destruct (checkGatePassed_outside g v) as (_ & L & _).
      unfold P, scoreWithin in *. rewrite L. split; [|split; assumption].
      destruct A1 as [A1|A1]; [left; exact A1|right; lia].
    - split; [exact J|split; assumption]. }
  destruct HP as (A1 & _ & A3). split; assumption.
Qed.

(** X12. At the end of a run the stored best score becomes the larger
    of itself and the score of the run, so it never decreases; this
    holds at every end of a run that started from cells in step with
    the storage, after any events, and the stored best score has not
    gone down during the run either. *)
Theorem best_score_never_decreases (w0 : World) (rnd0 : Draws) (es : list Event) :
  highScore (react w0) = bestScore (localStorage w0) ->
  let start := handleStartGame rnd0 w0 in
  let render := react start in
  let w := run render start es in
  bestScore (localStorage (gameOver render w)) =
    Z.max (bestScore (localStorage w)) (currentScore (stream w)) /\
  (bestScore (localStorage w0) <= bestScore (localStorage w))%Z /\
  (bestScore (localStorage w) <= bestScore (localStorage (gameOver render w)))%Z.
Proof.
  intros S start render w.
  assert (J0 : scoreWithin render start) by (left; symmetry; exact S).
  destruct (run_scoreWithin render es start (bestScore (localStorage w0)) J0
              eq_refl (Z.le_refl _)) as [J B].
  fold w in J, B.
  destruct (gameOver_bestScore render w J) as [M _].
  split; [exact M|]. split; [exact B|]. rewrite M. lia.
Qed.

Lemma best_score_never_decreases_witness :
  let w0 := freshWorld mounted zeroCounts someStorage in
  highScore (react w0) = bestScore (localStorage w0) /\
  (bestScore (localStorage w0) <=
   bestScore (localStorage (run (react (handleStartGame midDraws w0))
                                (handleStartGame midDraws w0) [Impulse])))%Z.
Proof.
  intro w0.
  assert (S : highScore (react w0) = bestScore (localStorage w0)) by reflexivity.
  split; [exact S|].
  exact (proj1 (proj2 (best_score_never_decreases w0 midDraws [Impulse] S))).
Defined.

Lemma gameOver_cellsInStorage render w :
  cellsInStorage w -> cellsInStorage (gameOver render w).
Proof.
  intros [A B]. rewrite gameOver_closed. cbv zeta.
  unfold cellsInStorage, loadSaved in *. world_simpl.
  destruct (_ >? _)%Z;
    destruct (snd (raiseCounts _ _));
    destruct (btcGameHighScore (localStorage w));
    destruct (btcGameHighestTokenCounts (localStorage w));
    world_simpl_in A; world_simpl_in B; world_simpl;
    split; first [reflexivity | assumption].
Qed.

(** X13. Nothing is lost on a reload: from cells in step with the
    storage (as a mount leaves them), after a start and any events of a
    run under any capture, the best score and the best counts a mount
    would load from the storage are those the cells hold. *)
Theorem storage_round_trip (render : Component) (w0 : World) (rnd0 : Draws)
        (es : list Event) :
  cellsInStorage w0 ->
  let w := run render (handleStartGame rnd0 w0) es in
  highScore (loadSaved (localStorage w) initialComponent) = highScore (react w) /\
  highestTokenCounts (loadSaved (localStorage w) initialComponent) =
    highestTokenCounts (react w) /\
  (forall l ref, cellsInStorage (freshWorld (loadSaved l initialComponent) ref l)).
Proof.
  intros C w.
  assert (K : cellsInStorage w).
  { apply (run_outside_preserves render cellsInStorage).
    - intros v v' (R & _ & L) H. unfold cellsInStorage. rewrite R, L. exact H.
    - intro v. apply gameOver_cellsInStorage.
    - intros t gap g v H. unfold cellsInStorage.
      destruct (checkTokenCollected_ghost t gap g v) as (_ & _ & L). rewrite L.
      unfold checkTokenCollected.
      destruct (TokenType_neqb _ _); [|exact H].
      destruct (_ <? _); [|exact H].
      destruct (TokenType_eqb _ _); world_simpl; destruct (tokenType g); exact H.
    - intros g v H. unfold cellsInStorage.
      destruct (checkGatePassed_outside g v) as (_ & L & R). rewrite L, R.
      unfold checkGatePassed. destruct (_ && _); [|exact H].
      world_simpl. destruct (_ =? _)%Z; exact H.
    - exact C. }
  destruct K as [A B]. split; [symmetry; exact A|]. split; [symmetry; exact B|].
  intros l ref. split; reflexivity.
Qed.

Lemma storage_round_trip_witness :
  let w0 := freshWorld mounted zeroCounts someStorage in
  cellsInStorage w0 /\
  highScore (loadSaved (localStorage (run mounted (handleStartGame midDraws w0) []))
                       initialComponent) = 7%Z.
Proof.
  intro w0.
  assert (C : cellsInStorage w0) by (split; reflexivity).
  split; [exact C|].
  rewrite (proj1 (storage_round_trip mounted w0 midDraws [] C)). reflexivity.
Defined.

(** ** The trail *)

Lemma arraySet_inside {A : Type} (a : JsArray A) (i : nat) (v : option A) :
  (i < length a)%nat ->
  length (arraySet a i v) = length a /\
  forall j, nth j (arraySet a i v) None = if (j =? i)%nat then v else nth j a None.
Proof.
  intro H. unfold arraySet.
  replace (i <? length a)%nat with true by (symmetry; apply Nat.ltb_lt; exact H).
  assert (Lf : length (firstn i a) = i) by (rewrite length_firstn; lia).
  split.
  - rewrite length_app. cbn [length]. rewrite Lf, length_skipn. lia.
  - intro j. destruct (Nat.eqb_spec j i) as [->|N].
    + rewrite app_nth2 by lia. rewrite Lf, Nat.sub_diag. reflexivity.
    + destruct (Nat.lt_ge_cases j i) as [L|G].
      * rewrite app_nth1 by lia. rewrite nth_firstn.
        replace (j <? i)%nat with true by (symmetry; apply Nat.ltb_lt; exact L).
        reflexivity.
      * rewrite app_nth2 by lia. rewrite Lf.
        destruct (j - i)%nat as [|k] eqn:K; [lia|]. cbn [nth].
        rewrite nth_skipn. f_equal. lia.
Qed.

Lemma shiftTrail_nth count : forall start trail,
  (start + count < length trail)%nat ->
  length (shiftTrail count start trail) = length trail /\
  forall j, nth j (shiftTrail count start trail) None =
            if ((start <=? j) && (j <? start + count))%nat
            then nth (S j) trail None else nth j trail None.
Proof.
  induction count as [|c IH]; intros start trail H; cbn [shiftTrail].
  - split; [reflexivity|]. intro j.
    replace (j <? start + 0)%nat with (j <? start)%nat by (f_equal; lia).
    destruct (Nat.leb_spec start j); destruct (Nat.ltb_spec j start);
      cbn [andb]; try reflexivity; lia.
  - destruct (arraySet_inside trail start (arrayGet trail (S start)) ltac:(lia))
      as [L N].
    destruct (IH (S start) (arraySet trail start (arrayGet trail (S start)))
                ltac:(rewrite L; lia)) as [L' N'].
    split; [congruence|]. intro j. rewrite N', !N. unfold arrayGet.
    destruct (Nat.leb_spec (S start) j); destruct (Nat.ltb_spec j (S start + c));
      destruct (Nat.leb_spec start j); destruct (Nat.ltb_spec j (start + S c));
      destruct (Nat.eqb_spec (S j) start); destruct (Nat.eqb_spec j start);
      cbn [andb]; subst; try reflexivity; lia.
Qed.

Lemma updateTrail_fifo trail p :
  length trail = S lineColumn -> updateTrail trail p = tl trail ++ [Some p].
Proof.
  intro H. unfold updateTrail.
  destruct (shiftTrail_nth lineColumn 0 trail ltac:(lia)) as [L N].
  destruct (arraySet_inside (shiftTrail lineColumn 0 trail) lineColumn (Some p)
              ltac:(lia)) as [L' N'].
  destruct trail as [|a rest]; [cbn [length] in H; lia|]. cbn [tl length] in *.
  apply (nth_ext _ _ None None).
  - rewrite L', L, length_app. cbn [length]. lia.
  - intros j Hj. rewrite N', N.
    destruct (Nat.eqb_spec j lineColumn) as [->|E].
    + rewrite app_nth2 by lia. replace (lineColumn - length rest)%nat with 0%nat by lia.
      reflexivity.
    + rewrite L', L in Hj. cbn [length] in Hj.
      replace ((0 <=? j) && (j <? 0 + lineColumn))%nat with true.
      2:{ symmetry. apply andb_true_intro. split;
            [apply Nat.leb_le|apply Nat.ltb_lt]; lia. }
      cbn [nth]. rewrite app_nth1 by lia. reflexivity.
Qed.

Lemma feedTrail_fifo ps : forall trail,
  length trail = S lineColumn ->
  feedTrail trail ps = skipn (length ps) (trail ++ map Some ps) /\
  length (feedTrail trail ps) = S lineColumn.
Proof.
  induction ps as [|p ps IH]; intros trail H.
  - unfold feedTrail. cbn [fold_left length map skipn]. rewrite app_nil_r.
    split; [reflexivity|exact H].
  - change (feedTrail trail (p :: ps)) with (feedTrail (updateTrail trail p) ps).
    rewrite (updateTrail_fifo trail p H).
    destruct trail as [|a rest]; [cbn [length] in H; lia|]. cbn [tl].
    assert (H' : length (rest ++ [Some p]) = S lineColumn).
    { rewrite length_app. cbn [length] in *. lia. }
    destruct (IH _ H') as [E L]. split; [|exact L].
    rewrite E, <- app_assoc. cbn [skipn app length map]. reflexivity.
Qed.

(** X14. The trail is a queue of fixed length: on an array of
    [LINE_X_POSITION + 1] slots (the initial trail is one), the shift
    loop and the store of a frame drop the oldest slot and append the
    sample of the frame; so after any number of frames the trail holds,
    oldest first, the last 101 of its initial slots followed by the
    samples, and its length never changes. *)
Theorem trail_is_a_queue (trail : JsArray TrailPoint) (ps : list TrailPoint)
        (p : TrailPoint) :
  length trail = S lineColumn ->
  updateTrail trail p = tl trail ++ [Some p] /\
  feedTrail trail ps = skipn (length ps) (trail ++ map Some ps) /\
  length (feedTrail trail ps) = 101%nat /\
  (forall y0, length (initialTrail y0) = S lineColumn).
Proof.
  intro H. split; [apply updateTrail_fifo, H|].
  destruct (feedTrail_fifo ps trail H) as [E L].
  split; [exact E|]. split; [rewrite L; reflexivity|].
  intro y0. unfold initialTrail. apply repeat_length.
Qed.

Lemma trail_is_a_queue_witness :
  let p := {| trail_y := 295; trail_isAscending := true |} in
  length (initialTrail 300) = S lineColumn /\
  nth 100 (updateTrail (initialTrail 300) p) None = Some p.
Proof.
  intro p.
  assert (H : length (initialTrail 300) = S lineColumn) by reflexivity.
  split; [exact H|].
  rewrite (proj1 (trail_is_a_queue (initialTrail 300) [] p H)). reflexivity.
Defined.

(** ** The screen flash *)

Lemma screenFlashAlpha_value t f :
  screenFlashAlpha t f =
  if t - f <? SCREEN_FLASH_DURATION
  then Some ((1 - (t - f) / SCREEN_FLASH_DURATION) * 0.7) else None.
Proof. reflexivity. Qed.

(** X15. The flash of a collection: a frame draws it exactly while
    less than 150 ms have passed since the collection; its alpha is 0.7
    at the frame of the collection, positive and at most 0.7 at every
    later frame that draws it, and smaller the later the frame is. *)
Theorem screen_flash_fades (flashTime t1 t2 : number) :
  flashTime <= t1 -> t1 <= t2 ->
  (screenFlashAlpha t1 flashTime <> None <-> t1 < flashTime + SCREEN_FLASH_DURATION) /\
  (exists a0, screenFlashAlpha flashTime flashTime = Some a0 /\ a0 == 0.7) /\
  (forall a1, screenFlashAlpha t1 flashTime = Some a1 ->
     0 < a1 /\ a1 <= 0.7 /\
     a1 == (1 - (t1 - flashTime) * (1 # 150)) * 0.7 /\
     forall a2, screenFlashAlpha t2 flashTime = Some a2 -> a2 <= a1) /\
  (forall t gap gate w,
     tokenType gate <> NONE ->
     Qabs (lineY (player w) - (topHeight gate + gap / 2)) < TOKEN_COLLECTION_RADIUS ->
     screenFlashTime (effects (snd (checkTokenCollected t gap gate w))) = t).
Proof.
  intros H1 H2.
  assert (D : forall u, (u - flashTime) / SCREEN_FLASH_DURATION
                        == (u - flashTime) * (1 # 150)).
  { intro u. unfold SCREEN_FLASH_DURATION, Qdiv. reflexivity. }
  assert (V : forall u a, screenFlashAlpha u flashTime = Some a ->
                u < flashTime + 150 /\ a == (1 - (u - flashTime) * (1 # 150)) * 0.7).
  { intros u a. rewrite screenFlashAlpha_value.
    destruct (_ <? _) eqn:E; [|discriminate]. intros [= <-].
    apply Qltb_lt in E. unfold SCREEN_FLASH_DURATION in E.
    split; [lra|]. rewrite D. reflexivity. }
  split; [|split; [|split]].
  - rewrite screenFlashAlpha_value. unfold SCREEN_FLASH_DURATION.
    destruct (_ <? _) eqn:E.
    + apply Qltb_lt in E. split; [intros _; lra|discriminate].
    + apply Qltb_ge in E. split; [congruence|intro K; exfalso; lra].
  - rewrite screenFlashAlpha_value.
    replace (_ <? _) with true by (symmetry; apply Qltb_lt;
                                   unfold SCREEN_FLASH_DURATION; lra).
    eexists. split; [reflexivity|]. rewrite D. lra.
  - intros a1 E1. destruct (V t1 a1 E1) as [B1 Q1].
    split; [rewrite Q1; lra|]. split; [rewrite Q1; lra|]. split; [exact Q1|].
    intros a2 E2. destruct (V t2 a2 E2) as [B2 Q2]. rewrite Q1, Q2. lra.
  - intros t gap gate w Hk Hy. unfold checkTokenCollected.
    replace (TokenType_neqb _ _) with true
      by (symmetry; apply TokenType_neqb_neq; exact Hk).
    replace (_ <? _) with true by (symmetry; apply Qltb_lt; exact Hy).
    destruct (TokenType_eqb _ _); reflexivity.
Qed.

Lemma screen_flash_fades_witness :
  1000 <= 1075 /\ 1075 <= 1100 /\
  (screenFlashAlpha 1075 1000 <> None <-> 1075 < 1000 + SCREEN_FLASH_DURATION).
Proof.
  assert (H1 : 1000 <= 1075) by discriminate.
  assert (H2 : 1075 <= 1100) by discriminate.
  split; [exact H1|]. split; [exact H2|].
  exact (proj1 (screen_flash_fades 1000 1075 1100 H1 H2)).
Defined.

(** ** Flashing gates *)

Lemma rem2_even (n : Z) : (Z.rem n 2 =? 0)%Z = Z.even n.
Proof.
  destruct (Z.le_gt_cases 0 n) as [H|H].
  - rewrite Z.rem_mod_nonneg by lia. rewrite Zmod_even.
    destruct (Z.even n); reflexivity.
  - replace n with (- (- n))%Z at 1 by lia.
    rewrite Z.rem_opp_l', Z.rem_mod_nonneg by lia.
    rewrite Zmod_even, Z.even_opp. destruct (Z.even n); reflexivity.
Qed.

Lemma Qfloor_next_slot (t : number) :
  Qfloor ((t + 200) / 200) = (Qfloor (t / 200) + 1)%Z.
Proof.
  apply Qfloor_eq.
  pose proof (Qfloor_le (t / 200)) as L.
  pose proof (Qlt_floor (t / 200)) as U.
  rewrite inject_Z_plus in *.
  assert (E : (t + 200) / 200 == t / 200 + 1)
    by (unfold Qdiv; change (/ 200) with (1 # 200); lra).
  rewrite E. change (inject_Z 1) with 1 in *. split; lra.
Qed.

Lemma gateCallback_isFlashing render t g w :
  isFlashing (snd (fst (gateCallback render t g w))) =
  if flashingGates (effects w) then Z.even (Qfloor (t / 200)) else false.
Proof.
  unfold gateCallback.
  assert (A : isFlashing (fst (advanceGate t g w)) =
              if flashingGates (effects w) then Z.even (Qfloor (t / 200)) else false).
  { unfold advanceGate. cbn [fst].
    destruct (_ >? _); world_simpl; destruct (flashingGates (effects w));
      world_simpl; first [apply rem2_even|reflexivity]. }
  destruct (advanceGate t g w) as [g1 w1]. cbn [fst] in A.
  assert (F : forall g2 w2, isFlashing g2 = isFlashing g1 ->
            isFlashing (snd (fst (finishGate g2 w2))) =
            if flashingGates (effects w) then Z.even (Qfloor (t / 200)) else false).
  { intros g2 w2 E. unfold finishGate, checkGatePassed.
    destruct (_ && _); world_simpl; congruence. }
  destruct (_ && _).
  - destruct (collision _ _ _ _); [exact A|].
    unfold checkTokenCollected.
    destruct (TokenType_neqb _ _); [|apply F; reflexivity].
    destruct (_ <? _); apply F; reflexivity.
  - apply F. reflexivity.
Qed.

(** X16. While the flashing effect is on, the flashing flag a callback
    leaves on its gate flips every 200 ms of timestamp and so repeats
    every 400 ms; it is on during the first 200 ms after time zero.
    While the effect is off the flag is off. *)
Theorem gate_flashing_period (render : Component) (t : number) (gate : Gate)
        (w : World) :
  let flag u := isFlashing (snd (fst (gateCallback render u gate w))) in
  (flashingGates (effects w) = true ->
   flag (t + 200) = negb (flag t) /\
   flag (t + 200 + 200) = flag t /\
   (0 <= t -> t < 200 -> flag t = true)) /\
  (flashingGates (effects w) = false -> flag t = false).
Proof.
  intro flag. subst flag. cbv beta. rewrite !gateCallback_isFlashing.
  split; intro F; rewrite F; [|reflexivity].
  rewrite !Qfloor_next_slot.
  rewrite !Z.even_add. cbn [Z.even].
  split; [destruct (Z.even (Qfloor (t / 200))); reflexivity|].
  split; [destruct (Z.even (Qfloor (t / 200))); reflexivity|].
  intros H0 H1.
  assert (E : Qfloor (t / 200) = 0%Z).
  { apply Qfloor_eq. change (inject_Z 0) with 0.
    assert (D : t / 200 == t * (1 # 200)) by (unfold Qdiv; reflexivity).
    rewrite D. split; lra. }
  rewrite E. reflexivity.
Qed.

(** ** The counters of a run *)

Lemma incrCount_grows c k k' n n' :
  getCount c k' = Some n -> getCount (incrCount c k) k' = Some n' -> (n <= n')%Z.
Proof.
  intros A B. destruct (TokenType_eq_dec k' k) as [->|N].
  - rewrite (getCount_incrCount_same _ _ _ A) in B. injection B as <-. lia.
  - rewrite getCount_incrCount_other in B by exact N.
    rewrite A in B. injection B as <-. lia.
Qed.

Lemma checkTokenCollected_ref t gap g w :
  tokenCountsRef (snd (checkTokenCollected t gap g w)) = tokenCountsRef w \/
  tokenCountsRef (snd (checkTokenCollected t gap g w)) =
    incrCount (tokenCountsRef w) (tokenType g).
Proof.
  unfold checkTokenCollected.
  destruct (TokenType_neqb _ _); [|left; reflexivity].
  destruct (_ <? _); [|left; reflexivity].
  right. destruct (applyTokenEffect_counts (tokenType g) t w) as [A _].
  destruct (TokenType_eqb _ _); world_simpl; rewrite A; reflexivity.
Qed.

Lemma run_counts_grow render es w k n n' :
  getCount (tokenCountsRef w) k = Some n ->
  getCount (tokenCountsRef (run render w es)) k = Some n' -> (n <= n')%Z.
Proof.
  intros A.
  assert (Hk : k <> NONE) by (intros ->; discriminate).
  pose (P := fun v : World =>
               forall m, getCount (tokenCountsRef v) k = Some m -> (n <= m)%Z).
  assert (HP : P (run render w es)).
  { apply (run_outside_preserves render P).
    - intros v v' (_ & T & _) H m. rewrite T. apply H.
    - intros v H m. rewrite gameOver_tokenCountsRef. apply H.
    - intros t gap g v H m B.
      destruct (checkTokenCollected_ref t gap g v) as [E|E]; rewrite E in B.
      + apply H, B.
      + destruct (getCount_some (tokenCountsRef v) k Hk) as [m0 M0].
        pose proof (incrCount_grows _ _ _ _ _ M0 B). specialize (H m0 M0). lia.
    - intros g v H m. destruct (checkGatePassed_counts g v) as (T & _).
      rewrite T. apply H.
    - intros m B. rewrite A in B. injection B as <-. lia. }
  intro B. exact (HP n' B).
Qed.

(** X17. The counters of a run: a start sets them to zero; through
    the run the ref and the cell shown on screen hold the same counts,
    no counter is ever negative, and no counter ever goes down. *)
Theorem run_counters (render : Component) (w0 : World) (rnd0 : Draws)
        (es es' : list Event) :
  let start := handleStartGame rnd0 w0 in
  let w := run render start es in
  tokenCountsRef start = zeroCounts /\
  tokenCounts (react w) = tokenCountsRef w /\
  (forall k n, getCount (tokenCountsRef w) k = Some n -> (0 <= n)%Z) /\
  (forall k n n',
     getCount (tokenCountsRef w) k = Some n ->
     getCount (tokenCountsRef (run render start (es ++ es'))) k = Some n' ->
     (n <= n')%Z).
Proof.
  intros start w. split; [reflexivity|].
  split; [apply run_ref_in_step; reflexivity|]. split.
  - intros k n H.
    assert (Hk : k <> NONE) by (intros ->; discriminate).
    destruct (getCount_some (tokenCountsRef start) k Hk) as [z Z0].
    pose proof (run_counts_grow render es start k z n Z0 H) as G.
    assert (Zz : z = 0%Z).
    { change (tokenCountsRef start) with zeroCounts in Z0.
      destruct k; cbn in Z0; congruence. }
    subst z. exact G.
  - intros k n n' A B. rewrite run_app in B. fold start w in B.
    exact (run_counts_grow render es' w k n n' A B).
Qed.

(** ** The kind remembered between spawns *)

(** X18. A frame spawns a gate exactly when the newest gate has come
    in by the spawn distance ([lastGateX <= 600] at the start of the
    frame); the kind remembered in [lastTokenType] is then the kind
    drawn for that gate, and otherwise is what it was: nothing but a
    spawn writes it, neither collecting the token nor an impulse. *)
Theorem last_kind_written_by_spawn_only (render : Component) (t : number)
        (rnd : Draws) (w : World) :
  let w' := fst (gameLoop render t rnd w) in
  (lastGateX (stream w) <= GAME_WIDTH - GATE_DISTANCE ->
   lastTokenType (stream w') = getRandomTokenType rnd (lastTokenType (stream w))) /\
  (GAME_WIDTH - GATE_DISTANCE < lastGateX (stream w) ->
   lastTokenType (stream w') = lastTokenType (stream w)) /\
  lastTokenType (stream (handleInput w)) = lastTokenType (stream w) /\
  GAME_WIDTH - GATE_DISTANCE == 600.
Proof.
  intro w'. destruct (gameLoop_lastTokenType render t rnd w) as [_ E].
  fold w' in E. rewrite E.
  split; [|split; [|split; reflexivity]].
  - intro H. apply Qleb_le in H. unfold Qleb in *. rewrite H. reflexivity.
  - intro H. destruct (lastGateX (stream w) <=? GAME_WIDTH - GATE_DISTANCE) eqn:K;
      [|reflexivity].
    apply Qleb_le in K. exfalso. exact (Qlt_not_le _ _ H K).
Qed.
